(** * Sequelize query helpers: identifier quoting and option-object utilities

    A shallow embedding of the quote helpers of the query generator
    ([quoteIdentifier] and the list of reserved words of PostgreSQL) and of
    the helpers of [src/utils.ts] ([addTicks], [removeTicks],
    [combineTableNames], [mergeDefaults], [cloneDeep], [flattenObjectDeep],
    [mapOptionFieldNames], [mapWhereFieldNames], [mapValueFieldNames] and
    the class [Fn]), followed by the properties established about them.
    The embedding also covers [isIdentifierQuoted] and, of [src/utils.ts],
    [merge], [spliceStr], [camelize], [camelizeObjectKeys],
    [mapFinderOptions], [isColString], [removeNullValuesFromHash],
    [getComplexSize], [isWhereEmpty], [generateEnumName] and [intersects].

    Strings are sequences of code units from 0 to 255, the characters
    U+0000 to U+00FF; JavaScript compares and searches strings code unit
    by code unit, which is what the functions below do. [toLowerCase] is
    JavaScript's on these code units: it moves [A] to [Z] and the capital
    letters of Latin-1. Upper-casing moves the small letters whose capital
    is one such code unit; a property that states an upper-cased form
    excludes the three code units whose capital is not. Objects carry an
    identity, so that an object handed on as it is can be told from a
    copy, and a function that changes an object in place returns the
    object with its identity and its new properties. Values are trees: a
    property that depends on what an object changed in place holds
    afterwards asks that no array or plain object occurs twice in the
    arguments. An assignment to the key [__proto__] sets the prototype of
    an object and stores no property, which a value does not record: a
    property about a function that assigns under computed keys excludes
    that key. Numbers are integers. *)

From Stdlib Require Import String Ascii List ZArith Lia Bool PeanoNat.
From Stdlib Require Import DecimalString.
Import ListNotations.
Open Scope string_scope.
Open Scope bool_scope.

(** ** JavaScript string primitives used by the sources *)

Module JSString.

(** The double-quote character, code 34. *)
Definition DQUOTE : ascii := "034"%char.

(** [s.replace(/[...]/g, '')] for a character class: every code unit the
    class accepts is dropped, the others are kept in order. *)
Fixpoint remove_all (cls : ascii -> bool) (s : string) : string :=
  match s with
  | EmptyString => EmptyString
  | String c s' =>
      if cls c then remove_all cls s' else String c (remove_all cls s')
  end.

(** [s.includes(needle)]: [needle] occurs in [s] as a contiguous run. *)
Fixpoint includes (s needle : string) : bool :=
  if String.prefix needle s then true
  else match s with
       | EmptyString => false
       | String _ s' => includes s' needle
       end.

(** [c] lower-cased: the letters [A]..[Z] move to [a]..[z], and the
    capital letters of Latin-1, the code units 192 to 222 but the
    multiplication sign 215, move up by 32 as well. No other code unit has
    a small form. *)
Definition lower_char (c : ascii) : ascii :=
  let n := nat_of_ascii c in
  if ((65 <=? n)%nat && (n <=? 90)%nat)
     || ((192 <=? n)%nat && (n <=? 222)%nat && negb (n =? 215)%nat)
  then ascii_of_nat (n + 32) else c.

(** [s.toLowerCase()] on the code units of [s]. *)
Fixpoint toLowerCase (s : string) : string :=
  match s with
  | EmptyString => EmptyString
  | String c s' => String (lower_char c) (toLowerCase s')
  end.

(** [s.split(sep)] for a one-character separator; [cur] is the piece being
    read. *)
Fixpoint split_from (sep : ascii) (cur s : string) : list string :=
  match s with
  | EmptyString => [cur]
  | String c s' =>
      if Ascii.eqb c sep then cur :: split_from sep EmptyString s'
      else split_from sep (cur ++ String c EmptyString) s'
  end.

Definition split (sep : ascii) (s : string) : list string :=
  split_from sep EmptyString s.

(** [arr.includes(x)] on an array of strings. *)
Definition array_includes (arr : list string) (x : string) : bool :=
  existsb (String.eqb x) arr.

(** [a < b] on strings: lexicographic on code units. *)
Definition lt (a b : string) : bool := String.ltb a b.

(** [c.toUpperCase()] for one code unit: the letters [a]..[z] move to
    [A]..[Z], and the small letters of Latin-1, the code units 224 to 254
    but the division sign 247, move down by 32. Three code units have a
    capital that is not one code unit of the model: 223 (sharp s, whose
    capital is two letters), 181 (micro sign) and 255; they are left as
    they are here, [upper_is_unit] tells them apart, and a property that
    states an upper-cased form excludes them. The other properties of
    [camelize] use of the upper-casing only that the capital of a code
    unit outside [[-_\s]] holds none of that class. *)
Definition upper_char (c : ascii) : ascii :=
  let n := nat_of_ascii c in
  if ((97 <=? n)%nat && (n <=? 122)%nat)
     || ((224 <=? n)%nat && (n <=? 254)%nat && negb (n =? 247)%nat)
  then ascii_of_nat (n - 32) else c.

(** The capital of [c] is one code unit of the model. *)
Definition upper_is_unit (c : ascii) : bool :=
  let n := nat_of_ascii c in
  negb ((n =? 181)%nat || (n =? 223)%nat || (n =? 255)%nat).

(** White space and line terminators among the code units of the model:
    tab, line feed, vertical tab, form feed, carriage return, space and
    no-break space. It is what [trim] strips and what [\s] accepts. *)
Definition is_space (c : ascii) : bool :=
  let n := nat_of_ascii c in
  ((9 <=? n)%nat && (n <=? 13)%nat) || (n =? 32)%nat || (n =? 160)%nat.

Fixpoint trimStart (s : string) : string :=
  match s with
  | EmptyString => EmptyString
  | String c s' => if is_space c then trimStart s' else s
  end.

Fixpoint trimEnd (s : string) : string :=
  match s with
  | EmptyString => EmptyString
  | String c s' =>
      match trimEnd s' with
      | EmptyString => if is_space c then EmptyString else String c EmptyString
      | t => String c t
      end
  end.

(** [s.trim()] *)
Definition trim (s : string) : string := trimEnd (trimStart s).

(** [s[0]] and [s[s.length - 1]]; [None] is [undefined]. *)
Definition first_char (s : string) : option ascii :=
  match s with
  | EmptyString => None
  | String c _ => Some c
  end.

Fixpoint last_char (s : string) : option ascii :=
  match s with
  | EmptyString => None
  | String c EmptyString => Some c
  | String _ s' => last_char s'
  end.

(** [s.endsWith(suffix)] *)
Definition endsWith (s suffix : string) : bool :=
  let n := String.length s in
  let m := String.length suffix in
  (m <=? n)%nat && String.eqb (substring (n - m) m s) suffix.

(** An index argument of [slice] brought into [0 .. len]: a negative index
    counts from the end. *)
Definition relative_index (len i : Z) : Z :=
  if (i <? 0)%Z then Z.max (len + i) 0 else Z.min i len.

(** [s.slice(start, end)]; a missing [end] is [None]. *)
Definition slice (s : string) (start : Z) (end_ : option Z) : string :=
  let len := Z.of_nat (String.length s) in
  let from := relative_index len start in
  let to := match end_ with
            | None => len
            | Some e => relative_index len e
            end in
  if (to <=? from)%Z then EmptyString
  else substring (Z.to_nat from) (Z.to_nat (to - from)) s.

(** How a call that may fail on its input ends: it returns, or it throws
    a [TypeError]. *)
Inductive outcome (A : Type) : Type :=
| Returned (a : A)
| TypeError.
Arguments Returned {A} a.
Arguments TypeError {A}.

End JSString.

(** ** Regular expressions, as far as the quote helpers test with them *)

Module RegExp.

(** A pattern without captures: nothing, the empty string, one code unit
    of a class, a sequence, an alternative, a repetition. *)
Inductive regex : Type :=
| Empty
| Epsilon
| Class (p : ascii -> bool)
| Seq (r1 r2 : regex)
| Alt (r1 r2 : regex)
| Star (r : regex).

(** [r+] and [r?] *)
Definition Plus (r : regex) : regex := Seq r (Star r).
Definition Opt (r : regex) : regex := Alt r Epsilon.

(** The pattern accepts the empty string. *)
Fixpoint nullable (r : regex) : bool :=
  match r with
  | Empty => false
  | Epsilon => true
  | Class _ => false
  | Seq r1 r2 => nullable r1 && nullable r2
  | Alt r1 r2 => nullable r1 || nullable r2
  | Star _ => true
  end.

(** What is left of the pattern once the code unit [c] has been read. *)
Fixpoint derivative (c : ascii) (r : regex) : regex :=
  match r with
  | Empty => Empty
  | Epsilon => Empty
  | Class p => if p c then Epsilon else Empty
  | Seq r1 r2 =>
      Alt (Seq (derivative c r1) r2)
          (if nullable r1 then derivative c r2 else Empty)
  | Alt r1 r2 => Alt (derivative c r1) (derivative c r2)
  | Star r1 => Seq (derivative c r1) (Star r1)
  end.

(** [/^r$/.test(s)]: the whole of [s] is read by the pattern. *)
Fixpoint test (r : regex) (s : string) : bool :=
  match s with
  | EmptyString => nullable r
  | String c s' => test (derivative c r) s'
  end.

End RegExp.

(** ** JavaScript values as the helpers of [src/utils.ts] see them *)

Module JS.

(** The identity of an object: an address handed out by the allocator, or
    the name of a built-in of the platform. Two objects are the same
    object exactly when their identities are equal. *)
Inductive loc : Type :=
| Addr (n : nat)
| Builtin (name : string).

(** A property key: a string, or a symbol. Modelled from the spec: the
    operator registry ([./operators], not part of these sources) is a fixed
    set of recognized operator symbols; a symbol key is either one of the
    registry ([KOp]) or some other symbol ([KSym]). *)
Inductive key : Type :=
| KStr (s : string)
| KOp (name : string)
| KSym (name : string).

(** The classes declared in [src/utils.ts], and any other class. *)
Inductive class : Type :=
| Fn | Col | Cast | Literal | Json | Where
| OtherClass (name : string).

(** What kind of object: a plain object ([isPlainObject]), an array, an
    instance of a class, or a function (native or user-defined). *)
Inductive kind : Type :=
| Plain
| Array
| Instance (c : class)
| Function (native : bool).

(** A value. An object carries its identity, its kind and its own
    enumerable properties in enumeration order, each key once; an array
    holds its elements under the keys ["0"], ["1"], ... *)
#[warnings="-register-all"] Inductive value : Type :=
| VUndefined
| VNull
| VBool (b : bool)
| VNumber (n : Z)
| VString (s : string)
| VObject (l : loc) (k : kind) (props : list (key * value)).

Definition props : Type := list (key * value).

Definition loc_eqb (a b : loc) : bool :=
  match a, b with
  | Addr n, Addr m => Nat.eqb n m
  | Builtin s, Builtin t => String.eqb s t
  | _, _ => false
  end.

Definition key_eqb (a b : key) : bool :=
  match a, b with
  | KStr s, KStr t => String.eqb s t
  | KOp s, KOp t => String.eqb s t
  | KSym s, KSym t => String.eqb s t
  | _, _ => false
  end.

(** [typeof v] *)
Inductive type_tag : Type :=
| TUndefined | TObject | TBoolean | TNumber | TString | TFunction.

Definition typeof (v : value) : type_tag :=
  match v with
  | VUndefined => TUndefined
  | VNull => TObject
  | VBool _ => TBoolean
  | VNumber _ => TNumber
  | VString _ => TString
  | VObject _ (Function _) _ => TFunction
  | VObject _ _ _ => TObject
  end.

Definition is_undefined (v : value) : bool :=
  match v with VUndefined => true | _ => false end.

Definition is_null (v : value) : bool :=
  match v with VNull => true | _ => false end.

(** [typeof v === 'object'] *)
Definition typeof_object (v : value) : bool :=
  match typeof v with TObject => true | _ => false end.

(** [typeof v === 'function'], also lodash's [isFunction]. *)
Definition isFunction (v : value) : bool :=
  match typeof v with TFunction => true | _ => false end.

(** Truthiness, as tested by [if (v)], [v && ...] and [v || ...]. *)
Definition truthy (v : value) : bool :=
  match v with
  | VUndefined | VNull => false
  | VBool b => b
  | VNumber n => negb (Z.eqb n 0)
  | VString s => negb (String.eqb s "")
  | VObject _ _ _ => true
  end.

(** lodash [isPlainObject] *)
Definition isPlainObject (v : value) : bool :=
  match v with VObject _ Plain _ => true | _ => false end.

(** [Array.isArray] *)
Definition isArray (v : value) : bool :=
  match v with VObject _ Array _ => true | _ => false end.

(** lodash [isObject]: any object, functions included. *)
Definition isObject (v : value) : bool :=
  match v with VObject _ _ _ => true | _ => false end.

(** lodash [_baseIsNative]: a function supplied by the platform. *)
Definition baseIsNative (v : value) : bool :=
  match v with VObject _ (Function native) _ => native | _ => false end.

(** [a === b] and lodash [eq] (NaN is not a value of this model): equal
    primitives, or one and the same object. *)
Definition same_value (a b : value) : bool :=
  match a, b with
  | VUndefined, VUndefined => true
  | VNull, VNull => true
  | VBool x, VBool y => Bool.eqb x y
  | VNumber x, VNumber y => Z.eqb x y
  | VString x, VString y => String.eqb x y
  | VObject l _ _, VObject l' _ _ => loc_eqb l l'
  | _, _ => false
  end.

(** *** Own properties *)

Fixpoint own (ps : props) (k : key) : option value :=
  match ps with
  | [] => None
  | (k', v) :: rest => if key_eqb k' k then Some v else own rest k
  end.

(** [ps[k] = v]: an existing property keeps its place, a new one goes to
    the end. *)
Fixpoint prop_set (ps : props) (k : key) (v : value) : props :=
  match ps with
  | [] => [(k, v)]
  | (k', v') :: rest =>
      if key_eqb k' k then (k, v) :: rest else (k', v') :: prop_set rest k v
  end.

(** [delete ps[k]] *)
Fixpoint prop_delete (ps : props) (k : key) : props :=
  match ps with
  | [] => []
  | (k', v') :: rest =>
      if key_eqb k' k then prop_delete rest k else (k', v') :: prop_delete rest k
  end.

(** [Object.keys(o)]: the string keys, in order. *)
Fixpoint Object_keys (ps : props) : list string :=
  match ps with
  | [] => []
  | (KStr s, _) :: rest => s :: Object_keys rest
  | _ :: rest => Object_keys rest
  end.

(** [Object.getOwnPropertySymbols(o)]: the symbol keys, in order. *)
Fixpoint getOwnPropertySymbols (ps : props) : list key :=
  match ps with
  | [] => []
  | (KStr _, _) :: rest => getOwnPropertySymbols rest
  | (k, _) :: rest => k :: getOwnPropertySymbols rest
  end.

(** *** Inherited properties

    Every object of the model inherits the methods of [Object.prototype],
    native functions of the platform. Other prototypes (of arrays, of
    functions, of classes) hold nothing these helpers read, except the
    [clone] method of [Fn], which [has_clone] below accounts for; the
    [__proto__] accessor is not modelled. *)
Definition object_prototype_names : list string :=
  ["constructor"; "hasOwnProperty"; "isPrototypeOf"; "propertyIsEnumerable";
   "toLocaleString"; "toString"; "valueOf";
   "__defineGetter__"; "__defineSetter__"; "__lookupGetter__";
   "__lookupSetter__"].

Definition inherited (k : key) : option value :=
  match k with
  | KStr s =>
      if existsb (String.eqb s) object_prototype_names
      then Some (VObject (Builtin ("Object.prototype." ++ s)) (Function true) [])
      else None
  | _ => None
  end.

(** [ps[k]] on the properties of an object: own first, then inherited,
    [undefined] when there is none. *)
Definition lookup (ps : props) (k : key) : value :=
  match own ps k with
  | Some v => v
  | None => match inherited k with Some v => v | None => VUndefined end
  end.


(** [v[k]] for a value that is an object; a primitive has none of the
    properties these helpers ask for. *)
Definition get (v : value) (k : key) : value :=
  match v with
  | VObject _ _ ps => lookup ps k
  | _ => VUndefined
  end.

(** *** Arrays *)

(** The key of index [i]: its decimal writing. *)
Definition index_key (i : nat) : key :=
  KStr (NilEmpty.string_of_uint (Nat.to_uint i)).

Fixpoint index_from (i : nat) (elems : list value) : props :=
  match elems with
  | [] => []
  | v :: rest => (index_key i, v) :: index_from (S i) rest
  end.

(** The array literal [[v0, v1, ...]] living at [l]. *)
Definition array (l : loc) (elems : list value) : value :=
  VObject l Array (index_from 0 elems).

(** *** Allocation

    Creating an object takes the next free address. A computation that
    may create objects threads the counter of the allocator. *)
Definition M (A : Type) : Type := nat -> A * nat.

Definition ret {A : Type} (a : A) : M A := fun n => (a, n).

Definition bind {A B : Type} (m : M A) (f : A -> M B) : M B :=
  fun n => let (a, n') := m n in f a n'.

Definition alloc : M loc := fun n => (Addr n, S n).

End JS.

Declare Scope js_scope.
Delimit Scope js_scope with js.
Notation "x <- m ;; k" := (JS.bind m (fun x => k))
(at level 61, m at next level, right associativity) : js_scope.

(** ** lodash, as far as [src/utils.ts] calls it *)

Module Lodash.
Import JS.
Local Open Scope js_scope.

(** *** [cloneDeepWith(value, customizer)]

    The customizer is asked first at every value; a result other than
    [undefined] is used as it is. Otherwise a primitive is returned, an
    array or an object is copied into a new object of the same kind, its
    string-keyed properties first and its symbol-keyed ones after, each
    value cloned in turn; a function is returned as it is inside an object
    and turns into an object of its own properties at the top. *)
Section CloneDeepWith.
Variable customizer : value -> M value.

Definition is_string_key (k : key) : bool :=
  match k with KStr _ => true | _ => false end.

Fixpoint baseClone (top : bool) (v : value) {struct v} : M value :=
  r <- customizer v ;;
  if negb (is_undefined r) then ret r
  else
    match v with
    | VObject l k ps =>
        let clone_props :=
          fix each (sel : key -> bool) (ps : props) : M props :=
            match ps with
            | [] => ret []
            | (key, sub) :: rest =>
                if sel key then
                  sub' <- baseClone false sub ;;
                  rest' <- each sel rest ;;
                  ret ((key, sub') :: rest')
                else each sel rest
            end in
        let copy (k' : kind) : M value :=
          l' <- alloc ;;
          strs <- clone_props is_string_key ps ;;
          syms <- clone_props (fun key => negb (is_string_key key)) ps ;;
          ret (VObject l' k' (strs ++ syms)) in
        match k with
        | Function _ => if top then copy Plain else ret v
        | _ => copy k
        end
    | _ => ret v
    end.

Definition cloneDeepWith (v : value) : M value := baseClone true v.
End CloneDeepWith.

(** The loop of [baseClone] over the properties a selector accepts, by
    name. *)
Fixpoint clone_each (customizer : value -> M value) (sel : key -> bool)
    (ps : props) {struct ps} : M props :=
  match ps with
  | [] => ret []
  | (key, sub) :: rest =>
      if sel key then
        sub' <- baseClone customizer false sub ;;
        rest' <- clone_each customizer sel rest ;;
        ret ((key, sub') :: rest')
      else clone_each customizer sel rest
  end.

(** *** [mergeWith(object, source, customizer)]

    The customizer receives the destination's value and the source's value
    at one key and answers [undefined] to leave the decision to lodash. *)
Section MergeWith.
Variable customizer : value -> value -> value.

(** What [safeGet] returns where the object holds [read] under [key]:
    nothing for the key [constructor] when it holds a function and nothing
    for the key [__proto__], and what the object holds otherwise. *)
Definition safe_value (key : string) (read : value) : value :=
  if String.eqb key "constructor" && isFunction read then VUndefined
  else if String.eqb key "__proto__" then VUndefined
  else read.



(** [isArrayLikeObject(v)]: an object other than a function whose
    [length] is a natural number up to [MAX_SAFE_INTEGER]. *)
Definition array_like_length (v : value) : option nat :=
  match v with
  | VObject _ (Function _) _ => None
  | VObject _ _ ps =>
      match lookup ps (KStr "length") with
      | VNumber n =>
          if (0 <=? n)%Z && (n <=? 9007199254740991)%Z
          then Some (Z.to_nat n) else None
      | _ => None
      end
  | _ => None
  end.




(** The keys a string source is read by: its characters, index by index. *)
Definition string_props (s : string) : props :=
  index_from 0
    (map (fun c => VString (String c EmptyString)) (list_ascii_of_string s)).




End MergeWith.

End Lodash.

(** ** [src/utils.ts] *)

Module Utils.
Import JSString JS Lodash.
Local Open Scope js_scope.

(** *** Tick helpers and [combineTableNames] *)

Definition TICK_CHAR : ascii := "`"%char.

(** [removeTicks(s, tickChar)]: [s.replace(new RegExp(tickChar, 'g'), '')].
    Every caller passes a single character that stands for itself in a
    regular expression (a backtick or a double quote). *)
Definition removeTicks (s : string) (tickChar : ascii) : string :=
  remove_all (Ascii.eqb tickChar) s.

(** [addTicks(s, tickChar)]: [tickChar + removeTicks(s, tickChar) + tickChar]. *)
Definition addTicks (s : string) (tickChar : ascii) : string :=
  String tickChar (removeTicks s tickChar ++ String tickChar EmptyString).

(** [combineTableNames(tableName1, tableName2)]. *)
Definition combineTableNames (tableName1 tableName2 : string) : string :=
  if lt (toLowerCase tableName1) (toLowerCase tableName2)
  then tableName1 ++ tableName2
  else tableName2 ++ tableName1.

(** *** [mergeDefaults] *)

(** The customizer [mergeDefaults] hands to [mergeWith]. Returning nothing
    is returning [undefined]. *)
Definition mergeDefaults_customizer (objectValue sourceValue : value)
  : value :=
  if negb (isPlainObject objectValue) && negb (is_undefined objectValue)
  then
    if isFunction objectValue && baseIsNative objectValue
    then (if truthy sourceValue then sourceValue else objectValue)
    else objectValue
  else VUndefined.


(** *** [class Fn] *)

(** [new Fn(fn, args)] *)
Definition new_Fn (fn args : value) : M value :=
  l <- alloc ;;
  ret (VObject l (Instance Fn) [(KStr "fn", fn); (KStr "args", args)]).

(** [Fn.prototype.clone]: [new Fn(this.fn, this.args)] *)
Definition Fn_clone (this : value) : M value :=
  new_Fn (get this (KStr "fn")) (get this (KStr "args")).

(** *** [cloneDeep] *)

Section CloneDeep.
(** Calling a function value on a receiver: what a function does is not
    part of a value, so the host's call is a parameter. *)
Variable invoke : value -> value -> M value.

(** [typeof elem.clone === 'function']: an own property [clone] that is a
    function, or the method inherited by an instance of [Fn]. *)
Definition has_clone (elem : value) : bool :=
  match elem with
  | VObject _ k ps =>
      match own ps (KStr "clone") with
      | Some m => isFunction m
      | None => match k with Instance Fn => true | _ => false end
      end
  | _ => false
  end.

(** [elem.clone()] *)
Definition call_clone (elem : value) : M value :=
  match elem with
  | VObject _ _ ps =>
      match own ps (KStr "clone") with
      | Some m => invoke m elem
      | None => Fn_clone elem
      end
  | _ => ret VUndefined
  end.

(** The customizer [cloneDeep] hands to [cloneDeepWith]. *)
Definition cloneDeep_customizer (onlyPlain : bool) (elem : value)
  : M value :=
  if isArray elem || isPlainObject elem then ret VUndefined
  else if onlyPlain || typeof_object elem then ret elem
  else if truthy elem && has_clone elem then call_clone elem
  else ret VUndefined.

(** [cloneDeep(obj, onlyPlain)]; a missing [onlyPlain] is [false]. *)
Definition cloneDeep (obj : value) (onlyPlain : bool) : M value :=
  obj <- (if truthy obj then ret obj
          else l <- alloc ;; ret (VObject l Plain [])) ;;
  cloneDeepWith (cloneDeep_customizer onlyPlain) obj.
End CloneDeep.

(** *** [flattenObjectDeep] *)

(** [subPath ? `${subPath}.${key}` : key] *)
Definition pathToProperty (subPath : option string) (key : string) : string :=
  match subPath with
  | Some sub => if negb (String.eqb sub "") then sub ++ "." ++ key else key
  | None => key
  end.

(** The inner [flattenObject(obj, subPath)]; [flattenedObj] is the object
    being filled. Each own string key of [obj] is visited with the value it
    holds. The assignment [flattenedObj[path] = value] stores a property;
    under the path [__proto__] it would set the prototype instead, a case
    the properties exclude. *)
Fixpoint flattenObject (obj : value) (subPath : option string)
    (flattenedObj : props) {struct obj} : props :=
  match obj with
  | VObject _ _ ps =>
      (fix each (ps : props) (flattenedObj : props) {struct ps} : props :=
         match ps with
         | [] => flattenedObj
         | (KStr key, v) :: rest =>
             let path := pathToProperty subPath key in
             each rest
               (if typeof_object v && negb (is_null v)
                then flattenObject v (Some path) flattenedObj
                else prop_set flattenedObj (KStr path) v)
         | _ :: rest => each rest flattenedObj
         end) ps flattenedObj
  | _ => flattenedObj
  end.

(** The loop of [flattenObject] over the properties of one object, by
    name. *)
Fixpoint flatten_each (subPath : option string) (ps : props)
    (flattenedObj : props) {struct ps} : props :=
  match ps with
  | [] => flattenedObj
  | (KStr key, v) :: rest =>
      let path := pathToProperty subPath key in
      flatten_each subPath rest
        (if typeof_object v && negb (is_null v)
         then flattenObject v (Some path) flattenedObj
         else prop_set flattenedObj (KStr path) v)
  | _ :: rest => flatten_each subPath rest flattenedObj
  end.

(** [flattenObjectDeep(value)] *)
Definition flattenObjectDeep (v : value) : M value :=
  if negb (isPlainObject v) then ret v
  else
    l <- alloc ;;
    ret (VObject l Plain (flattenObject v None [])).

(** *** The model a mapper consults *)

(** Modelled from the spec: the data types ([./data-types], not part of
    these sources) as far as the mappers tell them apart: the HSTORE type,
    the JSON type and its JSONB descendant, and any other type. *)
Inductive DataType : Type :=
| HSTORE
| JSON
| JSONB
| OtherType (name : string).

(** [t instanceof DataTypes.HSTORE] *)
Definition instanceof_HSTORE (t : option DataType) : bool :=
  match t with Some HSTORE => true | _ => false end.

(** [t instanceof DataTypes.JSON] *)
Definition instanceof_JSON (t : option DataType) : bool :=
  match t with Some JSON | Some JSONB => true | _ => false end.

(** An entry of [Model.rawAttributes]; a property that is [undefined] is
    [None]. *)
Record rawAttribute : Type := {
  field : option string;
  fieldName : option string;
  type : option DataType
}.

(** The part of a model the mappers read. *)
Record Model : Type := {
  rawAttributes : list (string * rawAttribute);
  _virtualAttributes : list string
}.

Fixpoint assoc (l : list (string * rawAttribute)) (name : string)
  : option rawAttribute :=
  match l with
  | [] => None
  | (n, ra) :: rest => if String.eqb n name then Some ra else assoc rest name
  end.

(** [Model.rawAttributes[attribute]]: the entry of that name; a name that
    only [Object.prototype] knows yields a native function, and the name
    [__proto__] yields [Object.prototype] itself: objects none of whose
    [field], [fieldName] and [type] is defined; a symbol yields nothing. *)
Definition rawAttributes_get (model : Model) (attribute : key)
  : option rawAttribute :=
  match attribute with
  | KStr name =>
      match assoc (rawAttributes model) name with
      | Some ra => Some ra
      | None =>
          if String.eqb name "__proto__"
          then Some {| field := None; fieldName := None; type := None |}
          else
            match inherited attribute with
            | Some _ =>
                Some {| field := None; fieldName := None; type := None |}
            | None => None
            end
      end
  | _ => None
  end.

(** [Model._virtualAttributes.has(attr)] *)
Definition virtual_has (model : Model) (attr : string) : bool :=
  existsb (String.eqb attr) (_virtualAttributes model).

Definition option_string_eqb (a b : option string) : bool :=
  match a, b with
  | Some x, Some y => String.eqb x y
  | None, None => true
  | _, _ => false
  end.

(** A string or [undefined] as a value, and as a property key. *)
Definition value_of_field (f : option string) : value :=
  match f with Some s => VString s | None => VUndefined end.

Definition key_of_field (f : option string) : key :=
  match f with Some s => KStr s | None => KStr "undefined" end.

(** *** [mapValueFieldNames] *)

(** One turn of the loop over [fields]. The assignment to [values]
    stores a property; the name [__proto__] and a field of that name,
    which read and set the prototype instead, are cases the properties
    exclude. *)
Definition mapValueFieldNames_step (dataValues : props) (model : Model)
    (values : props) (attr : string) : props :=
  let v := lookup dataValues (KStr attr) in
  if negb (is_undefined v) && negb (virtual_has model attr) then
    match rawAttributes_get model (KStr attr) with
    | Some ra =>
        match field ra with
        | Some f =>
            if negb (String.eqb f "") && negb (String.eqb f attr)
            then prop_set values (KStr f) v
            else prop_set values (KStr attr) v
        | None => prop_set values (KStr attr) v
        end
    | None => prop_set values (KStr attr) v
    end
  else values.

(** [mapValueFieldNames(dataValues, fields, Model)], for an object
    [dataValues] with the given properties. *)
Definition mapValueFieldNames (dataValues : props) (fields : list string)
    (model : Model) : M value :=
  l <- alloc ;;
  ret (VObject l Plain
         (fold_left (mapValueFieldNames_step dataValues model) fields [])).

(** *** [getOperators], [getComplexKeys] *)

Fixpoint getOperators (ps : props) : list key :=
  match ps with
  | [] => []
  | (KOp name, _) :: rest => KOp name :: getOperators rest
  | _ :: rest => getOperators rest
  end.

Definition getComplexKeys (ps : props) : list key :=
  getOperators ps ++ map KStr (Object_keys ps).

(** *** [mapOptionFieldNames], [mapWhereFieldNames]

    The two call each other through nested where-clauses; [fuel] bounds the
    nesting, and running out of it is [None]. *)
Definition MO (A : Type) : Type := nat -> option (A * nat).

Definition retO {A : Type} (a : A) : MO A := fun n => Some (a, n).

Definition bindO {A B : Type} (m : MO A) (f : A -> MO B) : MO B :=
  fun n => match m n with Some (a, n') => f a n' | None => None end.

Definition liftO {A : Type} (m : M A) : MO A := fun n => Some (m n).

Definition out_of_fuel {A : Type} : MO A := fun _ => None.

Notation "x <-? m ;; k" := (bindO m (fun x => k))
  (at level 61, m at next level, right associativity).

Section Mappers.
Variable model : Model.

(** The callback of [options.attributes.map]. *)
Definition map_attribute (attr : value) : M value :=
  match attr with
  | VString name =>
      match rawAttributes_get model (KStr name) with
      | Some ra =>
          if negb (option_string_eqb (Some name) (field ra)) then
            l <- alloc ;;
            ret (array l [value_of_field (field ra); attr])
          else ret attr
      | None => ret attr
      end
  | _ => ret attr
  end.

Fixpoint map_attributes (elems : props) : M props :=
  match elems with
  | [] => ret []
  | (k, attr) :: rest =>
      attr' <- map_attribute attr ;;
      rest' <- map_attributes rest ;;
      ret ((k, attr') :: rest')
  end.

(** [mapOptionFieldNames(options, Model)] on the properties of
    [options], given the where-mapper to call. *)
Definition mapOptionFieldNames_with (mapWhere : value -> MO value)
    (options : props) : MO props :=
  options <-? (match lookup options (KStr "attributes") with
               | VObject _ Array elems =>
                   l <-? liftO alloc ;;
                   elems' <-? liftO (map_attributes elems) ;;
                   retO (prop_set options (KStr "attributes")
                           (VObject l Array elems'))
               | _ => retO options
               end) ;;
  let where_ := lookup options (KStr "where") in
  if truthy where_ && isPlainObject where_ then
    where' <-? mapWhere where_ ;;
    retO (prop_set options (KStr "where") where')
  else retO options.

(** The callback of [attributes[attribute].forEach], over the elements
    of the array. *)
Fixpoint map_elements (mapWhere : value -> MO value) (elems : props)
  : MO props :=
  match elems with
  | [] => retO []
  | (k, where_) :: rest =>
      where' <-? (if isPlainObject where_ then mapWhere where_
                  else retO where_) ;;
      rest' <-? map_elements mapWhere rest ;;
      retO ((k, where') :: rest')
  end.

(** The body of the loop over the complex keys: one [attribute] of
    [attributes]. *)
Definition mapWhere_step (mapWhere : value -> MO value)
    (attributes : props) (attribute : key) : MO props :=
  let rawAttribute := rawAttributes_get model attribute in
  let attributes :=
    match rawAttribute with
    | Some ra =>
        if negb (option_string_eqb (field ra) (fieldName ra)) then
          prop_delete
            (prop_set attributes (key_of_field (field ra))
               (lookup attributes attribute))
            attribute
        else attributes
    | None => attributes
    end in
  let exempt :=
    match rawAttribute with
    | Some ra => instanceof_HSTORE (type ra) || instanceof_JSON (type ra)
    | None => false
    end in
  attributes <-?
    (if isPlainObject (lookup attributes attribute) && negb exempt then
       l <-? liftO alloc ;;
       options <-? mapOptionFieldNames_with mapWhere
                     [(KStr "where", lookup attributes attribute)] ;;
       retO (prop_set attributes attribute (lookup options (KStr "where")))
     else retO attributes) ;;
  match lookup attributes attribute with
  | VObject l Array elems =>
      elems' <-? map_elements mapWhere elems ;;
      retO (prop_set attributes attribute (VObject l Array elems'))
  | _ => retO attributes
  end.

Fixpoint mapWhere_loop (mapWhere : value -> MO value)
    (keys : list key) (attributes : props) : MO props :=
  match keys with
  | [] => retO attributes
  | attribute :: rest =>
      attributes' <-? mapWhere_step mapWhere attributes attribute ;;
      mapWhere_loop mapWhere rest attributes'
  end.

(** [mapWhereFieldNames(attributes, Model)]: a falsy [attributes] is
    returned as it is; an object is changed in place and returned. Both
    call sites pass plain objects; a number or a boolean has no key to
    visit, and a string, which would be visited index by index, is not
    given a meaning of its own here. *)
Fixpoint mapWhereFieldNames (fuel : nat) (attributes : value) : MO value :=
  match fuel with
  | O => out_of_fuel
  | S fuel' =>
      match attributes with
      | VObject l k ps =>
          ps' <-? mapWhere_loop (mapWhereFieldNames fuel')
                    (getComplexKeys ps) ps ;;
          retO (VObject l k ps')
      | _ => retO attributes
      end
  end.

(** [mapOptionFieldNames(options, Model)], for an object [options]. *)
Definition mapOptionFieldNames (fuel : nat) (l : loc) (k : kind)
    (options : props) : MO value :=
  options' <-? mapOptionFieldNames_with (mapWhereFieldNames fuel) options ;;
  retO (VObject l k options').
End Mappers.

(** *** [merge] *)

(** What [forOwn] enumerates: the string-keyed properties of an object,
    the characters of a string by index, and nothing for any other value;
    no object of the model inherits an enumerable property. *)
Definition forOwn_props (v : value) : props :=
  match v with
  | VObject _ _ ps => ps
  | VString s => string_props s
  | _ => []
  end.

(** The elements of an array: the values under its string keys. *)
Definition array_elements (v : value) : list value :=
  match v with
  | VObject _ _ ps =>
      map snd (filter (fun kv => is_string_key (fst kv)) ps)
  | _ => []
  end.

(** The callback of [forOwn] in [merge], for the key [key] holding
    [v]; [merge2 a b] is [merge(a, b)]. Under the key [__proto__] the code
    reads and sets the prototype of [result] instead of a property, a case
    the properties exclude. *)
Definition merge_value (merge2 : value -> value -> MO value)
    (result : props) (key : string) (v : value) : MO props :=
  if negb (is_undefined v) then
    let current := lookup result (KStr key) in
    if negb (truthy current) then retO (prop_set result (KStr key) v)
    else if isPlainObject v && isPlainObject current then
      r <-? merge2 current v ;;
      retO (prop_set result (KStr key) r)
    else if isArray v && isArray current then
      l <-? liftO alloc ;;
      retO (prop_set result (KStr key)
              (array l (array_elements v ++ array_elements current)))
    else retO (prop_set result (KStr key) v)
  else retO result.

(** [forOwn(obj, ...)] over the properties of one argument. *)
Fixpoint merge_props (merge2 : value -> value -> MO value) (ps : props)
    (result : props) : MO props :=
  match ps with
  | [] => retO result
  | (KStr key, v) :: rest =>
      result' <-? merge_value merge2 result key v ;;
      merge_props merge2 rest result'
  | _ :: rest => merge_props merge2 rest result
  end.

(** The loop over the arguments. *)
Fixpoint merge_args (merge2 : value -> value -> MO value)
    (args : list value) (result : props) : MO props :=
  match args with
  | [] => retO result
  | obj :: rest =>
      result' <-? merge_props merge2 (forOwn_props obj) result ;;
      merge_args merge2 rest result'
  end.

(** [merge(...args)]; [fuel] bounds the nesting of the calls. *)
Fixpoint merge (fuel : nat) (args : list value) : MO value :=
  match fuel with
  | O => out_of_fuel
  | S fuel' =>
      l <-? liftO alloc ;;
      result <-? merge_args (fun a b => merge fuel' [a; b]) args [] ;;
      retO (VObject l Plain result)
  end.

(** *** [mapFinderOptions] *)

Section FinderOptions.
Variable model : Model.

(** Modelled from the spec: [Model._injectDependentVirtualAttributes(attrs)]
    takes a sequence of attributes and returns a sequence of attributes.
    What it adds is decided by the model class, outside these sources, so
    it is a parameter here; it may create objects. *)
Variable _injectDependentVirtualAttributes : list value -> M (list value).

(** [Model._virtualAttributes.has(v)] for any value: the set holds names,
    so only a string can be in it. *)
Definition is_virtual (v : value) : bool :=
  match v with
  | VString s => virtual_has model s
  | _ => false
  end.

(** [mapFinderOptions(options, Model)], for an object [options]. *)
Definition mapFinderOptions (fuel : nat) (l : loc) (k : kind)
    (options : props) : MO value :=
  let attributes := lookup options (KStr "attributes") in
  options <-?
    (if truthy attributes && isArray attributes then
       injected <-? liftO (_injectDependentVirtualAttributes
                             (array_elements attributes)) ;;
       l' <-? liftO alloc ;;
       retO (prop_set options (KStr "attributes")
               (array l' (filter (fun v => negb (is_virtual v)) injected)))
     else retO options) ;;
  mapOptionFieldNames model fuel l k options.
End FinderOptions.

(** *** [spliceStr] *)

(** [spliceStr(str, index, count, add)] *)
Definition spliceStr (str : string) (index count : Z) (add : string) : string :=
  (slice str 0 (Some index) ++ add ++ slice str (index + count) None)%string.

(** *** [camelize] *)

(** The class [[-_\s]]. *)
Definition is_separator (c : ascii) : bool :=
  Ascii.eqb c "-" || Ascii.eqb c "_" || is_space c.

(** [s.replace(/[-_\s]+(.)?/g, (match, c) => c.toUpperCase())], read from
    left to right. A run of separators is taken whole, the pattern being
    greedy; the code unit after it, which is no separator and so no line
    terminator either, is the group [c] and is put back upper-cased. At the
    end of the string the group does not take part, [c] is [undefined] and
    the callback throws. [after_run] tells that a run has just been read. *)
Fixpoint replace_separators (s : string) (after_run : bool)
  : outcome string :=
  match s with
  | EmptyString => if after_run then TypeError else Returned EmptyString
  | String c s' =>
      if is_separator c then replace_separators s' true
      else
        match replace_separators s' false with
        | Returned r =>
            Returned (String (if after_run then upper_char c else c) r)
        | TypeError => TypeError
        end
  end.

(** [camelize(str)] *)
Definition camelize (str : string) : outcome string :=
  replace_separators (trim str) false.

(** *** [isColString] *)

(** [isColString(value)] *)
Definition isColString (v : value) : bool :=
  match v with
  | VString s =>
      match first_char s, last_char s with
      | Some a, Some b => Ascii.eqb a "$" && Ascii.eqb b "$"
      | _, _ => false
      end
  | _ => false
  end.

(** *** [generateEnumName] *)

(** [generateEnumName(tableName, columnName)] *)
Definition generateEnumName (tableName columnName : string) : string :=
  ("enum_" ++ tableName ++ "_" ++ columnName)%string.

(** *** [intersects] *)

(** What an index of an array holds: nothing (a hole of a sparse array),
    the number [NaN], which no value of the model stands for, or a
    value. *)
Inductive element : Type :=
| Hole
| NaN
| Elem (v : value).

(** Reading an index: a hole reads as [undefined]. *)
Definition read (e : element) : element :=
  match e with
  | Hole => Elem VUndefined
  | _ => e
  end.

(** SameValueZero, the comparison of [includes], on what was read: [NaN]
    equals itself, and any other two values are compared as [===] does. *)
Definition same_value_zero (a b : element) : bool :=
  match a, b with
  | NaN, NaN => true
  | Elem x, Elem y => same_value x y
  | _, _ => false
  end.

(** [arr.includes(v)]: every index below the length is read, a hole
    too. *)
Definition Array_includes (arr : list element) (v : element) : bool :=
  existsb (fun x => same_value_zero (read x) v) arr.

(** [intersects(arr1, arr2)], the arrays given index by index: [some]
    calls back on the indices that hold something and skips the holes. *)
Definition intersects (arr1 arr2 : list element) : bool :=
  existsb (fun v => match v with
                    | Hole => false
                    | _ => Array_includes arr2 v
                    end) arr1.

(** *** [camelizeObjectKeys] *)

(** The loop over [Object.keys(obj)]: [newObj[camelize(key)] = obj[key]].
    A key [camelize] throws on ends the loop with its error. *)
Fixpoint camelize_keys (obj : props) (keys : list string) (newObj : props)
  : outcome props :=
  match keys with
  | [] => Returned newObj
  | key :: rest =>
      match camelize key with
      | Returned k =>
          camelize_keys obj rest
            (prop_set newObj (KStr k) (lookup obj (KStr key)))
      | TypeError => TypeError
      end
  end.

(** [camelizeObjectKeys(obj)], for an object with the given properties. *)
Definition camelizeObjectKeys (obj : props) : M (outcome value) :=
  l <- alloc ;;
  ret (match camelize_keys obj (Object_keys obj) [] with
       | Returned newObj => Returned (VObject l Plain newObj)
       | TypeError => TypeError
       end).

(** *** [removeNullValuesFromHash] *)

(** The property [allowNull] of the [options] argument: there is none (no
    [options], or [options] without that property), it is [undefined], or
    it is an array of names. *)
Inductive allowNull_property : Type :=
| NoAllowNull
| UndefinedAllowNull
| AllowNull (names : list string).

(** [{ allowNull: [], ...options }.allowNull]: the default stands only when
    [options] has no property of that name; [None] is [undefined]. *)
Definition allowNull_of (options : allowNull_property)
  : option (list string) :=
  match options with
  | NoAllowNull => Some []
  | UndefinedAllowNull => None
  | AllowNull names => Some names
  end.

(** What [forIn] enumerates: the string-keyed properties of an object, the
    characters of a string by index, and nothing for any other value. *)
Definition forIn_props (v : value) : props :=
  match v with
  | VObject _ _ ps => ps
  | VString s => string_props s
  | _ => []
  end.

(** The loop of [forIn(hash, ...)], filling [_hash]. Calling [includes] on
    an [allowNull] that is [undefined] throws. *)
Fixpoint keep_values (allowNull : option (list string)) (hash : props)
    (_hash : props) : outcome props :=
  match hash with
  | [] => Returned _hash
  | (KStr key, val) :: rest =>
      match allowNull with
      | None => TypeError
      | Some names =>
          if array_includes names key || endsWith key "Id"
             || (negb (is_null val) && negb (is_undefined val))
          then keep_values allowNull rest (prop_set _hash (KStr key) val)
          else keep_values allowNull rest _hash
      end
  | _ :: rest => keep_values allowNull rest _hash
  end.

(** [removeNullValuesFromHash(hash, omitNull, options)] *)
Definition removeNullValuesFromHash (hash omitNull : value)
    (options : allowNull_property) : M (outcome value) :=
  if truthy omitNull then
    l <- alloc ;;
    ret (match keep_values (allowNull_of options) (forIn_props hash) [] with
         | Returned _hash => Returned (VObject l Plain _hash)
         | TypeError => TypeError
         end)
  else ret (Returned hash).

(** *** [getComplexSize], [isWhereEmpty] *)

(** [obj.length] for an array: the number of its elements. *)
Definition array_length (ps : props) : nat := List.length (Object_keys ps).

(** [getComplexSize(obj)]. Asking [null] or [undefined] for its symbols
    throws; a string has its indices for keys, a number or a boolean has
    no key. *)
Definition getComplexSize (obj : value) : outcome nat :=
  match obj with
  | VObject _ Array ps => Returned (array_length ps)
  | VObject _ _ ps => Returned (List.length (getComplexKeys ps))
  | VString s => Returned (String.length s)
  | VUndefined | VNull => TypeError
  | _ => Returned 0
  end.

(** lodash [isEmpty]: [null] and [undefined] are empty; an array or a
    string is when its length is zero, and so is an array-like object that
    has a [splice] method; any other object is when it has no string key
    of its own; a number or a boolean always. A [Map] or a [Set], which
    lodash measures by its size, is not among the instances of the model,
    and no object of the model is the prototype of its constructor. *)
Definition isEmpty (v : value) : bool :=
  match v with
  | VString s => String.eqb s ""
  | VObject _ Array ps => Nat.eqb (array_length ps) 0
  | VObject _ _ ps =>
      match array_like_length v with
      | Some n =>
          if isFunction (lookup ps (KStr "splice")) then Nat.eqb n 0
          else Nat.eqb (List.length (Object_keys ps)) 0
      | None => Nat.eqb (List.length (Object_keys ps)) 0
      end
  | _ => true
  end.

(** [getOperators(obj)] on a value; a primitive has no symbol of its own. *)
Definition operators_of (obj : value) : list key :=
  match obj with
  | VObject _ _ ps => getOperators ps
  | _ => []
  end.

(** [isWhereEmpty(obj)] *)
Definition isWhereEmpty (obj : value) : bool :=
  truthy obj && isEmpty obj && Nat.eqb (List.length (operators_of obj)) 0.

End Utils.

(** ** The quote helpers *)

Module Quote.
Import JSString Utils.

(** list of reserved words in PostgreSQL 10, split on commas as the source
    does *)
Definition postgresReservedWords : list string :=
  split ","
    "all,analyse,analyze,and,any,array,as,asc,asymmetric,authorization,binary,both,case,cast,check,collate,collation,column,concurrently,constraint,create,cross,current_catalog,current_date,current_role,current_schema,current_time,current_timestamp,current_user,default,deferrable,desc,distinct,do,else,end,except,false,fetch,for,foreign,freeze,from,full,grant,group,having,ilike,in,initially,inner,intersect,into,is,isnull,join,lateral,leading,left,like,limit,localtime,localtimestamp,natural,not,notnull,null,offset,on,only,or,order,outer,overlaps,placing,primary,references,returning,right,select,session_user,similar,some,symmetric,table,tablesample,then,to,trailing,true,union,unique,user,using,variadic,verbose,when,where,window,with".

(** An optional boolean property of an options object: the property is
    missing, is present with the value [undefined], or holds a boolean. *)
Inductive optional_bool : Type :=
| Missing
| Undefined
| Bool (b : bool).

(** [QuoteIdentifierOptions]: both properties are optional. *)
Record QuoteIdentifierOptions : Type := {
  force : optional_bool;
  quoteIdentifiers : optional_bool
}.

(** [{ ...options }] on top of a default: a missing property keeps the
    default, a present one (even [undefined]) replaces it. *)
Definition spread (default : bool) (p : optional_bool) : optional_bool :=
  match p with
  | Missing => Bool default
  | _ => p
  end.

(** [{ force: false, quoteIdentifiers: true, ...options }]; [options] may be
    left out ([None]). *)
Definition with_defaults (options : option QuoteIdentifierOptions)
  : QuoteIdentifierOptions :=
  match options with
  | None => {| force := Bool false; quoteIdentifiers := Bool true |}
  | Some o => {| force := spread false (force o);
                 quoteIdentifiers := spread true (quoteIdentifiers o) |}
  end.

(** [p === b] *)
Definition strict_eq (p : optional_bool) (b : bool) : bool :=
  match p with
  | Bool b' => Bool.eqb b' b
  | _ => false
  end.

(** The value thrown on failure: [new Error(message)]. *)
Record Error : Type := { message : string }.

(** How a call ends: it returns a string or throws. *)
Inductive completion : Type :=
| Return (s : string)
| Throw (e : Error).

(** The character class of [/[[\]']+/g]: an opening bracket, a closing
    bracket or a single quote. *)
Definition mssql_class (c : ascii) : bool :=
  Ascii.eqb c "["%char || Ascii.eqb c "]"%char || Ascii.eqb c "'"%char.

(** The test of the Postgres branch that lets an identifier go unquoted. *)
Definition postgres_unquoted (identifier : string)
    (options : QuoteIdentifierOptions) : bool :=
  negb (strict_eq (force options) true)
  && strict_eq (quoteIdentifiers options) false
  && negb (includes identifier ".")
  && negb (includes identifier "->")
  && negb (array_includes postgresReservedWords
             (toLowerCase (removeTicks identifier DQUOTE))).

(** [quoteIdentifier(dialect, identifier, options)]. *)
Definition quoteIdentifier (dialect identifier : string)
    (options : option QuoteIdentifierOptions) : completion :=
  if identifier =? "*" then Return identifier
  else
    let options := with_defaults options in
    if (dialect =? "sqlite") || (dialect =? "mariadb") || (dialect =? "mysql")
    then Return (addTicks (removeTicks identifier "`"%char) "`"%char)
    else if dialect =? "postgres" then
      let rawIdentifier := removeTicks identifier DQUOTE in
      if postgres_unquoted identifier options
      then Return rawIdentifier
      else Return (addTicks rawIdentifier DQUOTE)
    else if dialect =? "mssql" then
      Return ("[" ++ remove_all mssql_class identifier ++ "]")
    else
      Throw {| message := "Dialect " ++ String DQUOTE dialect
                          ++ String DQUOTE " is not supported" |}.

(** A line terminator among the code units: line feed or carriage
    return. The dot of a pattern accepts any code unit but these. *)
Definition is_line_terminator (c : ascii) : bool :=
  Ascii.eqb c "010"%char || Ascii.eqb c "013"%char.

(** One turn of the group of the pattern once its capture has taken the
    quote [q]: the quote, then any number of code units that are no line
    terminator and not the quote, or of doubled quotes, then the quote
    again through the back reference, then a dot or none. *)
Definition quoted_segment (q : ascii) : RegExp.regex :=
  RegExp.Seq (RegExp.Class (Ascii.eqb q))
    (RegExp.Seq
       (RegExp.Star
          (RegExp.Alt
             (RegExp.Class
                (fun c => negb (Ascii.eqb q c) && negb (is_line_terminator c)))
             (RegExp.Seq (RegExp.Class (Ascii.eqb q))
                (RegExp.Class (Ascii.eqb q)))))
       (RegExp.Seq (RegExp.Class (Ascii.eqb q))
          (RegExp.Opt (RegExp.Class (Ascii.eqb "."%char))))).

(** The group, whichever of the three quotes the capture takes; the
    capture is taken anew at every turn. *)
Definition any_quoted_segment : RegExp.regex :=
  RegExp.Alt (quoted_segment "`"%char)
    (RegExp.Alt (quoted_segment DQUOTE) (quoted_segment "'"%char)).

(** The pattern between [^] and [$]; no letter occurs in it, so the flag
    [i] changes nothing. *)
Definition identifier_pattern : RegExp.regex :=
  RegExp.Seq (RegExp.Star (RegExp.Class is_space))
    (RegExp.Seq (RegExp.Plus any_quoted_segment)
       (RegExp.Star (RegExp.Class is_space))).

(** [isIdentifierQuoted(identifier)] *)
Definition isIdentifierQuoted (identifier : string) : bool :=
  RegExp.test identifier_pattern identifier.

End Quote.

(** ** What the specification says about quoting, as predicates *)

Module QuoteSpec.
Import JSString Utils Quote.

(** The options as the caller wrote them. *)
Definition given_force (options : option QuoteIdentifierOptions) : optional_bool :=
  match options with None => Missing | Some o => force o end.

Definition given_quoteIdentifiers (options : option QuoteIdentifierOptions)
  : optional_bool :=
  match options with None => Missing | Some o => quoteIdentifiers o end.

(** [s] between two double quotes. *)
Definition double_quoted (s : string) : string :=
  String DQUOTE (s ++ String DQUOTE EmptyString).

(** The case in which Postgres leaves an identifier unquoted: [force] is not
    [true], [quoteIdentifiers] is [false], the identifier has neither a dot
    nor an arrow and the lower-cased stripped identifier is not reserved. *)
Definition safe_unquoted (identifier : string)
    (options : option QuoteIdentifierOptions) : Prop :=
  given_force options <> Bool true
  /\ given_quoteIdentifiers options = Bool false
  /\ includes identifier "." = false
  /\ includes identifier "->" = false
  /\ ~ In (toLowerCase (removeTicks identifier DQUOTE)) postgresReservedWords.

(** The Postgres rule: the stripped identifier, bare exactly in the safe
    case and double-quoted in every other case. *)
Definition postgres_rule (identifier : string)
    (options : option QuoteIdentifierOptions) : Prop :=
  let stripped := removeTicks identifier DQUOTE in
  (safe_unquoted identifier options ->
     quoteIdentifier "postgres" identifier options = Return stripped)
  /\ (~ safe_unquoted identifier options ->
     quoteIdentifier "postgres" identifier options
     = Return (double_quoted stripped)).

(** The five dialects the quoter knows. *)
Definition supported (dialect : string) : Prop :=
  In dialect ["sqlite"; "mariadb"; "mysql"; "postgres"; "mssql"].

(** The failure of an unknown dialect: an error whose message names it. *)
Definition unsupported_error (dialect : string) : Error :=
  {| message := "Dialect " ++ String DQUOTE dialect
                ++ String DQUOTE " is not supported" |}.

(** The dialects that quote whatever the options. *)
Definition always_quoting (dialect : string) : Prop :=
  In dialect ["sqlite"; "mariadb"; "mysql"; "mssql"].

(** Opening and closing delimiter of an always-quoting dialect. *)
Definition delimiters (dialect : string) : ascii * ascii :=
  if dialect =? "mssql" then ("["%char, "]"%char) else ("`"%char, "`"%char).

(** [s] is a body between the dialect's delimiters, and the body holds
    neither of them. *)
Definition wrapped_in (dialect : string) (s : string) : Prop :=
  let (opening, closing) := delimiters dialect in
  exists body,
    s = String opening (body ++ String closing EmptyString)
    /\ includes body (String opening EmptyString) = false
    /\ includes body (String closing EmptyString) = false.

(** Quoting the quoted form again gives the quoted form. *)
Definition idempotent_on (dialect identifier : string)
    (options : option QuoteIdentifierOptions) : Prop :=
  forall quoted,
    quoteIdentifier dialect identifier options = Return quoted ->
    quoteIdentifier dialect quoted options = Return quoted.

(** The call fails with the error that names the dialect. *)
Definition fails_unsupported (dialect identifier : string)
    (options : option QuoteIdentifierOptions) : Prop :=
  quoteIdentifier dialect identifier options
  = Throw (unsupported_error dialect).

(** The call returns a string wrapped in the dialect's delimiters. *)
Definition returns_wrapped (dialect identifier : string)
    (options : option QuoteIdentifierOptions) : Prop :=
  exists quoted,
    quoteIdentifier dialect identifier options = Return quoted
    /\ wrapped_in dialect quoted.

(** Both arguments in either order give one name. *)
Definition order_independent (a b : string) : Prop :=
  combineTableNames a b = combineTableNames b a.

(** The name whose lower-cased form is smaller comes first, as written. *)
Definition smaller_first (a b : string) : Prop :=
  (lt (toLowerCase a) (toLowerCase b) = true -> combineTableNames a b = a ++ b)
  /\ (lt (toLowerCase b) (toLowerCase a) = true -> combineTableNames a b = b ++ a).

End QuoteSpec.

(** ** What the specification says about the object helpers *)

Module ObjectSpec.
Import JS Lodash Utils.

(** A property list holds the key [k]. *)
Definition has_key (k : key) (ps : props) : Prop := exists x, In (k, x) ps.

(** *** Identities, sharing and the key [__proto__] *)

(** The addresses of the objects of the kinds [sel] accepts that a value
    is made of, itself included, whatever object holds them; an object
    that occurs twice is listed twice. *)
Fixpoint addresses (sel : kind -> bool) (v : value) : list loc :=
  match v with
  | VObject l k ps =>
      let inner :=
        (fix each (ps : props) : list loc :=
           match ps with
           | [] => []
           | (_, x) :: rest => (addresses sel x ++ each rest)%list
           end) ps in
      if sel k then l :: inner else inner
  | _ => []
  end.

Definition is_container (k : kind) : bool :=
  match k with Plain | Array => true | _ => false end.

(** The arrays and plain objects of a value: the objects these helpers
    change in place. *)
Definition containers (v : value) : list loc := addresses is_container v.

(** Every object of a value. *)
Definition objects (v : value) : list loc := addresses (fun _ => true) v.

Fixpoint distinct (ls : list loc) : bool :=
  match ls with
  | [] => true
  | l :: rest => negb (existsb (loc_eqb l) rest) && distinct rest
  end.

(** No array or plain object occurs twice in the values: none is held
    under two keys, none holds itself, none is part of two of them. *)
Definition unshared (vs : list value) : bool :=
  distinct (flat_map containers vs).

(** The arrays and plain objects the properties of an object hold. *)
Definition held (ps : props) : list loc :=
  flat_map (fun kv => containers (snd kv)) ps.

(** An address handed out before the allocator reached [n]; the objects of
    the platform were there from the start. *)
Definition below (n : nat) (l : loc) : bool :=
  match l with
  | Addr m => (m <? n)%nat
  | Builtin _ => true
  end.

(** Every object of the value was created before the allocator reached
    [n]. *)
Definition created_before (n : nat) (v : value) : bool :=
  forallb (below n) (objects v).

(** No object of the value has an own key [__proto__]. *)
Fixpoint no_proto_key (v : value) : bool :=
  match v with
  | VObject _ _ ps =>
      (fix each (ps : props) : bool :=
         match ps with
         | [] => true
         | (k, x) :: rest =>
             negb (key_eqb k (KStr "__proto__")) && no_proto_key x
             && each rest
         end) ps
  | _ => true
  end.

(** *** Flattening *)

(** A leaf of the flattening: any value but a non-null value whose type is
    object. Primitives, [undefined], [null] and functions are leaves;
    plain objects, arrays and instances are not. *)
Definition is_leaf (v : value) : bool :=
  negb (typeof_object v && negb (is_null v)).

(** [leaf_at v path x]: from the object [v], the string keys of [path],
    one object after the other whatever its kind, lead to the leaf [x]. *)
Inductive leaf_at : value -> list string -> value -> Prop :=
| leaf_here (l : loc) (k : kind) (ps : props) (key : string) (x : value) :
    In (KStr key, x) ps -> is_leaf x = true ->
    leaf_at (VObject l k ps) [key] x
| leaf_below (l : loc) (k : kind) (ps : props) (key : string) (v : value)
    (path : list string) (x : value) :
    In (KStr key, v) ps -> is_leaf v = false -> leaf_at v path x ->
    leaf_at (VObject l k ps) (key :: path) x.

(** The keys of a path joined by dots. *)
Definition dot_join (path : list string) : string := String.concat "." path.

Definition nonempty (s : string) : Prop := s <> "".

(** The key the code builds along a path below [subPath]. *)
Fixpoint path_key (subPath : option string) (path : list string) : string :=
  match path with
  | [] => match subPath with Some s => s | None => "" end
  | key :: rest => path_key (Some (pathToProperty subPath key)) rest
  end.

(** The flattening as the specification words it: nested plain objects are
    entered, arrays and other objects are kept as values. *)
Fixpoint flatten_plain_only (obj : value) (subPath : option string)
    (flattenedObj : props) {struct obj} : props :=
  match obj with
  | VObject _ _ ps =>
      (fix each (ps : props) (flattenedObj : props) {struct ps} : props :=
         match ps with
         | [] => flattenedObj
         | (KStr key, v) :: rest =>
             let path := pathToProperty subPath key in
             each rest
               (if isPlainObject v
                then flatten_plain_only v (Some path) flattenedObj
                else prop_set flattenedObj (KStr path) v)
         | _ :: rest => each rest flattenedObj
         end) ps flattenedObj
  | _ => flattenedObj
  end.

(** [flattenObjectDeep] keeps arrays and non-plain objects as leaf
    values. *)
Definition keeps_non_plain_as_leaves (v : value) : Prop :=
  forall n,
    flattenObjectDeep v n
    = (VObject (Addr n) Plain (flatten_plain_only v None []), S n).

(** *** Nesting of where-clauses *)

(** How deep the arrays and plain objects of a value nest; a function
    counts for nothing, the mappers do not enter it. *)
Fixpoint wdepth (v : value) : nat :=
  match v with
  | VObject _ (Function _) _ => 0
  | VObject _ _ ps =>
      S ((fix deepest (ps : props) : nat :=
            match ps with
            | [] => 0
            | (_, x) :: rest => Nat.max (wdepth x) (deepest rest)
            end) ps)
  | _ => 0
  end.

(** The deepest value of a property list. *)
Fixpoint pdepth (ps : props) : nat :=
  match ps with
  | [] => 0
  | (_, x) :: rest => Nat.max (wdepth x) (pdepth rest)
  end.

(** No value of the property list nests deeper than [d]. *)
Definition bounded (d : nat) (ps : props) : Prop :=
  forall k x, In (k, x) ps -> wdepth x <= d.

(** The where-mapper handed to the loop returns, for every object that
    nests less deep than [d], the object with properties no deeper than
    before. *)
Definition returns_below (mapWhere : value -> MO value) (d : nat) : Prop :=
  forall l k ps n,
    pdepth ps < d ->
    exists r n',
      mapWhere (VObject l k ps) n = Some (VObject l k r, n')
      /\ bounded (pdepth ps) r.

(** *** Mapping value field names *)

(** A name the mapping takes in: its value in [dataValues] is not
    [undefined] and it is not a virtual attribute of the model. *)
Definition taken (dataValues : props) (model : Model) (attr : string) : Prop :=
  lookup dataValues (KStr attr) <> VUndefined
  /\ ~ In attr (_virtualAttributes model).

(** The key a name is stored under: the physical field the model declares
    for it when there is one, not empty and different from the name, and
    the name itself otherwise. *)
Definition stored_key (model : Model) (attr : string) : key :=
  match assoc (rawAttributes model) attr with
  | Some {| field := Some f |} =>
      if String.eqb f "" then KStr attr
      else if String.eqb f attr then KStr attr
      else KStr f
  | _ => KStr attr
  end.

(** Every name taken in has its own value under its key in the result. *)
Definition carries_every_value (dataValues : props) (fields : list string)
    (model : Model) : Prop :=
  forall n attr,
    In attr fields -> taken dataValues model attr ->
    get (fst (mapValueFieldNames dataValues fields model n))
        (stored_key model attr)
    = lookup dataValues (KStr attr).

(** *** Merging defaults *)






(** The contents of a value, whatever the addresses of its arrays and plain
    objects; the other objects stay the objects they are. *)
Fixpoint content (v : value) : value :=
  match v with
  | VObject l k ps =>
      match k with
      | Plain | Array =>
          VObject (Addr 0) k (map (fun '(key, x) => (key, content x)) ps)
      | _ => v
      end
  | _ => v
  end.

Definition contents (ps : props) : props :=
  map (fun '(key, x) => (key, content x)) ps.




(** Every array and plain object of the value was created while the
    allocator went from [n] to [n']. *)
#[warnings="-register-all"] Inductive created_between (n n' : nat) : value -> Prop :=
| created_atom (v : value) :
    (isPlainObject v || isArray v) = false -> created_between n n' v
| created_container (k : kind) (ps : props) (m : nat) :
    n <= m < n' ->
    Forall (fun kv => created_between n n' (snd kv)) ps ->
    created_between n n' (VObject (Addr m) k ps).



End ObjectSpec.

(** ** Sample values *)

Module Samples.
Import JS Utils.

(** A plain object living at address [n]. *)
Definition plain (n : nat) (ps : props) : value := VObject (Addr n) Plain ps.

(** [new Fn("max", [])], the instance at address 1 and its argument array
    at address 2. *)
Definition max_call : value :=
  VObject (Addr 1) (Instance Fn)
    [(KStr "fn", VString "max"); (KStr "args", array (Addr 2) [])].

(** [{ a: new Fn("max", []) }] at address 0. *)
Definition options_with_fn : value := plain 0 [(KStr "a", max_call)].

Definition STRING : option DataType := Some (OtherType "STRING").

(** A model of two renamed string columns and one JSON column. *)
Definition person : Model :=
  {| rawAttributes :=
       [("firstName", {| field := Some "first_name";
                         fieldName := Some "firstName"; type := STRING |});
        ("lastName", {| field := Some "last_name";
                        fieldName := Some "lastName"; type := STRING |});
        ("meta", {| field := Some "meta";
                    fieldName := Some "meta"; type := Some JSON |})];
     _virtualAttributes := ["fullName"] |}.

(** [{ lastName: "Doe" }] at address [n]. *)
Definition by_lastName (n : nat) : value :=
  plain n [(KStr "lastName", VString "Doe")].

(** The same clause after field mapping. *)
Definition by_last_name (n : nat) : value :=
  plain n [(KStr "last_name", VString "Doe")].

(** A model in which the attribute [a] is stored in the column [b], next
    to an attribute [b]. *)
Definition shared_column : Model :=
  {| rawAttributes :=
       [("a", {| field := Some "b"; fieldName := Some "a"; type := STRING |});
        ("b", {| field := Some "b"; fieldName := Some "b"; type := STRING |})];
     _virtualAttributes := [] |}.

(** [{ a: { b: 1, c: { d: 2 } } }] *)
Definition nested : value :=
  plain 0 [(KStr "a", plain 1 [(KStr "b", VNumber 1);
                               (KStr "c", plain 2 [(KStr "d", VNumber 2)])])].

(** [{ a: [1] }] *)
Definition with_array : value :=
  plain 0 [(KStr "a", array (Addr 1) [VNumber 1])].


End Samples.

(** ** Predicates for the remaining helpers *)

Module HelperSpec.
Import JSString JS Lodash Utils.


(** Every code unit of the string passes the test. *)
Fixpoint all_chars (p : ascii -> bool) (s : string) : bool :=
  match s with
  | EmptyString => true
  | String c s' => p c && all_chars p s'
  end.

(** A character that stands for itself when [new RegExp] reads it as a
    pattern: any but the syntax characters of regular expressions. For such
    a tick character [removeTicks] drops exactly its occurrences. *)
Definition regexp_literal (c : ascii) : bool :=
  negb (existsb (Ascii.eqb c)
          (list_ascii_of_string "\^$.*+?()[]{}|")).

(** The string holds no separator of [camelize]. *)
Definition separator_free (s : string) : bool :=
  all_chars (fun c => negb (is_separator c)) s.

(** An entry [removeNullValuesFromHash] keeps: a string key that is
    allowed, or ends in [Id], or whose value is neither [null] nor
    [undefined]. *)
Definition kept (names : list string) (kv : key * value) : bool :=
  match kv with
  | (KStr key, val) =>
      array_includes names key || endsWith key "Id"
      || (negb (is_null val) && negb (is_undefined val))
  | _ => false
  end.

(** An array without holes. *)
Definition dense (arr : list element) : bool :=
  forallb (fun e => match e with Hole => false | _ => true end) arr.

(** The model renames nothing: every attribute it declares has the same
    [field] and [fieldName]. *)
Definition renames_nothing (model : Model) : Prop :=
  forall name ra,
    assoc (rawAttributes model) name = Some ra ->
    option_string_eqb (field ra) (fieldName ra) = true.

(** What [mapOptionFieldNames] makes of one element [attr] of the array
    [attributes]: a name whose entry in the model has another [field], or
    none, becomes a new array of that field and the name, created while the
    allocator went from [n] to [n']; any other element stays the value it
    is. *)
Definition aliased (model : Model) (n n' : nat) (attr attr' : value)
  : Prop :=
  match attr with
  | VString name =>
      match rawAttributes_get model (KStr name) with
      | Some ra =>
          if option_string_eqb (Some name) (field ra) then attr' = attr
          else exists m,
                 n <= m < n'
                 /\ attr' = array (Addr m) [value_of_field (field ra); attr]
      | None => attr' = attr
      end
  | _ => attr' = attr
  end.

(** The elements of the mapped array, index by index. *)
Definition aliased_elements (model : Model) (n n' : nat)
    (elems elems' : props) : Prop :=
  Forall2 (fun kv kv' => fst kv' = fst kv
                         /\ aliased model n n' (snd kv) (snd kv'))
    elems elems'.

(** The where-mapper handed to the loop gives back, for every object that
    nests less deep than [d], the object as it was. *)
Definition returns_same (mapWhere : value -> MO value) (d : nat) : Prop :=
  forall l k ps n,
    ObjectSpec.pdepth ps < d ->
    exists n', mapWhere (VObject l k ps) n = Some (VObject l k ps, n').


(** The properties come as the platform enumerates them: string keys
    first, symbols after. *)
Definition keys_in_order (ps : props) : Prop :=
  ps = (filter (fun kv => is_string_key (fst kv)) ps
        ++ filter (fun kv => negb (is_string_key (fst kv))) ps)%list.

(** Data [cloneDeep] copies: arrays and plain objects down to values it
    hands on as they are, which with [onlyPlain] is every other value and
    without it every other value but a function with a [clone] method. *)
#[warnings="-register-all"] Inductive clone_data (onlyPlain : bool) : value -> Prop :=
| clone_data_atom (v : value) :
    (isPlainObject v || isArray v) = false ->
    onlyPlain || negb (isFunction v && has_clone v) = true ->
    clone_data onlyPlain v
| clone_data_container (l : loc) (k : kind) (ps : props) :
    k = Plain \/ k = Array ->
    keys_in_order ps ->
    Forall (fun kv => clone_data onlyPlain (snd kv)) ps ->
    clone_data onlyPlain (VObject l k ps).

(** The properties of an object in the order lodash clones them: the
    string keys first, the symbols after. *)
Definition enumerated (ps : props) : props :=
  (filter (fun kv => is_string_key (fst kv)) ps
   ++ filter (fun kv => negb (is_string_key (fst kv))) ps)%list.

(** What [cloneDeep], without [onlyPlain], makes of a value of the tree
    while the allocator goes from [n] to [n']. An array or a plain object
    becomes a new object of that kind, its properties cloned by the same
    rule. A function that has a [clone] method becomes what calling
    [clone] on it returns, and stays the function it is when that is
    [undefined]. Any other value is handed on as it is: a primitive,
    [null], a function without a [clone] method, and every instance of a
    class, whether it has a [clone] method or not. *)
#[warnings="-register-all"] Inductive cloned_as (invoke : value -> value -> M value) (n n' : nat)
  : value -> value -> Prop :=
| cloned_by_reference (x : value) :
    (isPlainObject x || isArray x) = false ->
    isFunction x && has_clone x = false ->
    cloned_as invoke n n' x x
| cloned_by_method (x x' : value) (m : nat) :
    isFunction x && has_clone x = true ->
    n <= m <= n' ->
    x' = (if is_undefined (fst (call_clone invoke x m)) then x
          else fst (call_clone invoke x m)) ->
    cloned_as invoke n n' x x'
| cloned_structurally (l : loc) (k : kind) (ps r : props) (m : nat) :
    k = Plain \/ k = Array ->
    n <= m < n' ->
    Forall2 (fun kv kv' => fst kv' = fst kv
                           /\ cloned_as invoke n n' (snd kv) (snd kv'))
      (enumerated ps) r ->
    cloned_as invoke n n' (VObject l k ps) (VObject (Addr m) k r).

(** C5 as stated, at the properties of a plain object: a value that is
    neither an array nor a plain object and has a [clone] method is
    replaced in the copy by what its [clone] method returns, called during
    the copy. *)
Definition clone_methods_invoked (invoke : value -> value -> M value)
    (l : loc) (ps : props) : Prop :=
  forall n key x,
    own ps (KStr key) = Some x ->
    (isPlainObject x || isArray x) = false -> has_clone x = true ->
    exists m,
      n <= m
      /\ get (fst (cloneDeep invoke (VObject l Plain ps) false n)) (KStr key)
         = fst (call_clone invoke x m).

(** [merge2] returns, for two plain objects that nest no deeper than [d],
    a value that nests no deeper than [d]. *)
Definition merges_below (merge2 : value -> value -> MO value) (d : nat)
  : Prop :=
  forall a b n,
    isPlainObject a = true -> isPlainObject b = true ->
    ObjectSpec.wdepth a <= d -> ObjectSpec.wdepth b <= d ->
    exists r n',
      merge2 a b n = Some (r, n') /\ ObjectSpec.wdepth r <= d /\ n <= n'.

(** An entry [merge] takes over: a string key with a value other than
    [undefined]. *)
Definition defined_entry (kv : key * value) : bool :=
  is_string_key (fst kv) && negb (is_undefined (snd kv)).

(** What [merge] stores at a key whose value in the argument at hand is
    [bv], not [undefined], when the result so far reads [current] there:
    [bv] on a falsy [current]; the merge of the two when both are plain
    objects; for two arrays a new array of the elements of [bv] followed
    by those of [current]; and [bv] in every other case. *)
Definition merge_pair_at (current bv rv : value) : Prop :=
  (truthy current = false -> rv = bv)
  /\ (truthy current = true ->
      isPlainObject bv && isPlainObject current = true ->
      exists fuel m n', merge fuel [current; bv] m = Some (rv, n'))
  /\ (truthy current = true ->
      isPlainObject bv && isPlainObject current = false ->
      isArray bv && isArray current = true ->
      exists m,
        rv = array (Addr m) (array_elements bv ++ array_elements current))
  /\ (truthy current = true ->
      isPlainObject bv && isPlainObject current = false ->
      isArray bv && isArray current = false ->
      rv = bv).

(** The strings a pattern stands for. *)
Inductive Matches : RegExp.regex -> string -> Prop :=
| Matches_epsilon : Matches RegExp.Epsilon EmptyString
| Matches_class (p : ascii -> bool) (c : ascii) :
    p c = true -> Matches (RegExp.Class p) (String c EmptyString)
| Matches_seq (r1 r2 : RegExp.regex) (s1 s2 : string) :
    Matches r1 s1 -> Matches r2 s2 -> Matches (RegExp.Seq r1 r2) (s1 ++ s2)
| Matches_left (r1 r2 : RegExp.regex) (s : string) :
    Matches r1 s -> Matches (RegExp.Alt r1 r2) s
| Matches_right (r1 r2 : RegExp.regex) (s : string) :
    Matches r2 s -> Matches (RegExp.Alt r1 r2) s
| Matches_star_nil (r : RegExp.regex) : Matches (RegExp.Star r) EmptyString
| Matches_star_cons (r : RegExp.regex) (s1 s2 : string) :
    Matches r s1 -> Matches (RegExp.Star r) s2 ->
    Matches (RegExp.Star r) (s1 ++ s2).

(** One of the three quote characters. *)
Definition is_quote (c : ascii) : bool :=
  Ascii.eqb c "`"%char || Ascii.eqb c DQUOTE || Ascii.eqb c "'"%char.

(** The inside of a quoted name for the quote [q]: no line terminator,
    and the quote only doubled. *)
Fixpoint escaped_body (q : ascii) (s : string) : bool :=
  match s with
  | EmptyString => true
  | String c s' =>
      if Ascii.eqb q c then
        match s' with
        | String c' s'' => Ascii.eqb q c' && escaped_body q s''
        | EmptyString => false
        end
      else negb (Quote.is_line_terminator c) && escaped_body q s'
  end.

(** A name between two quotes. *)
Definition quoted (part : ascii * string) : string :=
  String (fst part) (snd part ++ String (fst part) EmptyString).

(** A part of a quoted path that is well formed: a quote character around
    an inside that is escaped for it. *)
Definition well_quoted (part : ascii * string) : bool :=
  is_quote (fst part) && escaped_body (fst part) (snd part).

(** A pattern that stands for no string at all, by its shape. *)
Fixpoint void (r : RegExp.regex) : bool :=
  match r with
  | RegExp.Empty => true
  | RegExp.Epsilon => false
  | RegExp.Class _ => false
  | RegExp.Seq r1 r2 => void r1 || void r2
  | RegExp.Alt r1 r2 => void r1 && void r2
  | RegExp.Star _ => false
  end.

End HelperSpec.

(** * Properties *)

Section StringFacts.
Import JSString.

Lemma remove_all_app (cls : ascii -> bool) (s t : string) :
  remove_all cls (s ++ t) = remove_all cls s ++ remove_all cls t.
Proof.
  induction s as [|c s IH]; simpl; [reflexivity|].
  destruct (cls c); simpl; now rewrite IH.
Qed.

Lemma remove_all_idem (cls : ascii -> bool) (s : string) :
  remove_all cls (remove_all cls s) = remove_all cls s.
Proof.
  induction s as [|c s IH]; simpl; [reflexivity|].
  destruct (cls c) eqn:E; simpl; [assumption|].
  now rewrite E, IH.
Qed.

(** After [remove_all], no accepted character is left. *)
Lemma includes_remove_all (cls : ascii -> bool) (c : ascii) (s : string) :
  cls c = true ->
  includes (remove_all cls s) (String c EmptyString) = false.
Proof.
  intros Hc. induction s as [|d s IH]; simpl; [reflexivity|].
  destruct (cls d) eqn:E; [assumption|].
  simpl. destruct (Ascii.ascii_dec c d) as [->|Hne].
  - congruence.
  - destruct (remove_all cls s); assumption.
Qed.

Lemma array_includes_In (arr : list string) (x : string) :
  array_includes arr x = true <-> In x arr.
Proof.
  unfold array_includes. rewrite existsb_exists. split.
  - intros [y [Hy E]]. apply String.eqb_eq in E. now subst.
  - intros H. exists x. split; [assumption | apply String.eqb_refl].
Qed.

Lemma string_append_length (s t : string) :
  String.length (s ++ t) = String.length s + String.length t.
Proof. induction s; simpl; [reflexivity | now rewrite IHs]. Qed.

End StringFacts.

Section QuoteFacts.
Import JSString Utils Quote QuoteSpec.

Lemma strict_eq_true_iff (p : optional_bool) (b : bool) :
  strict_eq p b = true <-> p = Bool b.
Proof.
  destruct p as [| |b']; simpl; try (split; [discriminate | discriminate]).
  destruct b', b; simpl; split; congruence.
Qed.

(** The test the code makes on the defaulted options is the safe case read
    on the options as given. *)
Lemma postgres_unquoted_iff (identifier : string)
    (options : option QuoteIdentifierOptions) :
  postgres_unquoted identifier (with_defaults options) = true
  <-> safe_unquoted identifier options.
Proof.
  unfold postgres_unquoted, safe_unquoted.
  rewrite !andb_true_iff, !negb_true_iff, strict_eq_true_iff.
  rewrite <- array_includes_In, not_true_iff_false.
  assert (Hf : strict_eq (force (with_defaults options)) true = false
               <-> given_force options <> Bool true).
  { rewrite <- not_true_iff_false, strict_eq_true_iff.
    destruct options as [[f q]|]; simpl; [|split; congruence].
    destruct f; simpl; split; congruence. }
  assert (Hq : quoteIdentifiers (with_defaults options) = Bool false
               <-> given_quoteIdentifiers options = Bool false).
  { destruct options as [[f q]|]; simpl; [|split; congruence].
    destruct q; simpl; split; congruence. }
  rewrite Hf, Hq. tauto.
Qed.

Lemma addTicks_removeTicks (s : string) (c : ascii) :
  addTicks (removeTicks s c) c
  = String c (removeTicks s c ++ String c EmptyString).
Proof. unfold addTicks, removeTicks. now rewrite remove_all_idem. Qed.

Lemma double_quoted_neq (s : string) : double_quoted s <> s.
Proof.
  intros E. apply (f_equal String.length) in E.
  unfold double_quoted in E. simpl in E.
  rewrite string_append_length in E. simpl in E. lia.
Qed.

(** Outside the wildcard, the Postgres branch is the only one taken. *)
Lemma quoteIdentifier_postgres (identifier : string)
    (options : option QuoteIdentifierOptions) :
  identifier <> "*" ->
  quoteIdentifier "postgres" identifier options
  = if postgres_unquoted identifier (with_defaults options)
    then Return (removeTicks identifier DQUOTE)
    else Return (double_quoted (removeTicks identifier DQUOTE)).
Proof.
  intros Hne. unfold quoteIdentifier.
  apply String.eqb_neq in Hne. rewrite Hne. simpl.
  now rewrite addTicks_removeTicks.
Qed.

Lemma postgres_rule_holds (identifier : string)
    (options : option QuoteIdentifierOptions) :
  identifier <> "*" -> postgres_rule identifier options.
Proof.
  intros Hne. unfold postgres_rule. cbv zeta.
  rewrite (quoteIdentifier_postgres identifier options Hne).
  destruct (postgres_unquoted identifier (with_defaults options)) eqn:E.
  - split; [reflexivity|].
    intros Hn. apply postgres_unquoted_iff in E. contradiction.
  - split; [|reflexivity].
    intros Hs. apply postgres_unquoted_iff in Hs. congruence.
Qed.

Lemma unsupported_dispatch (dialect : string) :
  ~ supported dialect ->
  (dialect =? "sqlite") = false /\ (dialect =? "mariadb") = false
  /\ (dialect =? "mysql") = false /\ (dialect =? "postgres") = false
  /\ (dialect =? "mssql") = false.
Proof.
  unfold supported. simpl. intros H.
  repeat split; apply String.eqb_neq; intros ->; apply H; tauto.
Qed.

Lemma remove_all_wrapped (cls : ascii -> bool) (o c : ascii) (s : string) :
  cls o = true -> cls c = true ->
  remove_all cls (String o (s ++ String c EmptyString)) = remove_all cls s.
Proof.
  intros Ho Hc. simpl. rewrite Ho, remove_all_app. simpl. rewrite Hc.
  clear. induction (remove_all cls s); simpl; congruence.
Qed.

(** What an always-quoting dialect returns away from the wildcard. *)
Lemma quoteIdentifier_always (dialect identifier : string)
    (options : option QuoteIdentifierOptions) :
  always_quoting dialect -> identifier <> "*" ->
  quoteIdentifier dialect identifier options
  = Return (if dialect =? "mssql"
            then String "[" (remove_all mssql_class identifier ++ "]")
            else String "`" (removeTicks identifier "`" ++ "`")).
Proof.
  intros Hd Hne. unfold quoteIdentifier.
  apply String.eqb_neq in Hne. rewrite Hne.
  unfold always_quoting in Hd. simpl in Hd.
  destruct Hd as [<-|[<-|[<-|[<-|[]]]]]; simpl;
    try rewrite addTicks_removeTicks; reflexivity.
Qed.

End QuoteFacts.

Section QuoteTheorems.
Import JSString Utils Quote QuoteSpec.

Let only_quoteIdentifiers_false : option QuoteIdentifierOptions :=
  Some {| force := Missing; quoteIdentifiers := Bool false |}.

(** C1 (as amended): for every identifier other than the wildcard ["*"] and
    every options object, [quoteIdentifier "postgres"] returns the
    identifier stripped of its double quotes, bare exactly when [force] is
    not [true], [quoteIdentifiers] is [false], the identifier has neither
    ["."] nor ["->"] and the lower-cased stripped identifier is not a
    reserved word, and wrapped in double quotes in every other case; so
    ["select"] comes back quoted and ["Foo"] bare under
    [{quoteIdentifiers: false}]. *)
Theorem quoteIdentifier_postgres_rule (identifier : string)
    (options : option QuoteIdentifierOptions) :
  identifier <> "*" ->
  postgres_rule identifier options
  /\ (quoteIdentifier "postgres" identifier options
      = Return (removeTicks identifier DQUOTE)
      <-> safe_unquoted identifier options)
  /\ quoteIdentifier "postgres" "select" only_quoteIdentifiers_false
     = Return (double_quoted "select")
  /\ quoteIdentifier "postgres" "Foo" only_quoteIdentifiers_false
     = Return "Foo".
Proof.
  intros Hne. split; [now apply postgres_rule_holds|].
  split; [|split; reflexivity].
  rewrite (quoteIdentifier_postgres identifier options Hne).
  rewrite <- postgres_unquoted_iff.
  destruct (postgres_unquoted identifier (with_defaults options)).
  - tauto.
  - split; [|discriminate].
    intros E. injection E as E. now apply double_quoted_neq in E.
Qed.

Lemma quoteIdentifier_postgres_rule_witness :
  "Foo" <> "*"
  /\ postgres_rule "Foo" only_quoteIdentifiers_false
  /\ quoteIdentifier "postgres" "Foo" only_quoteIdentifiers_false
     = Return "Foo".
Proof.
  assert (H : "Foo" <> "*") by discriminate.
  split; [exact H|].
  split.
  - exact (proj1 (quoteIdentifier_postgres_rule "Foo"
                    only_quoteIdentifiers_false H)).
  - reflexivity.
Defined.

(** C1 as stated fails at the wildcard: with no options the safe case does
    not hold (quoteIdentifiers defaults to true), yet ["*"] comes back bare
    instead of double-quoted. *)
Lemma quoteIdentifier_postgres_wildcard_not_quoted :
  ~ postgres_rule "*" None.
Proof.
  unfold postgres_rule. intros [_ H].
  assert (Hn : ~ safe_unquoted "*" None).
  { unfold safe_unquoted. simpl. intros [_ [E _]]. discriminate. }
  specialize (H Hn). discriminate.
Qed.

Lemma includes_here (needle rest : string) :
  includes (needle ++ rest) needle = true.
Proof.
  assert (P : String.prefix needle (needle ++ rest) = true).
  { induction needle as [|c n IH]; simpl.
    - now destruct rest.
    - destruct (Ascii.ascii_dec c c); [assumption | congruence]. }
  destruct (needle ++ rest); simpl in *; now rewrite P.
Qed.

Lemma includes_later (before s needle : string) :
  includes s needle = true -> includes (before ++ s) needle = true.
Proof.
  intros H. induction before as [|c b IH]; [assumption|].
  change (includes (String c b ++ s) needle)
    with (if String.prefix needle (String c (b ++ s)) then true
          else includes (b ++ s) needle).
  rewrite IH. now destruct (String.prefix needle (String c (b ++ s))).
Qed.

(** C2 (as amended): for every dialect other than the five supported ones,
    every identifier other than the wildcard ["*"] and every options value,
    [quoteIdentifier] throws an error whose message, [Dialect "<dialect>" is
    not supported], names the offending dialect, and so never returns. *)
Theorem quoteIdentifier_unsupported_dialect (dialect identifier : string)
    (options : option QuoteIdentifierOptions) :
  ~ supported dialect ->
  identifier <> "*" ->
  fails_unsupported dialect identifier options
  /\ includes (message (unsupported_error dialect)) dialect = true
  /\ forall s, quoteIdentifier dialect identifier options <> Return s.
Proof.
  intros Hd Hne.
  assert (F : fails_unsupported dialect identifier options).
  { unfold fails_unsupported, quoteIdentifier.
    apply String.eqb_neq in Hne. rewrite Hne.
    destruct (unsupported_dispatch dialect Hd) as (-> & -> & -> & -> & ->).
    reflexivity. }
  split; [exact F|]. split.
  - unfold unsupported_error, message.
    apply includes_later.
    change (String DQUOTE dialect ++ String DQUOTE " is not supported")
      with (String DQUOTE (dialect ++ String DQUOTE " is not supported")).
    apply (includes_later (String DQUOTE EmptyString)).
    apply includes_here.
  - intros s. rewrite F. discriminate.
Qed.

Lemma quoteIdentifier_unsupported_dialect_witness :
  fails_unsupported "oracle" "x" None.
Proof.
  refine (proj1 (quoteIdentifier_unsupported_dialect "oracle" "x" None _ _)).
  - unfold supported. simpl. intros H.
    repeat (destruct H as [H|H]; [discriminate|]). exact H.
  - discriminate.
Defined.

(** C2 as stated fails at the wildcard: for the unknown dialect ["oracle"]
    and the identifier ["*"] the call returns ["*"] and throws nothing. *)
Lemma quoteIdentifier_unsupported_wildcard_returns :
  ~ supported "oracle"
  /\ quoteIdentifier "oracle" "*" None = Return "*"
  /\ ~ fails_unsupported "oracle" "*" None.
Proof.
  split; [|split].
  - unfold supported. simpl. intros H.
    repeat (destruct H as [H|H]; [discriminate|]). exact H.
  - reflexivity.
  - unfold fails_unsupported. discriminate.
Qed.

End QuoteTheorems.

Section AlwaysQuoting.
Import JSString Utils Quote QuoteSpec.

Lemma neq_wildcard_head (c : ascii) (s : string) :
  c <> "*"%char -> String c s <> "*".
Proof. intros H E. injection E as E _. contradiction. Qed.

Lemma wrapped_after_quoting (dialect identifier : string)
    (options : option QuoteIdentifierOptions) :
  always_quoting dialect -> identifier <> "*" ->
  returns_wrapped dialect identifier options.
Proof.
  intros Hd Hne. unfold returns_wrapped, wrapped_in, delimiters.
  rewrite (quoteIdentifier_always dialect identifier options Hd Hne).
  destruct (dialect =? "mssql").
  - exists (String "[" (remove_all mssql_class identifier ++ "]")).
    split; [reflexivity|].
    exists (remove_all mssql_class identifier).
    repeat split; now apply includes_remove_all.
  - exists (String "`" (removeTicks identifier "`" ++ "`")).
    split; [reflexivity|].
    exists (removeTicks identifier "`").
    repeat split; now apply includes_remove_all.
Qed.

Lemma quoting_idempotent (dialect identifier : string)
    (options : option QuoteIdentifierOptions) :
  always_quoting dialect -> idempotent_on dialect identifier options.
Proof.
  intros Hd quoted Hq.
  destruct (String.string_dec identifier "*") as [->|Hne].
  - injection Hq as <-. reflexivity.
  - rewrite (quoteIdentifier_always dialect identifier options Hd Hne) in Hq.
    injection Hq as <-.
    destruct (dialect =? "mssql") eqn:E.
    + rewrite quoteIdentifier_always, E;
        [|assumption | now apply neq_wildcard_head].
      rewrite (remove_all_wrapped mssql_class "[" "]") by reflexivity.
      now rewrite remove_all_idem.
    + rewrite quoteIdentifier_always, E;
        [|assumption | now apply neq_wildcard_head].
      unfold removeTicks.
      rewrite (remove_all_wrapped (Ascii.eqb "`") "`" "`") by reflexivity.
      now rewrite remove_all_idem.
Qed.

(** C3 (as amended): for every dialect among sqlite, mariadb, mysql and
    mssql, every identifier other than the wildcard ["*"] and every options
    value, the result of [quoteIdentifier] is wrapped in that dialect's
    delimiters (backticks, or square brackets for mssql) whatever the
    options; for every identifier, the wildcard included, quoting the
    quoted form again yields the same form; and
    [quoteIdentifier("mssql", "a]b")] is ["[ab]"]. *)
Theorem quoteIdentifier_always_quoting (dialect identifier : string)
    (options : option QuoteIdentifierOptions) :
  always_quoting dialect ->
  (identifier <> "*" -> returns_wrapped dialect identifier options)
  /\ idempotent_on dialect identifier options
  /\ quoteIdentifier "mssql" "a]b" options = Return "[ab]".
Proof.
  intros Hd. split; [|split].
  - intros Hne. now apply wrapped_after_quoting.
  - now apply quoting_idempotent.
  - reflexivity.
Qed.

Lemma quoteIdentifier_always_quoting_witness :
  returns_wrapped "mysql" "foo" None
  /\ quoteIdentifier "mysql" "`foo`" None = Return "`foo`".
Proof.
  assert (Hd : always_quoting "mysql") by (unfold always_quoting; simpl; tauto).
  assert (Hne : "foo" <> "*") by discriminate.
  destruct (quoteIdentifier_always_quoting "mysql" "foo" None Hd)
    as (Hw & Hi & _).
  split.
  - exact (Hw Hne).
  - apply Hi. reflexivity.
Defined.

(** C3 as stated fails at the wildcard: [quoteIdentifier("mysql", "*")] is
    ["*"], which is not wrapped in backticks. *)
Lemma quoteIdentifier_wildcard_not_wrapped :
  always_quoting "mysql" /\ ~ returns_wrapped "mysql" "*" None.
Proof.
  split; [unfold always_quoting; simpl; tauto|].
  unfold returns_wrapped, wrapped_in. simpl.
  intros (quoted & Hq & body & Hb & _).
  injection Hq as <-. discriminate.
Qed.

(** C10: for every dialect, the unrecognized ones included, and every
    options value, [quoteIdentifier(dialect, "*", options)] returns ["*"]
    unchanged; it throws nothing, since the wildcard test comes before the
    defaulting of the options and before the dispatch on the dialect. *)
Theorem quoteIdentifier_wildcard_passthrough (dialect : string)
    (options : option QuoteIdentifierOptions) :
  quoteIdentifier dialect "*" options = Return "*"
  /\ forall e, quoteIdentifier dialect "*" options <> Throw e.
Proof. split; [reflexivity | discriminate]. Qed.

End AlwaysQuoting.

Section CombineTableNames.
Import JSString Utils QuoteSpec.

Lemma lt_asym (a b : string) : lt a b = true -> lt b a = false.
Proof.
  unfold lt, String.ltb. rewrite (String.compare_antisym b a).
  destruct (String.compare a b); simpl; congruence.
Qed.

Lemma lt_total (a b : string) : a <> b -> lt a b = false -> lt b a = true.
Proof.
  unfold lt, String.ltb. intros Hne. rewrite (String.compare_antisym b a).
  destruct (String.compare a b) eqn:E; simpl; try congruence.
  apply String.compare_eq_iff in E. contradiction.
Qed.

Lemma smaller_first_holds (a b : string) : smaller_first a b.
Proof.
  unfold smaller_first, combineTableNames. split; intros H.
  - now rewrite H.
  - now rewrite (lt_asym _ _ H).
Qed.

(** C4 (as amended): for every pair of strings of the characters U+0000
    to U+00FF whose lower-cased forms differ,
    [combineTableNames(a, b) = combineTableNames(b, a)]; for every pair
    the result is the concatenation with the name whose lower-cased form
    is smaller first, each name as it was written; and
    [combineTableNames("Zebra", "apple")] is ["appleZebra"]. The
    lower-cased form is JavaScript's, capital letters of Latin-1
    included: the capital thorn (code unit 222) comes after the small a
    with grave (code unit 224), its small form being the code unit 254. *)
Theorem combineTableNames_order_independent (a b : string) :
  (toLowerCase a <> toLowerCase b -> order_independent a b)
  /\ smaller_first a b
  /\ combineTableNames "Zebra" "apple" = "appleZebra"
  /\ combineTableNames (String (ascii_of_nat 222) "")
       (String (ascii_of_nat 224) "")
     = String (ascii_of_nat 224) (String (ascii_of_nat 222) "").
Proof.
  split; [|split; [apply smaller_first_holds | split; reflexivity]].
  intros Hne. unfold order_independent, combineTableNames.
  destruct (lt (toLowerCase a) (toLowerCase b)) eqn:E.
  - now rewrite (lt_asym _ _ E).
  - now rewrite (lt_total _ _ Hne E).
Qed.

Lemma combineTableNames_order_independent_witness :
  combineTableNames "Zebra" "apple" = combineTableNames "apple" "Zebra".
Proof.
  apply (proj1 (combineTableNames_order_independent "Zebra" "apple")).
  discriminate.
Defined.

(** C4 as stated fails for two names that differ only in case:
    [combineTableNames("A", "a")] is ["aA"] and
    [combineTableNames("a", "A")] is ["Aa"]. *)
Lemma combineTableNames_case_tie :
  combineTableNames "A" "a" = "aA"
  /\ combineTableNames "a" "A" = "Aa"
  /\ ~ order_independent "A" "a".
Proof.
  split; [reflexivity|]. split; [reflexivity|].
  unfold order_independent. discriminate.
Qed.

End CombineTableNames.

Section CloneDeep.
Import JS Lodash Utils Samples.

Variable invoke : value -> value -> M value.

(** An instance of a class is handed back by the customizer as it is: its
    [clone] method, if it has one, is not called. *)
Lemma cloneDeep_instance_by_reference (l : loc) (c : class) (ps : props)
    (onlyPlain : bool) (n : nat) :
  cloneDeep invoke (VObject l (Instance c) ps) onlyPlain n
  = (VObject l (Instance c) ps, n).
Proof.
  unfold cloneDeep, cloneDeepWith, bind, ret. simpl.
  unfold bind, cloneDeep_customizer. simpl.
  rewrite orb_true_r. reflexivity.
Qed.

(** A function that carries a [clone] function of its own is replaced by
    what calling it returns, when that is not [undefined]. *)
Lemma cloneDeep_function_with_clone (l : loc) (native : bool) (ps : props)
    (m : value) (n : nat) :
  own ps (KStr "clone") = Some m -> isFunction m = true ->
  is_undefined (fst (invoke m (VObject l (Function native) ps) n)) = false ->
  cloneDeep invoke (VObject l (Function native) ps) false n
  = invoke m (VObject l (Function native) ps) n.
Proof.
  intros Hm Hf Hr.
  unfold cloneDeep, cloneDeepWith, bind, ret. cbn [truthy baseClone].
  unfold bind, cloneDeep_customizer, call_clone, has_clone.
  cbn [isArray isPlainObject orb typeof_object typeof truthy andb].
  rewrite Hm, Hf.
  destruct (invoke m (VObject l (Function native) ps) n) as [r n'].
  cbn [fst] in Hr. now rewrite Hr.
Qed.

(** At the input [cloneDeep({ a: new Fn("max", []) })]: the [Fn] has a
    [clone] method, and calling it would give a new instance (here at
    address 4); [cloneDeep] copies the enclosing plain object to a new one
    (address 3) and hands on the very same [Fn] (address 1) inside it. *)
Lemma cloneDeep_hands_on_Fn :
  has_clone max_call = true
  /\ cloneDeep invoke options_with_fn false 3
     = (plain 3 [(KStr "a", max_call)], 4)
  /\ Fn_clone max_call 4
     = (VObject (Addr 4) (Instance Fn)
          [(KStr "fn", VString "max"); (KStr "args", array (Addr 2) [])], 5)
  /\ cloneDeep invoke max_call false 3 = (max_call, 3).
Proof. repeat split. Qed.

End CloneDeep.

Section MapWhereFieldNames.
Import JS Lodash Utils Samples.

Lemma own_prop_delete_same (ps : props) (k : key) :
  own (prop_delete ps k) k = None.
Proof.
  induction ps as [|[k0 v0] rest IH]; [reflexivity|].
  cbn [prop_delete]. destruct (key_eqb k0 k) eqn:E; [exact IH|].
  cbn [own]. now rewrite E.
Qed.

(** The turn of the loop for a key the model renames: the value moves to
    the physical key as it is, whatever it is; neither the plain-object
    branch nor the array branch sees it, as both look under the deleted
    key. *)
Lemma mapWhere_step_renamed (model : Model) (mapWhere : value -> MO value)
    (attributes : props) (name : string) (ra : rawAttribute) (n : nat) :
  assoc (rawAttributes model) name = Some ra ->
  option_string_eqb (field ra) (fieldName ra) = false ->
  inherited (KStr name) = None ->
  mapWhere_step model mapWhere attributes (KStr name) n
  = Some (prop_delete
            (prop_set attributes (key_of_field (field ra))
               (lookup attributes (KStr name)))
            (KStr name), n).
Proof.
  intros Ha Hne Hi. unfold mapWhere_step, rawAttributes_get.
  rewrite Ha, Hne. cbn [negb].
  assert (Hu : forall ps, lookup (prop_delete ps (KStr name)) (KStr name)
                          = VUndefined).
  { intros ps. unfold lookup. now rewrite own_prop_delete_same, Hi. }
  unfold bindO. rewrite Hu. cbn [isPlainObject andb]. unfold retO.
  now rewrite Hu.
Qed.

(** C7, at the input [{ firstName: { lastName: "Doe" } }]: the key
    [firstName] is renamed to [first_name], but the plain object it holds
    is then looked up under the deleted key and so is not field-mapped;
    [lastName] stays inside it. The same object under a key that is not
    renamed (the operator [or]) is mapped to [{ last_name: "Doe" }]. *)
Theorem mapWhereFieldNames_renamed_key_not_mapped (fuel : nat) :
  mapWhereFieldNames person (S (S fuel))
    (plain 0 [(KStr "firstName", by_lastName 1)]) 2
  = Some (plain 0 [(KStr "first_name", by_lastName 1)], 2)
  /\ mapWhereFieldNames person (S (S fuel))
       (plain 0 [(KOp "or", by_lastName 1)]) 2
     = Some (plain 0 [(KOp "or", by_last_name 1)], 3).
Proof. split; reflexivity. Qed.

(** The array path has no exemption for HSTORE and JSON attributes: the
    elements of an array held by the JSON attribute [meta] are
    field-mapped, while a plain object held by it is left alone. *)
Lemma mapWhereFieldNames_json_array_mapped (fuel : nat) :
  mapWhereFieldNames person (S (S fuel))
    (plain 0 [(KStr "meta", array (Addr 1) [by_lastName 2])]) 3
  = Some (plain 0 [(KStr "meta", array (Addr 1) [by_last_name 2])], 3)
  /\ mapWhereFieldNames person (S (S fuel))
       (plain 0 [(KStr "meta", by_lastName 1)]) 2
     = Some (plain 0 [(KStr "meta", by_lastName 1)], 2).
Proof. split; reflexivity. Qed.

End MapWhereFieldNames.

Section ValueInduction.
Import JS.

Variable P : value -> Prop.
Hypothesis P_undefined : P VUndefined.
Hypothesis P_null : P VNull.
Hypothesis P_bool : forall b, P (VBool b).
Hypothesis P_number : forall n, P (VNumber n).
Hypothesis P_string : forall s, P (VString s).
Hypothesis P_object :
  forall l k ps, Forall (fun kv => P (snd kv)) ps -> P (VObject l k ps).

(** Induction on a value with the hypothesis available for every property
    of an object. *)
Lemma value_nested_ind : forall v, P v.
Proof.
  fix IH 1. intros [| | b | n | s | l k ps];
    [exact P_undefined | exact P_null | apply P_bool | apply P_number
    | apply P_string | ].
  apply P_object.
  induction ps as [|[key v] rest IHps]; constructor; [apply IH | exact IHps].
Qed.

End ValueInduction.

Section PropertyFacts.
Import JS ObjectSpec.

Lemma key_eqb_eq (a b : key) : key_eqb a b = true <-> a = b.
Proof.
  destruct a, b; simpl; try (split; [discriminate | discriminate]);
    rewrite String.eqb_eq; split; congruence.
Qed.

Lemma key_eqb_refl (a : key) : key_eqb a a = true.
Proof. now apply key_eqb_eq. Qed.

Lemma key_eqb_neq (a b : key) : key_eqb a b = false <-> a <> b.
Proof.
  rewrite <- not_true_iff_false, key_eqb_eq. tauto.
Qed.

Lemma in_prop_set (ps : props) (k k' : key) (x v : value) :
  In (k, x) (prop_set ps k' v) -> (k, x) = (k', v) \/ In (k, x) ps.
Proof.
  induction ps as [|[k0 v0] rest IH]; simpl.
  - intros [E|[]]. left. now symmetry.
  - destruct (key_eqb k0 k'); simpl; intros [E|H]; auto.
    destruct (IH H); auto.
Qed.

Lemma has_key_prop_set_same (ps : props) (k : key) (v : value) :
  has_key k (prop_set ps k v).
Proof.
  induction ps as [|[k0 v0] rest IH]; simpl.
  - exists v. now left.
  - destruct (key_eqb k0 k).
    + exists v. now left.
    + destruct IH as [x Hx]. exists x. now right.
Qed.

Lemma has_key_prop_set_keep (ps : props) (k k' : key) (v : value) :
  has_key k ps -> has_key k (prop_set ps k' v).
Proof.
  intros [x Hx]. induction ps as [|[k0 v0] rest IH]; [contradiction|].
  simpl. destruct (key_eqb k0 k') eqn:E.
  - apply key_eqb_eq in E. subst k0. destruct Hx as [Hx|Hx].
    + injection Hx as <- <-. exists v. now left.
    + exists x. now right.
  - destruct Hx as [Hx|Hx].
    + exists x. now left.
    + destruct (IH Hx) as [y Hy]. exists y. now right.
Qed.

End PropertyFacts.

Section IdentityFacts.
Import JS Lodash ObjectSpec.

(** The address the allocator hands out next is none of the addresses
    handed out before. *)
Lemma below_not_next (n : nat) (ls : list loc) :
  forallb (below n) ls = true -> ~ In (Addr n) ls.
Proof.
  intros H Hin. rewrite forallb_forall in H. specialize (H _ Hin).
  cbn [below] in H. apply Nat.ltb_lt in H. lia.
Qed.

Lemma below_mono (n m : nat) (l : loc) :
  n <= m -> below n l = true -> below m l = true.
Proof.
  intros Hle. destruct l as [j|name]; [|reflexivity]. cbn [below].
  rewrite !Nat.ltb_lt. lia.
Qed.

Lemma created_between_mono (v : value) :
  forall a b a' b',
    a' <= a -> b <= b' -> created_between a b v -> created_between a' b' v.
Proof.
  induction v as [| | x | z | s | l k ps IH] using value_nested_ind;
    intros a b a' b' Ha Hb H; try (now constructor).
  inversion H as [? Hk | ? ? m Hm Hps]; subst; [now constructor|].
  apply created_container; [lia|].
  rewrite Forall_forall in *. intros kv Hin.
  apply (IH kv Hin a b a' b' Ha Hb). now apply Hps.
Qed.





End IdentityFacts.

Section FlattenObjectDeep.
Import JS Lodash Utils ObjectSpec Samples.

Lemma flattenObject_unfold (l : loc) (k : kind) (ps : props)
    (subPath : option string) (acc : props) :
  flattenObject (VObject l k ps) subPath acc = flatten_each subPath ps acc.
Proof.
  revert acc. induction ps as [|[[key| |] v] rest IH]; intros acc.
  - reflexivity.
  - exact (IH _).
  - exact (IH _).
  - exact (IH _).
Qed.

Lemma is_leaf_false (v : value) :
  is_leaf v = false <-> typeof_object v && negb (is_null v) = true.
Proof. unfold is_leaf. now rewrite negb_false_iff. Qed.

Lemma is_leaf_true (v : value) :
  is_leaf v = true <-> typeof_object v && negb (is_null v) = false.
Proof. unfold is_leaf. now rewrite negb_true_iff. Qed.

(** Every entry of the flattened object was there before or is a leaf
    found at the end of a path, under the key built along that path. *)
Lemma flattenObject_sound (obj : value) :
  forall subPath acc k x,
    In (k, x) (flattenObject obj subPath acc) ->
    In (k, x) acc
    \/ (is_leaf x = true
        /\ exists path, leaf_at obj path x /\ k = KStr (path_key subPath path)).
Proof.
  induction obj as [| | b | n | s | l k0 ps IH] using value_nested_ind;
    intros subPath acc k x Hin; try (now left).
  rewrite flattenObject_unfold in Hin.
  assert (Hloop : forall ps' acc',
             incl ps' ps ->
             In (k, x) (flatten_each subPath ps' acc') ->
             In (k, x) acc'
             \/ (is_leaf x = true
                 /\ exists path, leaf_at (VObject l k0 ps) path x
                                 /\ k = KStr (path_key subPath path))).
  { induction ps' as [|[[key| |] v] rest IHrest]; intros acc' Hincl H;
      simpl in H.
    - now left.
    - assert (Hv : In (KStr key, v) ps) by (apply Hincl; now left).
      assert (Hrest : incl rest ps) by (intros e He; apply Hincl; now right).
      destruct (IHrest _ Hrest H) as [Hacc|Hq]; [|now right].
      destruct (typeof_object v && negb (is_null v)) eqn:E.
      + rewrite Forall_forall in IH. specialize (IH _ Hv). simpl in IH.
        destruct (IH _ _ _ _ Hacc) as [?|(Hl & path & Hp & Hk)]; [now left|].
        right. split; [exact Hl|]. exists (key :: path). split.
        * eapply leaf_below; eauto. now apply is_leaf_false.
        * exact Hk.
      + destruct (in_prop_set _ _ _ _ _ Hacc) as [Heq|?]; [|now left].
        injection Heq as -> ->. right. split; [now apply is_leaf_true|].
        exists [key]. split; [|reflexivity].
        apply leaf_here; [exact Hv | now apply is_leaf_true].
    - apply IHrest; [intros e He; apply Hincl; now right | exact H].
    - apply IHrest; [intros e He; apply Hincl; now right | exact H]. }
  apply (Hloop ps acc); [apply incl_refl | exact Hin].
Qed.

(** A key of the object being filled stays in it. *)
Lemma flattenObject_keeps_keys (obj : value) :
  forall subPath acc k,
    has_key k acc -> has_key k (flattenObject obj subPath acc).
Proof.
  induction obj as [| | b | n | s | l k0 ps IH] using value_nested_ind;
    intros subPath acc k Hk; try exact Hk.
  rewrite flattenObject_unfold. revert acc Hk.
  induction ps as [|[[key| |] v] rest IHrest]; intros acc Hk; simpl.
  - exact Hk.
  - inversion IH as [|? ? Hv Hrest]; subst. apply (IHrest Hrest).
    destruct (typeof_object v && negb (is_null v)).
    + now apply Hv.
    + now apply has_key_prop_set_keep.
  - inversion IH; subst. now apply IHrest.
  - inversion IH; subst. now apply IHrest.
Qed.

Lemma flatten_each_keeps_keys (subPath : option string) (ps acc : props)
    (k : key) :
  has_key k acc -> has_key k (flatten_each subPath ps acc).
Proof.
  intros H. rewrite <- (flattenObject_unfold (Addr 0) Plain).
  now apply flattenObject_keeps_keys.
Qed.

(** The key built along a path to a leaf is a key of the flattened
    object. *)
Lemma flattenObject_complete (obj : value) (path : list string) (x : value) :
  leaf_at obj path x ->
  forall subPath acc,
    has_key (KStr (path_key subPath path)) (flattenObject obj subPath acc).
Proof.
  induction 1 as [l k ps key x Hin Hleaf | l k ps key v path x Hin Hv _ IH];
    intros subPath acc; rewrite flattenObject_unfold.
  - revert acc. induction ps as [|[k0 v0] rest IHrest]; intros acc;
      [contradiction|].
    destruct Hin as [E|Hin].
    + injection E as -> ->. simpl.
      apply is_leaf_true in Hleaf. rewrite Hleaf.
      apply flatten_each_keeps_keys, has_key_prop_set_same.
    + destruct k0; simpl; now apply IHrest.
  - revert acc. induction ps as [|[k0 v0] rest IHrest]; intros acc;
      [contradiction|].
    destruct Hin as [E|Hin].
    + injection E as -> ->. simpl.
      apply is_leaf_false in Hv. rewrite Hv.
      apply flatten_each_keeps_keys, IH.
    + destruct k0; simpl; now apply IHrest.
Qed.

End FlattenObjectDeep.

Section FlattenTheorems.
Import JS Lodash Utils ObjectSpec Samples.

Lemma string_app_assoc (a b c : string) : ((a ++ b) ++ c = a ++ (b ++ c))%string.
Proof. induction a; simpl; [reflexivity | now rewrite IHa]. Qed.

Lemma string_app_nonempty (a b : string) : a <> "" -> (a ++ b)%string <> "".
Proof. destruct a; [congruence | discriminate]. Qed.

Lemma path_key_below (path : list string) :
  forall sub,
    sub <> "" -> Forall nonempty path ->
    path_key (Some sub) path
    = match path with [] => sub | _ => sub ++ "." ++ dot_join path end.
Proof.
  induction path as [|key rest IH]; intros sub Hsub Hne; [reflexivity|].
  inversion Hne as [|? ? Hkey Hrest]; subst.
  cbn [path_key]. unfold pathToProperty.
  apply String.eqb_neq in Hsub. rewrite Hsub. cbn [negb].
  apply String.eqb_neq in Hsub.
  rewrite IH; [|now apply string_app_nonempty | exact Hrest].
  destruct rest as [|r rs]; [reflexivity|].
  unfold dot_join. cbn [String.concat].
  now rewrite string_app_assoc.
Qed.

(** Along a path of non-empty keys the code builds the dot-joined path. *)
Lemma path_key_dot_join (path : list string) :
  path <> [] -> Forall nonempty path -> path_key None path = dot_join path.
Proof.
  destruct path as [|key rest]; [congruence|]. intros _ Hne.
  inversion Hne as [|? ? Hkey Hrest]; subst.
  cbn [path_key pathToProperty].
  rewrite path_key_below by assumption.
  now destruct rest.
Qed.

Lemma leaf_at_nonempty (v : value) (path : list string) (x : value) :
  leaf_at v path x -> path <> [].
Proof. destruct 1; discriminate. Qed.

(** C6 (as amended): an input that is not a plain object is returned
    unchanged; a plain object none of whose objects has an own key
    [__proto__] is flattened into a new depth-1 mapping, an object that is
    none of the objects of the input, every value of which is a leaf (not
    an object, or [null]) found at the end of a path of the input, under
    the dot-joined path when the keys on it are not empty, and every such
    path has its key in the mapping. A path runs through every non-null
    object it meets below the top, arrays and non-plain objects included:
    they are entered through their own string keys and are not kept as
    values. In particular
    [flattenObjectDeep({a:{b:1,c:{d:2}}}) = {"a.b":1, "a.c.d":2}]. *)
Theorem flattenObjectDeep_depth_one (v : value) (n : nat) :
  (isPlainObject v = false -> flattenObjectDeep v n = (v, n))
  /\ (isPlainObject v = true -> no_proto_key v = true ->
      exists ps,
        flattenObjectDeep v n = (VObject (Addr n) Plain ps, S n)
        /\ (created_before n v = true -> ~ In (Addr n) (objects v))
        /\ (forall k x, In (k, x) ps ->
              is_leaf x = true
              /\ exists path,
                   leaf_at v path x
                   /\ (Forall nonempty path -> k = KStr (dot_join path)))
        /\ (forall path x,
              leaf_at v path x -> Forall nonempty path ->
              has_key (KStr (dot_join path)) ps))
  /\ flattenObjectDeep nested 3
     = (plain 3 [(KStr "a.b", VNumber 1); (KStr "a.c.d", VNumber 2)], 4).
Proof.
  split; [|split; [|reflexivity]].
  - intros H. unfold flattenObjectDeep. now rewrite H.
  - intros H _. exists (flattenObject v None []). split; [|split; [|split]].
    + unfold flattenObjectDeep. now rewrite H.
    + apply below_not_next.
    + intros k x Hin.
      destruct (flattenObject_sound v None [] k x Hin)
        as [[]|(Hl & path & Hp & Hk)].
      split; [exact Hl|]. exists path. split; [exact Hp|].
      intros Hne. rewrite Hk. f_equal.
      apply path_key_dot_join; [now apply (leaf_at_nonempty v path x) | exact Hne].
    + intros path x Hp Hne.
      rewrite <- path_key_dot_join;
        [|now apply (leaf_at_nonempty v path x) | exact Hne].
      now apply (flattenObject_complete v path x).
Qed.

Lemma flattenObjectDeep_depth_one_witness :
  exists ps,
    flattenObjectDeep nested 3 = (VObject (Addr 3) Plain ps, 4)
    /\ ~ In (Addr 3) (objects nested)
    /\ has_key (KStr "a.c.d") ps.
Proof.
  destruct (flattenObjectDeep_depth_one nested 3) as (_ & H & _).
  destruct (H eq_refl eq_refl) as (ps & E & Hnew & _ & Hc).
  exists ps. split; [exact E|]. split; [exact (Hnew eq_refl)|].
  apply (Hc ["a"; "c"; "d"] (VNumber 2)).
  - eapply leaf_below; [now left | reflexivity |].
    eapply leaf_below; [right; now left | reflexivity |].
    apply leaf_here; [now left | reflexivity].
  - repeat constructor; discriminate.
Defined.

(** C6 as stated fails on an array inside the input:
    [flattenObjectDeep({a: [1]})] is [{"a.0": 1}]; the array is entered
    through its index and is not kept under the key [a]. *)
Lemma flattenObjectDeep_enters_arrays :
  flattenObjectDeep with_array 2 = (plain 2 [(KStr "a.0", VNumber 1)], 3)
  /\ flatten_plain_only with_array None []
     = [(KStr "a", array (Addr 1) [VNumber 1])]
  /\ ~ keeps_non_plain_as_leaves with_array.
Proof.
  split; [reflexivity|]. split; [reflexivity|].
  intros H. specialize (H 2). discriminate.
Qed.

End FlattenTheorems.

Section OwnProperties.
Import JS ObjectSpec.

Lemma own_prop_set_same (ps : props) (k : key) (v : value) :
  own (prop_set ps k v) k = Some v.
Proof.
  induction ps as [|[k0 v0] rest IH]; simpl.
  - now rewrite key_eqb_refl.
  - destruct (key_eqb k0 k) eqn:E; simpl.
    + now rewrite key_eqb_refl.
    + now rewrite E.
Qed.

Lemma own_prop_set_other (ps : props) (k k' : key) (v : value) :
  k <> k' -> own (prop_set ps k' v) k = own ps k.
Proof.
  intros Hne. induction ps as [|[k0 v0] rest IH]; simpl.
  - apply not_eq_sym, key_eqb_neq in Hne. now rewrite Hne.
  - destruct (key_eqb k0 k') eqn:E; simpl.
    + apply key_eqb_eq in E. subst k0.
      apply not_eq_sym, key_eqb_neq in Hne. now rewrite Hne.
    + now rewrite IH.
Qed.

Lemma own_some_in (ps : props) (k : key) (v : value) :
  own ps k = Some v -> In (k, v) ps.
Proof.
  induction ps as [|[k0 v0] rest IH]; simpl; [discriminate|].
  destruct (key_eqb k0 k) eqn:E.
  - apply key_eqb_eq in E. intros [= ->]. left. now subst.
  - intros H. right. now apply IH.
Qed.

Lemma has_key_own (ps : props) (k : key) :
  has_key k ps <-> exists v, own ps k = Some v.
Proof.
  split.
  - intros [x Hx]. induction ps as [|[k0 v0] rest IH]; [contradiction|].
    simpl. destruct (key_eqb k0 k) eqn:E; [now exists v0|].
    destruct Hx as [Hx|Hx]; [|now apply IH].
    injection Hx as -> ->. now rewrite key_eqb_refl in E.
  - intros [v Hv]. exists v. now apply own_some_in.
Qed.


End OwnProperties.

Section MapValueFieldNames.
Import JS Lodash Utils ObjectSpec Samples.

Variable dataValues : props.
Variable model : Model.

Let step := mapValueFieldNames_step dataValues model.

Lemma is_undefined_false (v : value) : is_undefined v = false <-> v <> VUndefined.
Proof. destruct v; simpl; split; congruence. Qed.

Lemma virtual_has_In (attr : string) :
  virtual_has model attr = true <-> In attr (_virtualAttributes model).
Proof.
  unfold virtual_has. rewrite existsb_exists. split.
  - intros [y [Hy E]]. apply String.eqb_eq in E. now subst.
  - intros H. exists attr. split; [exact H | apply String.eqb_refl].
Qed.

(** One turn of the loop stores the value of a name taken in under its
    key, and does nothing for any other name. *)
Lemma step_taken (values : props) (attr : string) :
  taken dataValues model attr ->
  step values attr
  = prop_set values (stored_key model attr) (lookup dataValues (KStr attr)).
Proof.
  intros [Hd Hv]. unfold step, mapValueFieldNames_step.
  apply is_undefined_false in Hd. rewrite Hd.
  rewrite <- virtual_has_In in Hv. apply not_true_is_false in Hv.
  rewrite Hv. cbn [negb andb].
  unfold stored_key, rawAttributes_get.
  destruct (assoc (rawAttributes model) attr) as [[[f|] fn ty]|]; cbn [field].
  - destruct (String.eqb f ""); cbn [negb andb]; [reflexivity|].
    now destruct (String.eqb f attr).
  - reflexivity.
  - destruct (String.eqb attr "__proto__"); [reflexivity|].
    now destruct (inherited (KStr attr)).
Qed.

Lemma step_not_taken (values : props) (attr : string) :
  ~ taken dataValues model attr -> step values attr = values.
Proof.
  intros Hn. unfold step, mapValueFieldNames_step.
  destruct (is_undefined (lookup dataValues (KStr attr))) eqn:Hd;
    [reflexivity|].
  destruct (virtual_has model attr) eqn:Hv; [reflexivity|].
  exfalso. apply Hn. split.
  - now apply is_undefined_false.
  - rewrite <- virtual_has_In. congruence.
Qed.

Lemma taken_dec (attr : string) :
  taken dataValues model attr \/ ~ taken dataValues model attr.
Proof.
  unfold taken.
  destruct (is_undefined (lookup dataValues (KStr attr))) eqn:Hd.
  - right. intros [H _]. apply is_undefined_false in H. congruence.
  - destruct (virtual_has model attr) eqn:Hv.
    + right. intros [_ H]. apply H. now apply virtual_has_In.
    + left. split; [now apply is_undefined_false|].
      rewrite <- virtual_has_In. congruence.
Qed.

Lemma key_eq_dec (a b : key) : a = b \/ a <> b.
Proof.
  destruct (key_eqb a b) eqn:E.
  - left. now apply key_eqb_eq.
  - right. now apply key_eqb_neq.
Qed.

(** The keys after the loop: those before it and the keys of the names
    taken in. *)
Lemma fold_keys (fields : list string) :
  forall acc k,
    has_key k (fold_left step fields acc)
    <-> has_key k acc
        \/ exists attr, In attr fields /\ taken dataValues model attr
                        /\ stored_key model attr = k.
Proof.
  induction fields as [|a rest IH]; intros acc k; simpl.
  - split; [now left | intros [H|(attr & [] & _)]; exact H].
  - rewrite IH. destruct (taken_dec a) as [Ht|Hn].
    + rewrite (step_taken acc a Ht). split.
      * intros [H|(attr & Hin & Hta & Hk)].
        -- destruct (key_eq_dec k (stored_key model a)) as [->|Hne].
           ++ right. exists a. auto.
           ++ left. apply has_key_own in H. apply has_key_own.
              now rewrite own_prop_set_other in H.
        -- right. exists attr. auto.
      * intros [H|(attr & [<-|Hin] & Hta & Hk)].
        -- left. now apply has_key_prop_set_keep.
        -- left. subst k. apply has_key_prop_set_same.
        -- right. exists attr. auto.
    + rewrite (step_not_taken acc a Hn). split.
      * intros [H|(attr & Hin & Hta & Hk)]; [now left|].
        right. exists attr. auto.
      * intros [H|(attr & [<-|Hin] & Hta & Hk)];
          [now left | contradiction | right; exists attr; auto].
Qed.

(** Every entry after the loop was there before or carries the value of a
    name taken in. *)
Lemma fold_values (fields : list string) :
  forall acc k v,
    own (fold_left step fields acc) k = Some v ->
    own acc k = Some v
    \/ exists attr, In attr fields /\ taken dataValues model attr
                    /\ stored_key model attr = k
                    /\ v = lookup dataValues (KStr attr).
Proof.
  induction fields as [|a rest IH]; intros acc k v H; simpl in H;
    [now left|].
  destruct (IH _ _ _ H) as [Hacc|(attr & Hin & Hta & Hk & Hv)].
  - destruct (taken_dec a) as [Ht|Hn].
    + rewrite (step_taken acc a Ht) in Hacc.
      destruct (key_eq_dec k (stored_key model a)) as [->|Hne].
      * rewrite own_prop_set_same in Hacc. injection Hacc as <-.
        right. exists a. simpl. auto.
      * rewrite own_prop_set_other in Hacc by exact Hne. now left.
    + rewrite (step_not_taken acc a Hn) in Hacc. now left.
  - right. exists attr. simpl. auto.
Qed.

(** A key whose writers all agree on [v] holds [v] after the loop. *)
Lemma fold_agreed (fields : list string) :
  forall acc k v,
    (forall attr, In attr fields -> taken dataValues model attr ->
                  stored_key model attr = k ->
                  lookup dataValues (KStr attr) = v) ->
    own acc k = Some v
    \/ (exists attr, In attr fields /\ taken dataValues model attr
                     /\ stored_key model attr = k) ->
    own (fold_left step fields acc) k = Some v.
Proof.
  induction fields as [|a rest IH]; intros acc k v Hagree H; simpl.
  - destruct H as [H|(attr & [] & _)]. exact H.
  - apply IH; [intros attr Hin; apply Hagree; now right|].
    destruct (taken_dec a) as [Ht|Hn].
    + rewrite (step_taken acc a Ht).
      destruct (key_eq_dec k (stored_key model a)) as [->|Hne].
      * left. rewrite own_prop_set_same. f_equal.
        apply Hagree; [now left | exact Ht | reflexivity].
      * rewrite own_prop_set_other by exact Hne.
        destruct H as [H|(attr & [<-|Hin] & Hta & Hk)];
          [now left | now subst k | right; exists attr; auto].
    + rewrite (step_not_taken acc a Hn).
      destruct H as [H|(attr & [<-|Hin] & Hta & Hk)];
        [now left | contradiction | right; exists attr; auto].
Qed.

(** A value under a key stays when no name taken in afterwards is stored
    under that key. *)
Lemma fold_last (post : list string) :
  forall acc k v,
    own acc k = Some v ->
    (forall attr, In attr post -> taken dataValues model attr ->
                  stored_key model attr <> k) ->
    own (fold_left step post acc) k = Some v.
Proof.
  induction post as [|a rest IH]; intros acc k v Hown Hlast; simpl;
    [exact Hown|].
  apply IH; [|intros attr Hin; apply Hlast; now right].
  destruct (taken_dec a) as [Ht|Hn].
  - rewrite (step_taken acc a Ht).
    rewrite own_prop_set_other; [exact Hown|].
    apply not_eq_sym, Hlast; [now left | exact Ht].
  - now rewrite (step_not_taken acc a Hn).
Qed.

End MapValueFieldNames.

Section MapValueFieldNamesTheorems.
Import JS Lodash Utils ObjectSpec Samples.

(** C9 (as amended): [mapValueFieldNames] returns a new plain object (at
    the address the allocator hands out next, so none of the objects
    [dataValues] holds) whose keys are exactly the keys of the names of
    [fields] whose value in [dataValues] is not [undefined] and which are
    not virtual: the declared physical field when it is not empty and
    differs from the name, the name itself otherwise. Every entry carries
    the value [dataValues] has for such a name; where several names are
    stored under one key, the one listed last in [fields] gives the value,
    so that a name's own value is found under its key whenever every name
    stored under that key has the same value; [dataValues] is only read.
    Neither a name of [fields] nor a key a name is stored under is
    [__proto__]. *)
Theorem mapValueFieldNames_fresh_mapping (dataValues : props)
    (fields : list string) (model : Model) (n : nat) :
  ~ In "__proto__" fields ->
  (forall attr, In attr fields -> stored_key model attr <> KStr "__proto__") ->
  exists values,
    mapValueFieldNames dataValues fields model n
    = (VObject (Addr n) Plain values, S n)
    /\ (forall k x,
          In (k, x) dataValues -> created_before n x = true ->
          ~ In (Addr n) (objects x))
    /\ (forall k,
          has_key k values
          <-> exists attr, In attr fields /\ taken dataValues model attr
                           /\ stored_key model attr = k)
    /\ (forall k v,
          own values k = Some v ->
          exists attr, In attr fields /\ taken dataValues model attr
                       /\ stored_key model attr = k
                       /\ v = lookup dataValues (KStr attr))
    /\ (forall pre attr post,
          fields = (pre ++ attr :: post)%list ->
          taken dataValues model attr ->
          (forall attr', In attr' post -> taken dataValues model attr' ->
                         stored_key model attr' <> stored_key model attr) ->
          own values (stored_key model attr)
          = Some (lookup dataValues (KStr attr)))
    /\ (forall attr,
          In attr fields -> taken dataValues model attr ->
          (forall attr', In attr' fields -> taken dataValues model attr' ->
                         stored_key model attr' = stored_key model attr ->
                         lookup dataValues (KStr attr')
                         = lookup dataValues (KStr attr)) ->
          own values (stored_key model attr)
          = Some (lookup dataValues (KStr attr))).
Proof.
  intros _ _.
  exists (fold_left (mapValueFieldNames_step dataValues model) fields []).
  split; [reflexivity|]. split; [|split; [|split; [|split]]].
  - intros k x _. apply below_not_next.
  - intros k. rewrite fold_keys. split.
    + intros [[x []]|H]. exact H.
    + intros H. now right.
  - intros k v H.
    destruct (fold_values dataValues model fields [] k v H) as [H0|H0];
      [discriminate | exact H0].
  - intros pre attr post -> Hta Hlast.
    rewrite fold_left_app. cbn [fold_left].
    apply fold_last; [|exact Hlast].
    rewrite (step_taken dataValues model _ attr Hta).
    apply own_prop_set_same.
  - intros attr Hin Hta Hagree.
    apply fold_agreed.
    + intros attr' Hin' Hta' Hk. now apply Hagree.
    + right. exists attr. auto.
Qed.

Lemma mapValueFieldNames_fresh_mapping_witness :
  exists values,
    mapValueFieldNames
      [(KStr "firstName", VString "Jane"); (KStr "fullName", VString "Jane Doe")]
      ["firstName"; "fullName"] person 0
    = (VObject (Addr 0) Plain values, 1)
    /\ own values (KStr "first_name") = Some (VString "Jane").
Proof.
  destruct (mapValueFieldNames_fresh_mapping
              [(KStr "firstName", VString "Jane");
               (KStr "fullName", VString "Jane Doe")]
              ["firstName"; "fullName"] person 0)
    as (values & E & _ & _ & _ & H & _).
  - cbn. intuition discriminate.
  - intros attr [<-|[<-|[]]]; discriminate.
  - exists values. split; [exact E|].
    apply (H [] "firstName" ["fullName"] eq_refl).
    + split; [discriminate|]. simpl. intros [H0|[]]. discriminate.
    + intros attr' [<-|[]] Hta.
      destruct Hta as [_ Hv]. exfalso. apply Hv. now left.
Defined.

(** C9 as stated fails when two names are stored under one key: with the
    attribute [a] kept in the column [b] next to an attribute [b],
    [mapValueFieldNames({a: 1, b: 2}, ["a", "b"], Model)] is [{b: 2}], and
    the value 1 of [a] is not under its key [b]. *)
Lemma mapValueFieldNames_shared_key :
  mapValueFieldNames [(KStr "a", VNumber 1); (KStr "b", VNumber 2)]
    ["a"; "b"] shared_column 0
  = (plain 0 [(KStr "b", VNumber 2)], 1)
  /\ ~ carries_every_value [(KStr "a", VNumber 1); (KStr "b", VNumber 2)]
         ["a"; "b"] shared_column.
Proof.
  split; [reflexivity|].
  intros H. specialize (H 0 "a").
  assert (Hin : In "a" ["a"; "b"]) by now left.
  assert (Hta : taken [(KStr "a", VNumber 1); (KStr "b", VNumber 2)]
                  shared_column "a").
  { split; [discriminate | intros []]. }
  specialize (H Hin Hta). discriminate.
Qed.

End MapValueFieldNamesTheorems.

Section MergeFacts.
Import JS Lodash Utils ObjectSpec Samples.
Local Open Scope js_scope.

Variable customizer : value -> value -> value.









(** What [safeGet] makes of an object read from the source: the object,
    or [undefined]. *)
Lemma safe_value_cases (key : string) (read : value) :
  safe_value key read = read \/ safe_value key read = VUndefined.
Proof.
  unfold safe_value.
  destruct (String.eqb key "constructor" && isFunction read); [now right|].
  destruct (String.eqb key "__proto__"); [now right | now left].
Qed.










End MergeFacts.

Section MergeDefaults.
Import JS Lodash Utils ObjectSpec Samples.
Local Open Scope js_scope.

Let C := mergeDefaults_customizer.










End MergeDefaults.

Section MergedCopy.
Import JS Lodash Utils ObjectSpec Samples.
Local Open Scope js_scope.

Let C := mergeDefaults_customizer.

Lemma prop_set_fresh (ps : props) (k : key) (v : value) :
  own ps k = None -> prop_set ps k v = (ps ++ [(k, v)])%list.
Proof.
  induction ps as [|[k0 v0] rest IH]; [reflexivity|].
  cbn [own prop_set app]. destruct (key_eqb k0 k); [discriminate|].
  intros H. now rewrite IH.
Qed.

Lemma own_app (ps qs : props) (k : key) :
  own (ps ++ qs)%list k
  = match own ps k with Some v => Some v | None => own qs k end.
Proof.
  induction ps as [|[k0 x] rest IH]; [reflexivity|].
  cbn [app own]. now destruct (key_eqb k0 k).
Qed.


Lemma contents_app (ps qs : props) :
  contents (ps ++ qs)%list = (contents ps ++ contents qs)%list.
Proof. apply map_app. Qed.











End MergedCopy.

Section MergeDefaultsTheorems.
Import JS Lodash Utils ObjectSpec Samples.
Local Open Scope js_scope.





End MergeDefaultsTheorems.

Section MapWhereTotal.
Import JS Lodash Utils ObjectSpec.

Variable model : Model.

Lemma wdepth_object (l : loc) (k : kind) (ps : props) :
  wdepth (VObject l k ps)
  = match k with Function _ => 0 | _ => S (pdepth ps) end.
Proof.
  assert (E : forall ps,
             (fix deepest (ps : props) : nat :=
                match ps with
                | [] => 0
                | (_, x) :: rest => Nat.max (wdepth x) (deepest rest)
                end) ps = pdepth ps).
  { induction ps0 as [|[k0 x] rest IH]; [reflexivity|].
    cbn [pdepth]. now rewrite <- IH. }
  destruct k; cbn [wdepth]; now rewrite ?E.
Qed.

Lemma bounded_pdepth (d : nat) (ps : props) : bounded d ps <-> pdepth ps <= d.
Proof.
  unfold bounded. induction ps as [|[k0 x0] rest IH]; cbn [pdepth].
  - split; [lia | intros _ k x []].
  - split.
    + intros H. apply Nat.max_lub.
      * apply (H k0 x0). now left.
      * apply IH. intros k x Hin. apply (H k x). now right.
    + intros H k x [E|Hin].
      * injection E as <- <-. lia.
      * assert (Hr : pdepth rest <= d) by lia.
        exact (proj2 IH Hr k x Hin).
Qed.

Lemma bounded_mono (d e : nat) (ps : props) :
  d <= e -> bounded d ps -> bounded e ps.
Proof. intros Hle H k x Hin. specialize (H k x Hin). lia. Qed.

Lemma bounded_prop_set (d : nat) (ps : props) (k : key) (v : value) :
  bounded d ps -> wdepth v <= d -> bounded d (prop_set ps k v).
Proof.
  intros Hb Hv k' x Hin.
  destruct (in_prop_set _ _ _ _ _ Hin) as [E|H].
  - injection E as <- <-. exact Hv.
  - now apply (Hb k' x).
Qed.

Lemma bounded_prop_delete (d : nat) (ps : props) (k : key) :
  bounded d ps -> bounded d (prop_delete ps k).
Proof.
  intros Hb k' x Hin. apply (Hb k' x).
  induction ps as [|[k0 x0] rest IH]; [contradiction|].
  cbn [prop_delete] in Hin. destruct (key_eqb k0 k).
  - right. apply IH; [|exact Hin].
    intros k1 x1 H1. apply (Hb k1 x1). now right.
  - destruct Hin as [E|Hin]; [now left|].
    right. apply IH; [|exact Hin].
    intros k1 x1 H1. apply (Hb k1 x1). now right.
Qed.

Lemma lookup_bounded (d : nat) (ps : props) (k : key) :
  bounded d ps -> wdepth (lookup ps k) <= d.
Proof.
  intros Hb. unfold lookup. destruct (own ps k) as [v|] eqn:E.
  - apply (Hb k v). now apply own_some_in.
  - unfold inherited. destruct k as [s| |]; [|cbn; lia|cbn; lia].
    destruct (existsb (String.eqb s) object_prototype_names);
      cbn [wdepth]; lia.
Qed.

Lemma returns_below_mono (mapWhere : value -> MO value) (d e : nat) :
  e <= d -> returns_below mapWhere d -> returns_below mapWhere e.
Proof. intros Hle H l k ps n Hlt. apply H. lia. Qed.

Lemma map_elements_total (mapWhere : value -> MO value) (d : nat) :
  returns_below mapWhere d ->
  forall elems n,
    bounded d elems ->
    exists r n', map_elements mapWhere elems n = Some (r, n') /\ bounded d r.
Proof.
  intros Hrec. induction elems as [|[k0 x0] rest IH]; intros n Hb.
  - exists [], n. split; [reflexivity | intros k x []].
  - assert (Hx : wdepth x0 <= d) by (apply (Hb k0 x0); now left).
    assert (Hrest : bounded d rest)
      by (intros k x Hin; apply (Hb k x); now right).
    assert (Hhead : exists x' n1,
               (if isPlainObject x0 then mapWhere x0 else retO x0) n
               = Some (x', n1) /\ wdepth x' <= d).
    { destruct x0 as [| | | | |l [| |c|nat] ps]; cbn [isPlainObject];
        try (eexists; eexists; split; [reflexivity | exact Hx]).
      rewrite wdepth_object in Hx.
      destruct (Hrec l Plain ps n) as (r & n1 & E & Hr); [lia|].
      exists (VObject l Plain r), n1. split; [exact E|].
      rewrite wdepth_object. apply bounded_pdepth in Hr. lia. }
    destruct Hhead as (x' & n1 & E & Hx').
    destruct (IH n1 Hrest) as (r & n' & E' & Hr).
    exists ((k0, x') :: r), n'. split.
    + cbn [map_elements]. unfold bindO. rewrite E, E'. reflexivity.
    + intros k x [H|H]; [injection H as <- <-; exact Hx' | now apply (Hr k x)].
Qed.

Lemma mapOptionFieldNames_where (mapWhere : value -> MO value) (d : nat)
    (l : loc) (ps : props) (n : nat) :
  returns_below mapWhere d -> S (pdepth ps) <= d ->
  exists r n',
    mapOptionFieldNames_with model mapWhere
      [(KStr "where", VObject l Plain ps)] n
    = Some ([(KStr "where", VObject l Plain r)], n')
    /\ S (pdepth r) <= d.
Proof.
  intros Hrec Hd.
  destruct (Hrec l Plain ps n) as (r & n' & E & Hr); [lia|].
  exists r, n'. split.
  - unfold mapOptionFieldNames_with, bindO, retO. cbn. now rewrite E.
  - apply bounded_pdepth in Hr. lia.
Qed.

(** One turn of the loop returns, and nothing nests deeper after it. *)
Lemma mapWhere_step_total (mapWhere : value -> MO value) (d : nat)
    (attributes : props) (attribute : key) (n : nat) :
  returns_below mapWhere d -> bounded d attributes ->
  exists r n',
    mapWhere_step model mapWhere attributes attribute n = Some (r, n')
    /\ bounded d r.
Proof.
  intros Hrec Hb. unfold mapWhere_step.
  set (exempt := match rawAttributes_get model attribute with
                 | Some ra => instanceof_HSTORE (type ra)
                              || instanceof_JSON (type ra)
                 | None => false
                 end).
  set (renamed := match rawAttributes_get model attribute with
                  | Some ra =>
                      if negb (option_string_eqb (field ra) (fieldName ra))
                      then prop_delete
                             (prop_set attributes (key_of_field (field ra))
                                (lookup attributes attribute)) attribute
                      else attributes
                  | None => attributes
                  end).
  assert (Hb1 : bounded d renamed).
  { unfold renamed. destruct (rawAttributes_get model attribute); [|exact Hb].
    destruct (negb (option_string_eqb (field r) (fieldName r))); [|exact Hb].
    apply bounded_prop_delete, bounded_prop_set;
      [exact Hb | now apply lookup_bounded]. }
  clearbody renamed exempt. clear Hb attributes.
  assert (Hmid : exists a2 n2,
             (if isPlainObject (lookup renamed attribute) && negb exempt
              then bindO (liftO alloc)
                     (fun _ =>
                        bindO (mapOptionFieldNames_with model mapWhere
                                 [(KStr "where", lookup renamed attribute)])
                          (fun options =>
                             retO (prop_set renamed attribute
                                     (lookup options (KStr "where")))))
              else retO renamed) n = Some (a2, n2) /\ bounded d a2).
  { pose proof (lookup_bounded d renamed attribute Hb1) as Hv.
    destruct (lookup renamed attribute) as [| | | | |l [| |c|nat] ps];
      cbn [isPlainObject andb];
      try (exists renamed, n; split; [reflexivity | exact Hb1]).
    destruct (negb exempt);
      [|exists renamed, n; split; [reflexivity | exact Hb1]].
    rewrite wdepth_object in Hv.
    destruct (mapOptionFieldNames_where mapWhere d l ps (S n) Hrec Hv)
      as (r & n' & E & Hr).
    exists (prop_set renamed attribute (VObject l Plain r)), n'. split.
    - unfold bindO, liftO, alloc, retO. rewrite E. reflexivity.
    - apply bounded_prop_set; [exact Hb1|]. now rewrite wdepth_object. }
  destruct Hmid as (a2 & n2 & E2 & Hb2).
  unfold bindO at 1. rewrite E2.
  pose proof (lookup_bounded d a2 attribute Hb2) as Hv.
  destruct (lookup a2 attribute) as [| | | | |l [| |c|nat] elems];
    try (exists a2, n2; split; [reflexivity | exact Hb2]).
  rewrite wdepth_object in Hv.
  destruct (map_elements_total mapWhere (pdepth elems)
              (returns_below_mono mapWhere d (pdepth elems)
                 ltac:(lia) Hrec) elems n2) as (r & n' & E & Hr).
  { now apply bounded_pdepth. }
  exists (prop_set a2 attribute (VObject l Array r)), n'. split.
  - unfold bindO, retO. rewrite E. reflexivity.
  - apply bounded_prop_set; [exact Hb2|].
    rewrite wdepth_object. apply bounded_pdepth in Hr. lia.
Qed.

Lemma mapWhere_loop_total (mapWhere : value -> MO value) (d : nat) :
  returns_below mapWhere d ->
  forall keys attributes n,
    bounded d attributes ->
    exists r n',
      mapWhere_loop model mapWhere keys attributes n = Some (r, n')
      /\ bounded d r.
Proof.
  intros Hrec. induction keys as [|attribute rest IH]; intros attributes n Hb.
  - exists attributes, n. split; [reflexivity | exact Hb].
  - destruct (mapWhere_step_total mapWhere d attributes attribute n Hrec Hb)
      as (a1 & n1 & E & Hb1).
    destruct (IH a1 n1 Hb1) as (r & n' & E' & Hr).
    exists r, n'. split; [|exact Hr].
    cbn [mapWhere_loop]. unfold bindO. now rewrite E.
Qed.

(** With more fuel than its properties nest, [mapWhereFieldNames] returns
    the object it was given, with properties that nest no deeper. *)
Lemma mapWhereFieldNames_returns (fuel : nat) :
  returns_below (mapWhereFieldNames model fuel) fuel.
Proof.
  induction fuel as [|fuel IH]; intros l k ps n Hlt; [lia|].
  destruct (mapWhere_loop_total (mapWhereFieldNames model fuel) (pdepth ps)
              (returns_below_mono _ fuel (pdepth ps) ltac:(lia) IH)
              (getComplexKeys ps) ps n) as (r & n' & E & Hr).
  { now apply bounded_pdepth. }
  exists r, n'. split; [|exact Hr].
  cbn [mapWhereFieldNames]. unfold bindO, retO. now rewrite E.
Qed.

(** Any value is mapped, given fuel enough for its nesting. *)
Lemma mapWhereFieldNames_enough_fuel (attributes : value) (fuel n : nat) :
  match attributes with VObject _ _ ps => pdepth ps <= fuel | _ => True end ->
  exists r n', mapWhereFieldNames model (S fuel) attributes n = Some (r, n').
Proof.
  intros H. destruct attributes as [| | | | |l k ps];
    try (eexists; eexists; reflexivity).
  destruct (mapWhereFieldNames_returns (S fuel) l k ps n) as (r & n' & E & _);
    [lia|].
  eauto.
Qed.

End MapWhereTotal.

Section TickHelpers.
Import JSString Utils HelperSpec.

Lemma remove_all_none (cls : ascii -> bool) (s : string) :
  (forall c, cls c = true -> includes s (String c EmptyString) = false) ->
  remove_all cls s = s.
Proof.
  induction s as [|d s IH]; intros H; [reflexivity|].
  cbn [remove_all]. destruct (cls d) eqn:E.
  - specialize (H d E). cbn in H.
    destruct (Ascii.ascii_dec d d); [|congruence].
    destruct s; discriminate.
  - f_equal. apply IH. intros c Hc. specialize (H c Hc).
    change (includes (String d s) (String c EmptyString))
      with (if String.prefix (String c EmptyString) (String d s) then true
            else includes s (String c EmptyString)) in H.
    now destruct (String.prefix (String c EmptyString) (String d s)).
Qed.

(** X1: for a tick character that stands for itself in a regular
    expression, ticking twice is ticking once, [addTicks(addTicks(s, c), c)
    = addTicks(s, c)]; un-ticking a ticked string gives the un-ticked
    string, [removeTicks(addTicks(s, c), c) = removeTicks(s, c)], and that
    string holds none of the tick characters. *)
Theorem addTicks_idempotent (s : string) (c : ascii) :
  regexp_literal c = true ->
  addTicks (addTicks s c) c = addTicks s c
  /\ removeTicks (addTicks s c) c = removeTicks s c
  /\ includes (removeTicks s c) (String c EmptyString) = false.
Proof.
  intros _.
  assert (Hc : Ascii.eqb c c = true) by apply Ascii.eqb_refl.
  assert (R : removeTicks (addTicks s c) c = removeTicks s c).
  { unfold addTicks, removeTicks.
    rewrite (remove_all_wrapped (Ascii.eqb c) c c) by exact Hc.
    apply remove_all_idem. }
  split; [|split; [exact R|]].
  - unfold addTicks at 1. now rewrite R.
  - unfold removeTicks. now apply includes_remove_all.
Qed.

Lemma addTicks_idempotent_witness :
  addTicks (addTicks "a`b" TICK_CHAR) TICK_CHAR = addTicks "a`b" TICK_CHAR.
Proof.
  apply (addTicks_idempotent "a`b" TICK_CHAR). reflexivity.
Defined.

(** X2: a string without the tick character (one that stands for itself in
    a regular expression) comes back unchanged from ticking and un-ticking:
    [removeTicks(addTicks(s, c), c) = s]. *)
Theorem removeTicks_addTicks_round_trip (s : string) (c : ascii) :
  regexp_literal c = true ->
  includes s (String c EmptyString) = false ->
  removeTicks (addTicks s c) c = s.
Proof.
  intros _ H. unfold addTicks, removeTicks.
  rewrite (remove_all_wrapped (Ascii.eqb c) c c) by apply Ascii.eqb_refl.
  rewrite remove_all_idem. apply remove_all_none.
  intros d Hd. apply Ascii.eqb_eq in Hd. now subst d.
Qed.

Lemma removeTicks_addTicks_round_trip_witness :
  removeTicks (addTicks "users" TICK_CHAR) TICK_CHAR = "users".
Proof.
  apply (removeTicks_addTicks_round_trip "users" TICK_CHAR); reflexivity.
Defined.

End TickHelpers.

Section SpliceStr.
Import JSString Utils.
Local Open Scope Z_scope.

Lemma substring_prefix (a b : string) :
  substring 0 (String.length a) (a ++ b) = a.
Proof.
  induction a as [|c a IH]; cbn.
  - now destruct b.
  - now rewrite IH.
Qed.

Lemma substring_skip (a b : string) (m : nat) :
  substring (String.length a) m (a ++ b) = substring 0 m b.
Proof. induction a as [|c a IH]; [reflexivity | exact IH]. Qed.

Lemma substring_whole (s : string) : substring 0 (String.length s) s = s.
Proof. induction s as [|c s IH]; cbn; [reflexivity | now rewrite IH]. Qed.

Lemma string_split_at (s : string) (n : nat) :
  (n <= String.length s)%nat ->
  exists a b, s = (a ++ b)%string /\ String.length a = n.
Proof.
  revert n. induction s as [|c s IH]; intros n Hn.
  - exists EmptyString, EmptyString. cbn in *. split; [reflexivity | lia].
  - destruct n as [|n].
    + exists EmptyString, (String c s). auto.
    + destruct (IH n) as (a & b & -> & Ha); [cbn in Hn; lia|].
      exists (String c a), b. cbn. split; [reflexivity | now rewrite Ha].
Qed.

(** The part of a string before an index within it. *)
Lemma slice_to (a b : string) :
  slice (a ++ b) 0 (Some (Z.of_nat (String.length a))) = a.
Proof.
  unfold slice, relative_index. rewrite string_append_length.
  set (la := String.length a). set (lb := String.length b).
  replace (0 <? 0) with false by reflexivity.
  replace (Z.of_nat la <? 0) with false by (symmetry; apply Z.ltb_ge; lia).
  rewrite Z.min_l by lia. rewrite Z.min_l by lia.
  destruct (Z.of_nat la <=? 0) eqn:E.
  - apply Z.leb_le in E. assert (la = 0)%nat by lia.
    subst la. destruct a; [reflexivity | discriminate].
  - rewrite Z.sub_0_r, Nat2Z.id. cbn [Z.to_nat]. apply substring_prefix.
Qed.

(** The part of a string from an index within it. *)
Lemma slice_from (a b : string) :
  slice (a ++ b) (Z.of_nat (String.length a)) None = b.
Proof.
  unfold slice, relative_index. rewrite string_append_length.
  set (la := String.length a). set (lb := String.length b).
  replace (Z.of_nat la <? 0) with false by (symmetry; apply Z.ltb_ge; lia).
  rewrite Z.min_l by lia.
  destruct (Z.of_nat (la + lb) <=? Z.of_nat la) eqn:E.
  - apply Z.leb_le in E. assert (lb = 0)%nat by lia.
    subst lb. destruct b; [reflexivity | discriminate].
  - rewrite Nat2Z.id.
    replace (Z.to_nat (Z.of_nat (la + lb) - Z.of_nat la)) with lb by lia.
    unfold la. rewrite substring_skip. apply substring_whole.
Qed.

Lemma spliceStr_parts (a b c add : string) :
  spliceStr (a ++ b ++ c) (Z.of_nat (String.length a))
    (Z.of_nat (String.length b)) add
  = (a ++ add ++ c)%string.
Proof.
  unfold spliceStr. rewrite slice_to. f_equal. f_equal.
  rewrite <- Nat2Z.inj_add, <- string_append_length.
  rewrite <- string_app_assoc. apply slice_from.
Qed.

(** Whatever the index, the part before it and the part from it make up
    the string. *)
Lemma slice_complement (s : string) (i : Z) :
  (slice s 0 (Some i) ++ slice s i None)%string = s.
Proof.
  set (len := Z.of_nat (String.length s)).
  set (k := relative_index len i).
  assert (Hk : 0 <= k <= len).
  { unfold k, relative_index. destruct (i <? 0) eqn:E; lia. }
  destruct (string_split_at s (Z.to_nat k)) as (a & b & Hs & Ha); [lia|].
  assert (Hka : k = Z.of_nat (String.length a)) by lia.
  assert (E1 : slice s 0 (Some i) = slice s 0 (Some k)).
  { unfold slice. fold len. fold k.
    replace (relative_index len k) with k; [reflexivity|].
    unfold relative_index.
    replace (k <? 0) with false by (symmetry; apply Z.ltb_ge; lia). lia. }
  assert (E2 : slice s i None = slice s k None).
  { unfold slice. fold len. fold k.
    replace (relative_index len k) with k; [reflexivity|].
    unfold relative_index.
    replace (k <? 0) with false by (symmetry; apply Z.ltb_ge; lia). lia. }
  rewrite E1, E2, Hka, Hs. now rewrite slice_to, slice_from.
Qed.

Lemma slice_to_relative (s : string) (i : Z) :
  slice s 0 (Some i)
  = slice s 0 (Some (relative_index (Z.of_nat (String.length s)) i)).
Proof.
  unfold slice. set (len := Z.of_nat (String.length s)).
  set (k := relative_index len i).
  assert (Hk : 0 <= k <= len).
  { unfold k, relative_index. destruct (i <? 0) eqn:E; lia. }
  replace (relative_index len k) with k; [reflexivity|].
  unfold relative_index.
  replace (k <? 0) with false by (symmetry; apply Z.ltb_ge; lia). lia.
Qed.

(** X3: with an index and a count inside the string, [spliceStr] replaces
    the [count] code units from [index] on by [add]: the string is [a ++ b
    ++ c] with [a] of length [index] and [b] of length [count], and the
    result is [a ++ add ++ c]. *)
Theorem spliceStr_replaces (str : string) (index count : Z) (add : string) :
  0 <= index -> 0 <= count ->
  index + count <= Z.of_nat (String.length str) ->
  exists a b c,
    str = (a ++ b ++ c)%string
    /\ Z.of_nat (String.length a) = index
    /\ Z.of_nat (String.length b) = count
    /\ spliceStr str index count add = (a ++ add ++ c)%string.
Proof.
  intros Hi Hc Hlen.
  destruct (string_split_at str (Z.to_nat index)) as (a & rest & -> & Ha);
    [lia|].
  rewrite string_append_length in Hlen.
  destruct (string_split_at rest (Z.to_nat count)) as (b & c & -> & Hb);
    [lia|].
  exists a, b, c. repeat split; try lia.
  replace index with (Z.of_nat (String.length a)) by lia.
  replace count with (Z.of_nat (String.length b)) by lia.
  apply spliceStr_parts.
Qed.

Lemma spliceStr_replaces_witness :
  exists a b c,
    "SELECT ? FROM t" = (a ++ b ++ c)%string
    /\ Z.of_nat (String.length a) = 7
    /\ Z.of_nat (String.length b) = 1
    /\ spliceStr "SELECT ? FROM t" 7 1 "42" = (a ++ "42" ++ c)%string.
Proof.
  apply (spliceStr_replaces "SELECT ? FROM t" 7 1 "42"); cbn; lia.
Defined.

(** X4: splicing nothing in and nothing out returns the string, for every
    integer index, negative or beyond the end: [spliceStr(str, index, 0,
    "") = str]. *)
Theorem spliceStr_nothing (str : string) (index : Z) :
  spliceStr str index 0 "" = str.
Proof.
  unfold spliceStr. rewrite Z.add_0_r. cbn [append].
  apply slice_complement.
Qed.

(** X5: what [spliceStr] inserts at an index inside the string, it removes
    again at that index: [spliceStr(spliceStr(str, index, 0, add), index,
    add.length, "") = str]. *)
Theorem spliceStr_insert_remove (str : string) (index : Z) (add : string) :
  0 <= index <= Z.of_nat (String.length str) ->
  spliceStr (spliceStr str index 0 add) index
    (Z.of_nat (String.length add)) ""
  = str.
Proof.
  intros Hi.
  destruct (string_split_at str (Z.to_nat index)) as (a & c & -> & Ha);
    [lia|].
  replace index with (Z.of_nat (String.length a)) by lia.
  pose proof (spliceStr_parts a "" c add) as Hins.
  cbn [String.length Z.of_nat append] in Hins. rewrite Hins.
  apply (spliceStr_parts a add c "").
Qed.

Lemma spliceStr_insert_remove_witness :
  spliceStr (spliceStr "ab" 1 0 "xyz") 1 3 "" = "ab".
Proof.
  apply (spliceStr_insert_remove "ab" 1 "xyz"). cbn. lia.
Defined.

(** X6: a negative index counts from the end only in the part kept before
    it: with [index = -count] the rest starts at [index + count = 0], so
    nothing is removed and the whole string follows [add]:
    [spliceStr(a ++ b, -b.length, b.length, add) = a ++ add ++ a ++ b] for
    a non-empty [b]. *)
Theorem spliceStr_negative_index (a b add : string) :
  b <> EmptyString ->
  spliceStr (a ++ b) (- Z.of_nat (String.length b))
    (Z.of_nat (String.length b)) add
  = (a ++ add ++ a ++ b)%string.
Proof.
  intros Hb.
  assert (Hlen : (0 < String.length b)%nat).
  { destruct b; [congruence | cbn; lia]. }
  unfold spliceStr. rewrite Z.add_opp_diag_l.
  rewrite slice_to_relative.
  replace (relative_index (Z.of_nat (String.length (a ++ b)))
             (- Z.of_nat (String.length b)))
    with (Z.of_nat (String.length a)).
  - rewrite slice_to. f_equal. f_equal.
    apply (slice_from "" (a ++ b)).
  - unfold relative_index. rewrite string_append_length.
    destruct (- Z.of_nat (String.length b) <? 0) eqn:E.
    + lia.
    + apply Z.ltb_ge in E. lia.
Qed.

Lemma spliceStr_negative_index_witness :
  spliceStr "abcd" (-2) 2 "X" = "abXabcd".
Proof.
  apply (spliceStr_negative_index "ab" "cd" "X"). discriminate.
Defined.

End SpliceStr.

Section Camelize.
Import JSString Utils HelperSpec.

Lemma trimEnd_last (s : string) (c : ascii) :
  last_char (trimEnd s) = Some c -> is_space c = false.
Proof.
  revert c. induction s as [|a s IH]; intros c; cbn [trimEnd].
  - discriminate.
  - destruct (trimEnd s) as [|b t] eqn:E.
    + destruct (is_space a) eqn:Ea; cbn; [discriminate|].
      intros [= <-]. exact Ea.
    + change (last_char (String a (String b t)))
        with (last_char (String b t)).
      apply IH.
Qed.

Lemma trimEnd_fixed (s : string) :
  match last_char s with
  | Some c => is_space c = false
  | None => True
  end ->
  trimEnd s = s.
Proof.
  induction s as [|a s IH]; [reflexivity|].
  destruct s as [|b t].
  - cbn. intros ->. reflexivity.
  - change (last_char (String a (String b t)))
      with (last_char (String b t)).
    intros H.
    change (trimEnd (String a (String b t)))
      with (match trimEnd (String b t) with
            | EmptyString =>
                if is_space a then EmptyString else String a EmptyString
            | String x y => String a (String x y)
            end).
    rewrite (IH H). reflexivity.
Qed.

Lemma last_char_app (a : string) (c : ascii) (b : string) :
  last_char (a ++ String c b) = last_char (String c b).
Proof.
  induction a as [|x a IH]; [reflexivity|].
  cbn [append]. destruct (a ++ String c b) as [|y t] eqn:E.
  - destruct a; discriminate.
  - change (last_char (String x (String y t))) with (last_char (String y t)).
    exact IH.
Qed.

Lemma separator_not_space (c : ascii) :
  is_separator c = true -> is_space c = false ->
  c = "-"%char \/ c = "_"%char.
Proof.
  unfold is_separator. intros H Hs. rewrite Hs, orb_false_r in H.
  apply orb_true_iff in H as [H|H]; apply Ascii.eqb_eq in H; auto.
Qed.

Lemma space_is_separator (c : ascii) :
  is_separator c = false -> is_space c = false.
Proof.
  unfold is_separator. intros H. apply orb_false_iff in H. tauto.
Qed.

Lemma last_char_cons (b : ascii) (t : string) :
  exists c, last_char (String b t) = Some c.
Proof.
  revert b. induction t as [|x t IH]; intros b.
  - now exists b.
  - change (last_char (String b (String x t))) with (last_char (String x t)).
    apply IH.
Qed.

(** The replacement throws exactly when a run of separators reaches the end
    of the string. *)
Lemma replace_separators_throws (s : string) (after_run : bool) :
  replace_separators s after_run = TypeError
  <-> match last_char s with
      | Some c => is_separator c = true
      | None => after_run = true
      end.
Proof.
  revert after_run. induction s as [|c s IH]; intros after_run.
  - cbn. destruct after_run; split; congruence.
  - cbn [replace_separators]. destruct (is_separator c) eqn:Ec.
    + rewrite IH. destruct s as [|b t].
      * cbn [last_char]. rewrite Ec. tauto.
      * change (last_char (String c (String b t)))
          with (last_char (String b t)).
        destruct (last_char_cons b t) as [x ->]. reflexivity.
    + specialize (IH false).
      destruct s as [|b t].
      * cbn. rewrite Ec. split; congruence.
      * change (last_char (String c (String b t)))
          with (last_char (String b t)).
        destruct (last_char_cons b t) as [x Hx]. rewrite Hx in *.
        destruct (replace_separators (String b t) false) eqn:E.
        -- split; [congruence|]. intros H. apply IH in H. discriminate.
        -- tauto.
Qed.

Lemma replace_separators_free (s : string) :
  separator_free s = true -> replace_separators s false = Returned s.
Proof.
  induction s as [|c s IH]; [reflexivity|].
  unfold separator_free. cbn [all_chars replace_separators].
  intros H. apply andb_true_iff in H as [Hc Hs].
  apply negb_true_iff in Hc. rewrite Hc.
  unfold separator_free in IH. rewrite (IH Hs). reflexivity.
Qed.

Lemma upper_char_separator (c : ascii) :
  is_separator c = false -> is_separator (upper_char c) = false.
Proof.
  destruct c as [[] [] [] [] [] [] [] []]; vm_compute; congruence.
Qed.

Lemma replace_separators_result (s : string) (after_run : bool) (r : string) :
  replace_separators s after_run = Returned r -> separator_free r = true.
Proof.
  revert after_run r. induction s as [|c s IH]; intros after_run r.
  - cbn. destruct after_run; [discriminate|]. intros [= <-]. reflexivity.
  - cbn [replace_separators]. destruct (is_separator c) eqn:Ec.
    + apply IH.
    + destruct (replace_separators s false) as [r'|] eqn:E; [|discriminate].
      intros [= <-]. unfold separator_free. cbn [all_chars].
      apply andb_true_iff. split.
      * apply negb_true_iff.
        destruct after_run; [now apply upper_char_separator | exact Ec].
      * exact (IH false r' E).
Qed.

Lemma separator_free_last (s : string) :
  separator_free s = true ->
  match last_char s with
  | Some c => is_space c = false
  | None => True
  end.
Proof.
  induction s as [|c s IH]; [exact (fun _ => I)|].
  unfold separator_free. cbn [all_chars]. intros H.
  apply andb_true_iff in H as [Hc Hs]. apply negb_true_iff in Hc.
  destruct s as [|b t].
  - cbn. now apply space_is_separator.
  - change (last_char (String c (String b t))) with (last_char (String b t)).
    exact (IH Hs).
Qed.

Lemma trim_separator_free (s : string) :
  separator_free s = true -> trim s = s.
Proof.
  intros H. unfold trim.
  assert (Hs : trimStart s = s).
  { destruct s as [|c s]; [reflexivity|].
    unfold separator_free in H. cbn [all_chars] in H.
    apply andb_true_iff in H as [Hc _]. apply negb_true_iff in Hc.
    cbn [trimStart]. now rewrite (space_is_separator c Hc). }
  rewrite Hs. apply trimEnd_fixed. now apply separator_free_last.
Qed.

Lemma replace_separators_run (sep : string) (c : ascii) (rest : string)
  (after_run : bool) :
  all_chars is_separator sep = true -> sep <> EmptyString ->
  is_separator c = false ->
  replace_separators (sep ++ String c rest) after_run
  = match replace_separators rest false with
    | Returned r => Returned (String (upper_char c) r)
    | TypeError => TypeError
    end.
Proof.
  revert after_run. induction sep as [|x sep IH]; intros after_run Hall Hne Hc.
  - congruence.
  - cbn [all_chars] in Hall. apply andb_true_iff in Hall as [Hx Hall].
    cbn [append replace_separators]. rewrite Hx.
    destruct sep as [|y sep'].
    + cbn [append replace_separators]. rewrite Hc. reflexivity.
    + apply IH; [exact Hall | discriminate | exact Hc].
Qed.

Lemma replace_separators_prefix (w rest : string) :
  separator_free w = true ->
  replace_separators (w ++ rest) false
  = match replace_separators rest false with
    | Returned r => Returned (w ++ r)%string
    | TypeError => TypeError
    end.
Proof.
  induction w as [|c w IH]; intros H.
  - cbn [append]. destruct (replace_separators rest false); reflexivity.
  - unfold separator_free in H. cbn [all_chars] in H.
    apply andb_true_iff in H as [Hc Hw]. apply negb_true_iff in Hc.
    cbn [append replace_separators]. rewrite Hc.
    rewrite (IH Hw).
    destruct (replace_separators rest false); reflexivity.
Qed.

(** X7: [camelize] throws a [TypeError] exactly when the trimmed string
    ends in [-] or [_]: the pattern then matches a run of separators with
    nothing after it, the group is [undefined], and the callback calls
    [toUpperCase] on it. On every other string it returns. *)
Theorem camelize_throws_iff (str : string) :
  camelize str = TypeError
  <-> last_char (trim str) = Some "-"%char
      \/ last_char (trim str) = Some "_"%char.
Proof.
  unfold camelize. rewrite replace_separators_throws.
  destruct (last_char (trim str)) as [c|] eqn:E.
  - split.
    + intros Hc.
      destruct (separator_not_space c Hc (trimEnd_last _ _ E)) as [-> | ->];
        auto.
    + intros [[= ->] | [= ->]]; reflexivity.
  - split; [discriminate | intros [H|H]; discriminate].
Qed.

(** X8: what [camelize] returns holds no [-], [_] or white space, and
    [camelize] returns it unchanged when applied again. *)
Theorem camelize_result_stable (str r : string) :
  camelize str = Returned r ->
  separator_free r = true /\ camelize r = Returned r.
Proof.
  unfold camelize. intros H.
  pose proof (replace_separators_result _ _ _ H) as Hr.
  split; [exact Hr|].
  rewrite (trim_separator_free r Hr).
  now apply replace_separators_free.
Qed.

Lemma camelize_result_stable_witness :
  separator_free "fooBarBaz" = true
  /\ camelize "fooBarBaz" = Returned "fooBarBaz".
Proof.
  apply (camelize_result_stable " foo-bar__baz "). reflexivity.
Defined.

(** X9: two words joined by a run of [-], [_] and white space come out as
    the first word followed by the second with its first code unit
    upper-cased, the first word being non-empty and both free of
    separators. The capital of that code unit is one code unit. *)
Theorem camelize_joins_words (w1 sep : string) (c : ascii) (w2 : string) :
  w1 <> EmptyString -> separator_free w1 = true ->
  sep <> EmptyString -> all_chars is_separator sep = true ->
  separator_free (String c w2) = true ->
  upper_is_unit c = true ->
  camelize (w1 ++ sep ++ String c w2)
  = Returned (w1 ++ String (upper_char c) w2)%string.
Proof.
  intros Hw1 Hf1 Hsep Hall Hf2 _.
  pose proof Hf2 as Hf2'. unfold separator_free in Hf2'.
  cbn [all_chars] in Hf2'. apply andb_true_iff in Hf2' as [Hc Hw2].
  apply negb_true_iff in Hc.
  unfold camelize.
  assert (Htrim : trim (w1 ++ sep ++ String c w2) = w1 ++ sep ++ String c w2).
  { unfold trim.
    assert (Hs : trimStart (w1 ++ sep ++ String c w2)
                 = w1 ++ sep ++ String c w2).
    { destruct w1 as [|x w1]; [congruence|].
      unfold separator_free in Hf1. cbn [all_chars] in Hf1.
      apply andb_true_iff in Hf1 as [Hx _]. apply negb_true_iff in Hx.
      cbn [append trimStart]. now rewrite (space_is_separator x Hx). }
    rewrite Hs. apply trimEnd_fixed.
    rewrite <- string_app_assoc, last_char_app.
    exact (separator_free_last _ Hf2). }
  rewrite Htrim.
  rewrite (replace_separators_prefix w1 _ Hf1).
  rewrite (replace_separators_run sep c w2 false Hall Hsep Hc).
  rewrite (replace_separators_free w2 Hw2). reflexivity.
Qed.

Lemma camelize_joins_words_witness :
  camelize "created_at" = Returned "createdAt".
Proof.
  apply (camelize_joins_words "created" "_" "a" "t");
    [discriminate | reflexivity | discriminate | reflexivity | reflexivity
    | reflexivity].
Defined.

(** X10: white space at the start is trimmed before the pattern is
    applied, a leading [-] or [_] is not: after leading white space the
    first word keeps its case, after a leading run holding [-] or [_] its
    first code unit is upper-cased. The capital of that code unit is one
    code unit. *)
Theorem camelize_leading_run (sep : string) (c : ascii) (w : string) :
  sep <> EmptyString -> all_chars is_separator sep = true ->
  separator_free (String c w) = true ->
  upper_is_unit c = true ->
  camelize (sep ++ String c w)
  = Returned (String (if all_chars is_space sep then c else upper_char c) w).
Proof.
  intros Hsep Hall Hf _.
  pose proof Hf as Hf'. unfold separator_free in Hf'.
  cbn [all_chars] in Hf'. apply andb_true_iff in Hf' as [Hc Hw].
  apply negb_true_iff in Hc.
  pose proof (space_is_separator c Hc) as Hcs.
  unfold camelize, trim.
  assert (Hend : forall t, trimEnd (t ++ String c w) = t ++ String c w).
  { intros t. apply trimEnd_fixed. rewrite last_char_app.
    exact (separator_free_last _ Hf). }
  clear Hsep.
  induction sep as [|x sep IH].
  - cbn [append all_chars trimStart]. rewrite Hcs.
    pose proof (Hend EmptyString) as H0. cbn [append] in H0. rewrite H0.
    now rewrite (replace_separators_free _ Hf).
  - cbn [all_chars] in Hall. apply andb_true_iff in Hall as [Hx Hall].
    cbn [append trimStart all_chars].
    destruct (is_space x) eqn:Ex.
    + cbn [andb]. exact (IH Hall).
    + cbn [andb].
      change (String x (sep ++ String c w))
        with (String x sep ++ String c w).
      rewrite (Hend (String x sep)).
      rewrite (replace_separators_run (String x sep) c w false);
        [ | cbn [all_chars]; now rewrite Hx | discriminate | exact Hc ].
      now rewrite (replace_separators_free w Hw).
Qed.

Lemma camelize_leading_run_witness :
  camelize " foo" = Returned "foo" /\ camelize "_foo" = Returned "Foo".
Proof.
  split.
  - apply (camelize_leading_run " " "f" "oo");
      [discriminate | reflexivity | reflexivity | reflexivity].
  - apply (camelize_leading_run "_" "f" "oo");
      [discriminate | reflexivity | reflexivity | reflexivity].
Defined.

End Camelize.

Section SmallHelpers.
Import JSString JS Utils HelperSpec.

Lemma last_char_snoc (s : string) (c : ascii) :
  last_char s = Some c -> exists p, s = (p ++ String c EmptyString)%string.
Proof.
  induction s as [|a s IH]; [discriminate|].
  destruct s as [|b t].
  - intros [= <-]. now exists EmptyString.
  - change (last_char (String a (String b t))) with (last_char (String b t)).
    intros H. destruct (IH H) as [p ->]. now exists (String a p).
Qed.

(** X11: [isColString] accepts exactly the strings that begin and end with
    a dollar sign, the two of which may be one and the same character: the
    lone ["$"], and ["$" + s + "$"] for any [s]. No other value is
    accepted. *)
Theorem isColString_iff (v : value) :
  isColString v = true
  <-> v = VString "$"
      \/ exists s, v = VString ("$" ++ s ++ "$").
Proof.
  split.
  - destruct v as [| | | |s|]; try discriminate.
    unfold isColString. destruct s as [|a s]; [discriminate|].
    cbn [first_char].
    destruct (last_char (String a s)) as [b|] eqn:E; [|discriminate].
    intros H. apply andb_true_iff in H as [Ha Hb].
    apply Ascii.eqb_eq in Ha, Hb. subst a b.
    destruct s as [|c t]; [now left|].
    change (last_char (String "$" (String c t)))
      with (last_char (String c t)) in E.
    destruct (last_char_snoc _ _ E) as [p Hp].
    right. exists p. cbn [append]. now rewrite Hp.
  - intros [-> | [s ->]]; [reflexivity|].
    unfold isColString. cbn [append first_char].
    change (String "$" (s ++ "$"))
      with (String "$" s ++ String "$" EmptyString)%string.
    rewrite last_char_app. reflexivity.
Qed.

(** X12: the name of an enum does not tell where the table name ends: a
    table [t_x] with a column [c] and a table [t] with a column [x_c] are
    different pairs with one and the same enum name. *)
Theorem generateEnumName_collision (t x c : string) :
  (t ++ "_" ++ x)%string <> t
  /\ generateEnumName (t ++ "_" ++ x) c = generateEnumName t (x ++ "_" ++ c).
Proof.
  split.
  - intros H. apply (f_equal String.length) in H.
    rewrite string_append_length in H. cbn in H. lia.
  - unfold generateEnumName.
    now rewrite !string_app_assoc.
Qed.

Lemma loc_eqb_sym (a b : loc) : loc_eqb a b = loc_eqb b a.
Proof.
  destruct a, b; cbn; auto using Nat.eqb_sym, String.eqb_sym.
Qed.

Lemma same_value_sym (a b : value) : same_value a b = same_value b a.
Proof.
  destruct a, b; cbn; auto using Z.eqb_sym, String.eqb_sym, loc_eqb_sym.
  now destruct b, b0.
Qed.

Lemma same_value_zero_sym (a b : element) :
  same_value_zero a b = same_value_zero b a.
Proof. destruct a, b; cbn; auto using same_value_sym. Qed.

Lemma read_dense (arr : list element) (x : element) :
  dense arr = true -> In x arr -> read x = x /\ x <> Hole.
Proof.
  unfold dense. rewrite forallb_forall. intros H Hin.
  specialize (H x Hin). destruct x; [discriminate | |]; now split.
Qed.

Lemma intersects_spec (arr1 arr2 : list element) :
  intersects arr1 arr2 = true
  <-> exists x y, In x arr1 /\ In y arr2 /\ x <> Hole
                  /\ same_value_zero (read y) x = true.
Proof.
  unfold intersects, Array_includes. rewrite existsb_exists. split.
  - intros (x & Hx & H). destruct x as [| |v]; [discriminate | |];
      apply existsb_exists in H as (y & Hy & E);
      [exists NaN, y | exists (Elem v), y]; repeat split; auto; discriminate.
  - intros (x & y & Hx & Hy & Hne & E). exists x. split; [exact Hx|].
    destruct x as [| |v]; [contradiction | |];
      apply existsb_exists; exists y; auto.
Qed.

(** X13: [intersects] holds exactly when an index of the first array
    holds something that an index of the second array reads as: [NaN]
    for [NaN], and otherwise a strictly equal value, equal primitives or
    one and the same object, where a hole of the second array reads as
    [undefined] and a hole of the first is skipped. On arrays without
    holes the order of the arguments does not matter; on a sparse array
    it does. *)
Theorem intersects_symmetric (arr1 arr2 : list element) :
  (intersects arr1 arr2 = true
   <-> exists x y, In x arr1 /\ In y arr2 /\ x <> Hole
                   /\ same_value_zero (read y) x = true)
  /\ (dense arr1 = true -> dense arr2 = true ->
      intersects arr1 arr2 = intersects arr2 arr1)
  /\ intersects [NaN] [NaN] = true
  /\ intersects [Elem VUndefined] [Hole] = true
  /\ intersects [Hole] [Elem VUndefined] = false.
Proof.
  split; [apply intersects_spec|]. split; [|repeat split].
  intros H1 H2.
  apply Bool.eq_iff_eq_true. rewrite !intersects_spec. split.
  - intros (x & y & Hx & Hy & _ & E).
    destruct (read_dense arr1 x H1 Hx) as [Rx _].
    destruct (read_dense arr2 y H2 Hy) as [Ry Ny].
    exists y, x. rewrite Rx, same_value_zero_sym. rewrite Ry in E. auto.
  - intros (x & y & Hx & Hy & _ & E).
    destruct (read_dense arr2 x H2 Hx) as [Rx _].
    destruct (read_dense arr1 y H1 Hy) as [Ry Ny].
    exists y, x. rewrite Rx, same_value_zero_sym. rewrite Ry in E. auto.
Qed.

End SmallHelpers.

Section CamelizeObjectKeys.
Import JSString JS Utils HelperSpec.

Lemma camelize_keys_app (obj : props) (pre post : list string) (acc : props) :
  camelize_keys obj (pre ++ post) acc
  = match camelize_keys obj pre acc with
    | Returned acc' => camelize_keys obj post acc'
    | TypeError => TypeError
    end.
Proof.
  revert acc. induction pre as [|key pre IH]; intros acc; [reflexivity|].
  cbn [app camelize_keys]. destruct (camelize key); [apply IH | reflexivity].
Qed.

Lemma camelize_keys_throws (obj : props) (keys : list string) (acc : props) :
  camelize_keys obj keys acc = TypeError
  <-> exists key, In key keys /\ camelize key = TypeError.
Proof.
  revert acc. induction keys as [|key keys IH]; intros acc.
  - cbn. split; [discriminate | intros (k & [] & _)].
  - cbn [camelize_keys]. destruct (camelize key) as [k|] eqn:E.
    + rewrite IH. split.
      * intros (key' & Hin & H). exists key'. split; [now right | exact H].
      * intros (key' & [<- | Hin] & H); [congruence|].
        exists key'. now split.
    + split; [|reflexivity]. intros _. exists key. split; [now left | exact E].
Qed.

Lemma camelize_keys_keeps (obj : props) (keys : list string) (acc : props)
    (k : string) (v : value) :
  own acc (KStr k) = Some v ->
  (forall key, In key keys -> camelize key <> Returned k) ->
  (forall key, In key keys -> camelize key <> TypeError) ->
  exists r, camelize_keys obj keys acc = Returned r /\ own r (KStr k) = Some v.
Proof.
  revert acc. induction keys as [|key keys IH]; intros acc Hown Hk Hok.
  - exists acc. now split.
  - cbn [camelize_keys]. destruct (camelize key) as [k'|] eqn:E.
    + apply IH.
      * rewrite own_prop_set_other; [exact Hown|].
        intros [= ->]. apply (Hk key); [now left | exact E].
      * intros key' Hin. apply Hk. now right.
      * intros key' Hin. apply Hok. now right.
    + exfalso. apply (Hok key); [now left | exact E].
Qed.

(** X14: [camelizeObjectKeys] throws a [TypeError] exactly when [camelize]
    throws on one of the object's own string keys, that is when a key,
    trimmed, ends in [-] or [_]; otherwise it returns a new plain
    object. *)
Theorem camelizeObjectKeys_throws_iff (obj : props) (n : nat) :
  (fst (camelizeObjectKeys obj n) = TypeError
   <-> exists key,
         In key (Object_keys obj)
         /\ (last_char (trim key) = Some "-"%char
             \/ last_char (trim key) = Some "_"%char))
  /\ (fst (camelizeObjectKeys obj n) <> TypeError ->
      exists newObj,
        camelizeObjectKeys obj n
        = (Returned (VObject (Addr n) Plain newObj), S n)).
Proof.
  unfold camelizeObjectKeys, bind, alloc, ret. cbn [fst].
  destruct (camelize_keys obj (Object_keys obj) []) as [r|] eqn:E.
  - split.
    + split; [discriminate|].
      intros (key & Hin & H). exfalso.
      assert (Ht : camelize_keys obj (Object_keys obj) [] = TypeError).
      { apply camelize_keys_throws. exists key. split; [exact Hin|].
        unfold camelize. apply replace_separators_throws.
        destruct H as [-> | ->]; reflexivity. }
      congruence.
    + intros _. now exists r.
  - split.
    + split; [intros _ | reflexivity].
      apply camelize_keys_throws in E as (key & Hin & H).
      exists key. split; [exact Hin|].
      unfold camelize in H. apply replace_separators_throws in H.
      destruct (last_char (trim key)) as [c|] eqn:Ec; [|discriminate].
      destruct (separator_not_space c H (trimEnd_last _ _ Ec)) as [-> | ->];
        auto.
    + congruence.
Qed.

(** X15: when two keys of the object have the same camelized form, the
    later one wins: the result holds, under the camelized form of a key,
    the value of that key, provided no key after it has the same camelized
    form and [camelize] throws on no key. *)
Theorem camelizeObjectKeys_last_wins (obj : props) (n : nat)
    (pre post : list string) (key k : string) :
  Object_keys obj = (pre ++ key :: post)%list ->
  camelize key = Returned k ->
  (forall key', In key' post -> camelize key' <> Returned k) ->
  (forall key', In key' (Object_keys obj) -> camelize key' <> TypeError) ->
  exists newObj,
    camelizeObjectKeys obj n = (Returned (VObject (Addr n) Plain newObj), S n)
    /\ lookup newObj (KStr k) = lookup obj (KStr key).
Proof.
  intros Hkeys Hk Hpost Hok.
  unfold camelizeObjectKeys, bind, alloc, ret.
  rewrite Hkeys, camelize_keys_app.
  destruct (camelize_keys obj pre []) as [acc|] eqn:Epre.
  - cbn [camelize_keys]. rewrite Hk.
    destruct (camelize_keys_keeps obj post
                (prop_set acc (KStr k) (lookup obj (KStr key))) k
                (lookup obj (KStr key))) as (r & -> & Hr).
    + apply own_prop_set_same.
    + exact Hpost.
    + intros key' Hin. apply Hok. rewrite Hkeys.
      apply in_or_app. right. now right.
    + exists r. split; [reflexivity|]. unfold lookup at 1. now rewrite Hr.
  - exfalso. apply camelize_keys_throws in Epre as (key' & Hin & H).
    apply (Hok key'); [|exact H].
    rewrite Hkeys. apply in_or_app. now left.
Qed.

Lemma camelizeObjectKeys_last_wins_witness :
  exists newObj,
    camelizeObjectKeys
      [(KStr "created_at", VNumber 1); (KStr "createdAt", VNumber 2)] 0
    = (Returned (VObject (Addr 0) Plain newObj), 1)
    /\ lookup newObj (KStr "createdAt")
       = lookup [(KStr "created_at", VNumber 1); (KStr "createdAt", VNumber 2)]
           (KStr "createdAt").
Proof.
  apply (camelizeObjectKeys_last_wins
           [(KStr "created_at", VNumber 1); (KStr "createdAt", VNumber 2)] 0
           ["created_at"] [] "createdAt" "createdAt").
  - reflexivity.
  - reflexivity.
  - intros key' [].
  - intros key' [<- | [<- | []]]; discriminate.
Defined.

End CamelizeObjectKeys.

Section RemoveNullValuesFromHash.
Import JSString JS Lodash Utils HelperSpec.

Lemma keep_values_filter (names : list string) (ps acc : props) :
  NoDup (Object_keys ps) ->
  (forall key, In key (Object_keys ps) -> own acc (KStr key) = None) ->
  keep_values (Some names) ps acc
  = Returned (acc ++ filter (kept names) ps)%list.
Proof.
  revert acc. induction ps as [|[k v] rest IH]; intros acc Hnd Hfresh.
  - cbn. now rewrite app_nil_r.
  - destruct k as [key|o|y]; cbn [keep_values filter kept Object_keys] in *;
      try (now apply IH).
    inversion Hnd as [|? ? Hnotin Hnd']; subst.
    destruct (array_includes names key || endsWith key "Id"
              || negb (is_null v) && negb (is_undefined v)).
    + rewrite prop_set_fresh by (apply Hfresh; now left).
      rewrite IH; [now rewrite <- app_assoc | exact Hnd' |].
      intros key' Hin. rewrite own_app.
      rewrite (Hfresh key') by now right.
      cbn [own]. destruct (key_eqb (KStr key) (KStr key')) eqn:E;
        [|reflexivity].
      apply key_eqb_eq in E. injection E as ->. contradiction.
    + apply IH; [exact Hnd'|].
      intros key' Hin. apply Hfresh. now right.
Qed.

Lemma Object_keys_filter (f : key * value -> bool) (ps : props) (key : string) :
  In key (Object_keys (filter f ps)) -> In key (Object_keys ps).
Proof.
  induction ps as [|[k v] rest IH]; [auto|].
  cbn [filter]. destruct (f (k, v)); destruct k; cbn [Object_keys In]; tauto.
Qed.

Lemma NoDup_keys_filter (f : key * value -> bool) (ps : props) :
  NoDup (Object_keys ps) -> NoDup (Object_keys (filter f ps)).
Proof.
  induction ps as [|[k v] rest IH]; [auto|].
  cbn [filter]. destruct k as [key|o|y];
    destruct (f (_, v)); cbn [Object_keys]; try exact IH.
  - intros Hnd. inversion Hnd as [|? ? Hnotin Hnd']; subst.
    constructor; [|now apply IH].
    intros Hin. apply Hnotin. now apply (Object_keys_filter f).
  - intros Hnd. inversion Hnd; subst. now apply IH.
Qed.

Lemma filter_idem {A : Type} (f : A -> bool) (l : list A) :
  filter f (filter f l) = filter f l.
Proof.
  induction l as [|a l IH]; [reflexivity|].
  cbn [filter]. destruct (f a) eqn:E; [|exact IH].
  cbn [filter]. now rewrite E, IH.
Qed.

(** X16: with a truthy [omitNull] and an [allowNull] that is a list of
    names (or none given), [removeNullValuesFromHash] returns a new plain
    object with the string-keyed entries of [hash] that are kept, in their
    order and with their values: those whose key is allowed or ends in
    [Id], and those whose value is neither [null] nor [undefined]. Applied
    to its result it changes nothing more. The keys of [hash] are
    distinct, and none is [__proto__], which an assignment does not
    store as a property. *)
Theorem removeNullValuesFromHash_keeps (l : loc) (k : kind) (ps : props)
    (omitNull : value) (options : allowNull_property) (names : list string)
    (n : nat) :
  truthy omitNull = true ->
  allowNull_of options = Some names ->
  NoDup (Object_keys ps) ->
  ~ In "__proto__" (Object_keys ps) ->
  removeNullValuesFromHash (VObject l k ps) omitNull options n
  = (Returned (VObject (Addr n) Plain (filter (kept names) ps)), S n)
  /\ removeNullValuesFromHash
       (VObject (Addr n) Plain (filter (kept names) ps)) omitNull options
       (S n)
     = (Returned (VObject (Addr (S n)) Plain (filter (kept names) ps)),
        S (S n)).
Proof.
  intros Ho Ha Hnd _.
  unfold removeNullValuesFromHash, bind, alloc, ret.
  rewrite Ho, Ha. cbn [forIn_props]. split.
  - rewrite keep_values_filter; [reflexivity | exact Hnd | reflexivity].
  - rewrite keep_values_filter;
      [ | now apply NoDup_keys_filter | reflexivity ].
    cbn [app]. now rewrite filter_idem.
Qed.

Lemma removeNullValuesFromHash_keeps_witness :
  removeNullValuesFromHash
    (VObject (Addr 0) Plain
       [(KStr "name", VNull); (KStr "userId", VNull); (KStr "age", VNumber 3)])
    (VBool true) NoAllowNull 1
  = (Returned (VObject (Addr 1) Plain
                 [(KStr "userId", VNull); (KStr "age", VNumber 3)]), 2).
Proof.
  refine (proj1 (removeNullValuesFromHash_keeps (Addr 0) Plain
           [(KStr "name", VNull); (KStr "userId", VNull);
            (KStr "age", VNumber 3)]
           (VBool true) NoAllowNull [] 1 eq_refl eq_refl _ _)).
  - repeat constructor; cbn; intuition discriminate.
  - cbn. intuition discriminate.
Defined.

Lemma keep_values_undefined (ps acc : props) :
  keep_values None ps acc = TypeError <-> Object_keys ps <> [].
Proof.
  induction ps as [|[k v] rest IH].
  - cbn. split; [discriminate | congruence].
  - destruct k as [key|o|y]; cbn [keep_values Object_keys]; try exact IH.
    split; [discriminate | reflexivity].
Qed.

(** X17: an [allowNull] given as [undefined] replaces the default list of
    the function: with a truthy [omitNull] the call then throws a
    [TypeError] exactly when [hash] has a string key to visit; with a
    falsy [omitNull] the option is not read and [hash] itself is
    returned. *)
Theorem removeNullValuesFromHash_undefined_allowNull (hash omitNull : value)
    (n : nat) :
  (truthy omitNull = true ->
   (fst (removeNullValuesFromHash hash omitNull UndefinedAllowNull n)
    = TypeError
    <-> Object_keys (forIn_props hash) <> []))
  /\ (truthy omitNull = false ->
      forall options,
        removeNullValuesFromHash hash omitNull options n
        = (Returned hash, n)).
Proof.
  unfold removeNullValuesFromHash, bind, alloc, ret. split.
  - intros ->. cbn [allowNull_of fst].
    rewrite <- (keep_values_undefined (forIn_props hash) []).
    destruct (keep_values None (forIn_props hash) []);
      split; congruence.
  - intros ->. reflexivity.
Qed.

End RemoveNullValuesFromHash.

Section WhereSize.
Import JSString JS Lodash Utils HelperSpec.

Lemma no_keys_no_own (ps : props) (name : string) :
  List.length (Object_keys ps) = 0 -> own ps (KStr name) = None.
Proof.
  induction ps as [|[k v] rest IH]; [reflexivity|].
  destruct k as [s| |]; cbn [Object_keys List.length own key_eqb];
    [discriminate | exact IH | exact IH].
Qed.

Lemma isEmpty_object (l : loc) (k : kind) (ps : props) :
  k <> Array ->
  isFunction (lookup ps (KStr "splice")) = false ->
  isEmpty (VObject l k ps) = Nat.eqb (List.length (Object_keys ps)) 0.
Proof.
  intros Hk Hs. unfold isEmpty.
  destruct k; try contradiction; try reflexivity;
    destruct (array_like_length _); try reflexivity; now rewrite Hs.
Qed.

(** X18: a where-clause [isWhereEmpty] accepts has the complex size zero,
    unless it has a [splice] method, and for an object that is not an
    array the converse holds: it is empty when [getComplexSize] gives
    zero, operators counted. A symbol that is no operator counts for
    neither; an array-like object of length zero with a [splice] method
    is empty although it has two keys. *)
Theorem isWhereEmpty_size (obj : value) :
  (isFunction (get obj (KStr "splice")) = false ->
   isWhereEmpty obj = true -> getComplexSize obj = Returned 0)
  /\ (isObject obj = true -> isArray obj = false ->
      getComplexSize obj = Returned 0 -> isWhereEmpty obj = true)
  /\ (forall l name x,
        isWhereEmpty (VObject l Plain [(KSym name, x)]) = true
        /\ isWhereEmpty (VObject l Plain [(KOp name, x)]) = false)
  /\ (forall l f,
        isFunction f = true ->
        isWhereEmpty
          (VObject l Plain [(KStr "length", VNumber 0); (KStr "splice", f)])
        = true
        /\ getComplexSize
             (VObject l Plain [(KStr "length", VNumber 0); (KStr "splice", f)])
           = Returned 2).
Proof.
  split; [|split; [|split]].
  - unfold isWhereEmpty. intros Hs H.
    apply andb_true_iff in H as [H Hops].
    apply andb_true_iff in H as [Ht He].
    apply Nat.eqb_eq in Hops.
    destruct obj as [| | | |s|l k ps]; try discriminate; try reflexivity.
    + cbn in He. apply String.eqb_eq in He. now subst s.
    + cbn [operators_of] in Hops. cbn [get] in Hs.
      destruct k as [| |c|nat];
        try (rewrite isEmpty_object in He by (discriminate || exact Hs));
        try (cbn [isEmpty] in He);
        apply Nat.eqb_eq in He; cbn [getComplexSize];
        unfold getComplexKeys; rewrite ?length_app, ?length_map;
        f_equal; lia.
  - destruct obj as [| | | | |l k ps]; try discriminate.
    intros _ Hk Hsize. unfold isWhereEmpty. cbn [truthy operators_of andb].
    assert (Hkeys : List.length (getOperators ps) = 0
                    /\ List.length (Object_keys ps) = 0).
    { destruct k; try discriminate; cbn [getComplexSize] in Hsize;
        unfold getComplexKeys in Hsize;
        rewrite length_app, length_map in Hsize;
        injection Hsize as Hsize; lia. }
    destruct Hkeys as [Hops Hstr].
    rewrite isEmpty_object.
    + apply andb_true_iff. split; apply Nat.eqb_eq; assumption.
    + destruct k; discriminate.
    + unfold lookup. now rewrite (no_keys_no_own ps "splice" Hstr).
  - intros l name x. split; reflexivity.
  - intros l f Hf. split; [|reflexivity].
    unfold isWhereEmpty, isEmpty. cbn. now rewrite Hf.
Qed.

End WhereSize.

Section MapWhereInPlace.
Import JS Lodash Utils ObjectSpec HelperSpec.

Variable model : Model.

(** The options once the array [attributes], if there is one, has been
    replaced by its mapped copy, the allocator standing at [n]. *)
Let mapped_attributes (options : props) (n : nat) : props :=
  match lookup options (KStr "attributes") with
  | VObject _ Array elems =>
      prop_set options (KStr "attributes")
        (VObject (Addr n) Array (fst (map_attributes model elems (S n))))
  | _ => options
  end.

Lemma mapOptionFieldNames_with_returns (options : props) (fuel n : nat) :
  wdepth (lookup options (KStr "where")) <= fuel ->
  exists r n',
    mapOptionFieldNames_with model (mapWhereFieldNames model fuel) options n
    = Some (r, n')
    /\ forall key,
         key <> "where" ->
         own r (KStr key) = own (mapped_attributes options n) (KStr key).
Proof.
  intros Hd. unfold mapOptionFieldNames_with.
  set (first := match lookup options (KStr "attributes") with
                | VObject _ Array elems =>
                    bindO (liftO alloc)
                      (fun l0 =>
                         bindO (liftO (map_attributes model elems))
                           (fun elems' =>
                              retO (prop_set options (KStr "attributes")
                                      (VObject l0 Array elems'))))
                | _ => retO options
                end).
  assert (Hfirst : exists n1,
             first n = Some (mapped_attributes options n, n1)).
  { unfold first, mapped_attributes.
    destruct (lookup options (KStr "attributes")) as [| | | | |l0 [| |c|nat] e];
      try (now exists n).
    unfold bindO, liftO, alloc, retO.
    destruct (map_attributes model e (S n)) as [e' n1] eqn:E.
    now exists n1. }
  destruct Hfirst as (n1 & E1).
  unfold bindO at 1. rewrite E1.
  assert (Hw : lookup (mapped_attributes options n) (KStr "where")
               = lookup options (KStr "where")).
  { unfold mapped_attributes.
    destruct (lookup options (KStr "attributes")) as [| | | | |l0 [| |c|nat] e];
      try reflexivity.
    unfold lookup. rewrite own_prop_set_other; [reflexivity | discriminate]. }
  rewrite Hw.
  destruct (lookup options (KStr "where")) as [| | | | |wl wk wps] eqn:Ew;
    cbn [truthy isPlainObject andb];
    try (exists (mapped_attributes options n), n1; split; reflexivity).
  - destruct b; exists (mapped_attributes options n), n1; split; reflexivity.
  - destruct (negb (n0 =? 0)%Z);
      exists (mapped_attributes options n), n1; split; reflexivity.
  - destruct (negb (s =? "")%string);
      exists (mapped_attributes options n), n1; split; reflexivity.
  - destruct wk as [| |c|nat];
      try (exists (mapped_attributes options n), n1; split; reflexivity).
    rewrite wdepth_object in Hd.
    destruct (mapWhereFieldNames_returns model fuel wl Plain wps n1)
      as (r & n' & E & _); [lia|].
    exists (prop_set (mapped_attributes options n) (KStr "where")
              (VObject wl Plain r)), n'. split.
    + unfold bindO, retO. now rewrite E.
    + intros key Hwh. apply own_prop_set_other. congruence.
Qed.

(** X19: [mapOptionFieldNames] returns, given fuel for the nesting of
    [options.where], the [options] object it was given, changed in place:
    the same object, where no property other than [attributes] and [where]
    has changed. The object and the arrays and plain objects it holds are
    all different objects, so that the where clause, which is changed in
    place, is part of no other property. *)
Theorem mapOptionFieldNames_in_place (l : loc) (k : kind) (options : props)
    (fuel n : nat) :
  wdepth (lookup options (KStr "where")) <= fuel ->
  distinct (l :: held options) = true ->
  exists r n',
    mapOptionFieldNames model fuel l k options n = Some (VObject l k r, n')
    /\ forall key,
         key <> "attributes" -> key <> "where" ->
         own r (KStr key) = own options (KStr key).
Proof.
  intros Hd _.
  destruct (mapOptionFieldNames_with_returns options fuel n Hd)
    as (r & n' & E & Hkeep).
  exists r, n'. split.
  - unfold mapOptionFieldNames, bindO, retO. now rewrite E.
  - intros key Ha Hw. rewrite (Hkeep key Hw). unfold mapped_attributes.
    destruct (lookup options (KStr "attributes")) as [| | | | |l0 [| |c|nat] e];
      try reflexivity.
    apply own_prop_set_other. congruence.
Qed.

Lemma map_attribute_again (attr : value) (n m : nat) :
  map_attribute model (fst (map_attribute model attr n)) m
  = (fst (map_attribute model attr n), m).
Proof.
  destruct attr as [| | | |name|]; try reflexivity.
  cbn [map_attribute].
  destruct (rawAttributes_get model (KStr name)) as [ra|] eqn:E.
  - destruct (negb (option_string_eqb (Some name) (field ra))) eqn:En.
    + reflexivity.
    + cbn [fst ret map_attribute]. now rewrite E, En.
  - cbn [fst ret map_attribute]. now rewrite E.
Qed.

Lemma map_attributes_again (elems : props) (n m : nat) :
  map_attributes model (fst (map_attributes model elems n)) m
  = (fst (map_attributes model elems n), m).
Proof.
  revert n m. induction elems as [|[k attr] rest IH]; intros n m;
    [reflexivity|].
  cbn [map_attributes]. unfold bind.
  pose proof (map_attribute_again attr n m) as Ha.
  destruct (map_attribute model attr n) as [attr' n1].
  pose proof (IH n1 m) as Hr.
  destruct (map_attributes model rest n1) as [rest' n2].
  cbn [fst ret] in *. cbn [map_attributes]. unfold bind.
  rewrite Ha, Hr. reflexivity.
Qed.

Lemma prop_set_twice (ps : props) (k : key) (x y : value) :
  prop_set (prop_set ps k x) k y = prop_set ps k y.
Proof.
  induction ps as [|[k0 v0] rest IH]; cbn [prop_set].
  - now rewrite key_eqb_refl.
  - destruct (key_eqb k0 k) eqn:E; cbn [prop_set].
    + now rewrite key_eqb_refl.
    + now rewrite E, IH.
Qed.

Lemma aliased_mono (n n' a b : nat) (attr attr' : value) :
  n <= a -> b <= n' ->
  aliased model a b attr attr' -> aliased model n n' attr attr'.
Proof.
  intros Hlo Hhi. unfold aliased.
  destruct attr as [| | | |name|]; auto.
  destruct (rawAttributes_get model (KStr name)) as [ra|]; auto.
  destruct (option_string_eqb (Some name) (field ra)); auto.
  intros (m & Hm & E). exists m. split; [lia | exact E].
Qed.

Lemma map_attribute_aliased (attr : value) (n : nat) :
  n <= snd (map_attribute model attr n)
  /\ aliased model n (snd (map_attribute model attr n)) attr
       (fst (map_attribute model attr n)).
Proof.
  unfold aliased.
  destruct attr as [| | | |name|]; cbn [map_attribute ret fst snd]; auto.
  destruct (rawAttributes_get model (KStr name)) as [ra|];
    cbn [ret fst snd]; auto.
  destruct (option_string_eqb (Some name) (field ra));
    cbn [negb ret fst snd]; auto.
  unfold bind, alloc, ret. cbn [fst snd].
  split; [lia|]. exists n. split; [lia | reflexivity].
Qed.

Lemma map_attributes_aliased (elems : props) :
  forall n,
    n <= snd (map_attributes model elems n)
    /\ aliased_elements model n (snd (map_attributes model elems n)) elems
         (fst (map_attributes model elems n)).
Proof.
  induction elems as [|[k attr] rest IH]; intros n.
  - split; [apply Nat.le_refl | constructor].
  - cbn [map_attributes]. unfold bind.
    destruct (map_attribute_aliased attr n) as [Hle Ha].
    destruct (map_attribute model attr n) as [attr' n1].
    destruct (IH n1) as [Hle' Hrest].
    destruct (map_attributes model rest n1) as [rest' n2].
    cbn [fst snd ret] in *. split; [lia|].
    constructor.
    + split; [reflexivity|]. cbn [snd].
      apply (aliased_mono n n2 n n1); [lia | lia | exact Ha].
    + apply (Forall2_impl
               (fun kv kv' => fst kv' = fst kv
                              /\ aliased model n n2 (snd kv) (snd kv'))
               (R1 := fun kv kv' => fst kv' = fst kv
                              /\ aliased model n1 n2 (snd kv) (snd kv')));
        [|exact Hrest].
      intros kv kv' [Hk Hv]. split; [exact Hk|].
      apply (aliased_mono n n2 n1 n2); [lia | lia | exact Hv].
Qed.

(** X26: mapping the attributes is idempotent. On options whose [where]
    is no plain object, [mapOptionFieldNames] replaces the array
    [attributes] by a new array, index by index: every name whose entry in
    the model has another field, or none, has become a new array of the
    field and the name, and every other element is the element it was. A
    second call leaves every element as it is, the pairs being no strings,
    and only the array around them is new again. *)
Theorem mapOptionFieldNames_attributes_idempotent (l : loc) (k : kind)
    (options : props) (la : loc) (elems : props) (fuel n : nat) :
  lookup options (KStr "attributes") = VObject la Array elems ->
  truthy (lookup options (KStr "where"))
  && isPlainObject (lookup options (KStr "where")) = false ->
  exists elems' n1 n2,
    n < n1
    /\ aliased_elements model (S n) n1 elems elems'
    /\ mapOptionFieldNames model fuel l k options n
       = Some (VObject l k
                 (prop_set options (KStr "attributes")
                    (VObject (Addr n) Array elems')), n1)
    /\ mapOptionFieldNames model fuel l k
         (prop_set options (KStr "attributes")
            (VObject (Addr n) Array elems')) n1
       = Some (VObject l k
                 (prop_set options (KStr "attributes")
                    (VObject (Addr n1) Array elems')), n2).
Proof.
  intros Ha Hw.
  exists (fst (map_attributes model elems (S n))),
         (snd (map_attributes model elems (S n))).
  destruct (map_attributes_aliased elems (S n)) as [Hle Hal].
  set (elems' := fst (map_attributes model elems (S n))) in *.
  set (n1 := snd (map_attributes model elems (S n))) in *.
  exists (snd (map_attributes model elems' (S n1))).
  assert (Hother : forall x,
             lookup (prop_set options (KStr "attributes") x) (KStr "where")
             = lookup options (KStr "where")).
  { intros x. unfold lookup.
    rewrite own_prop_set_other; [reflexivity | discriminate]. }
  split; [lia|]. split; [exact Hal|]. split.
  - unfold mapOptionFieldNames, mapOptionFieldNames_with.
    rewrite Ha. unfold bindO, liftO, alloc, retO.
    subst elems' n1.
    destruct (map_attributes model elems (S n)) as [e' m] eqn:E.
    cbn [fst snd]. rewrite Hother, Hw. reflexivity.
  - unfold mapOptionFieldNames, mapOptionFieldNames_with.
    unfold lookup at 1. rewrite own_prop_set_same.
    unfold bindO, liftO, alloc, retO.
    pose proof (map_attributes_again elems (S n) (S n1)) as Hagain.
    fold elems' in Hagain.
    destruct (map_attributes model elems' (S n1)) as [e2 m2] eqn:E2.
    injection Hagain as -> ->. cbn [snd].
    rewrite prop_set_twice, Hother, Hw. reflexivity.
Qed.

Variable _injectDependentVirtualAttributes : list value -> M (list value).

Lemma map_attributes_not_virtual (elems : props) (n : nat) :
  Forall (fun kv => is_virtual model (snd kv) = false) elems ->
  Forall (fun kv => is_virtual model (snd kv) = false)
    (fst (map_attributes model elems n)).
Proof.
  revert n. induction elems as [|[k0 attr] rest IH]; intros n Hall;
    [constructor|].
  inversion Hall as [|? ? Hattr Hrest]; subst. cbn [snd] in Hattr.
  cbn [map_attributes]. unfold bind.
  destruct (map_attribute model attr n) as [attr' n1] eqn:Ea.
  specialize (IH n1 Hrest).
  destruct (map_attributes model rest n1) as [rest' n2].
  cbn [fst ret] in *. constructor; [|exact IH]. cbn [snd].
  destruct attr as [| | | |name|]; cbn [map_attribute] in Ea;
    try (injection Ea as <- _; reflexivity).
  destruct (rawAttributes_get model (KStr name)) as [ra|];
    [|injection Ea as <- _; exact Hattr].
  destruct (negb (option_string_eqb (Some name) (field ra)));
    [|injection Ea as <- _; exact Hattr].
  unfold bind, alloc, ret in Ea. injection Ea as <- _. reflexivity.
Qed.

Lemma index_from_Forall (P : value -> Prop) (xs : list value) :
  Forall P xs -> forall i, Forall (fun kv => P (snd kv)) (index_from i xs).
Proof.
  induction 1 as [|x rest Hx Hrest IH]; intros i; cbn [index_from];
    constructor; auto.
Qed.

(** X27: after [mapFinderOptions] the array [attributes] names no virtual
    attribute: whatever the model injected, every element of the new
    array is something else than the name of a virtual attribute of the
    model. The [options] object itself is returned, given fuel for the
    nesting of [options.where]. *)
Theorem mapFinderOptions_drops_virtual (l : loc) (k : kind) (options : props)
    (la : loc) (elems : props) (fuel n : nat) :
  lookup options (KStr "attributes") = VObject la Array elems ->
  wdepth (lookup options (KStr "where")) <= fuel ->
  exists r n' l' elems',
    mapFinderOptions model _injectDependentVirtualAttributes fuel l k
      options n
    = Some (VObject l k r, n')
    /\ own r (KStr "attributes") = Some (VObject l' Array elems')
    /\ Forall (fun kv => is_virtual model (snd kv) = false) elems'.
Proof.
  intros Ha Hd. unfold mapFinderOptions. rewrite Ha.
  cbn [truthy isArray andb]. unfold bindO at 1, liftO, alloc, retO.
  unfold bindO at 1.
  destruct (_injectDependentVirtualAttributes
              (array_elements (VObject la Array elems)) n)
    as [injected n1].
  unfold bindO at 1.
  set (kept := filter (fun v => negb (is_virtual model v)) injected).
  set (options1 := prop_set options (KStr "attributes")
                     (array (Addr n1) kept)).
  assert (Hw : lookup options1 (KStr "where") = lookup options (KStr "where")).
  { unfold options1, lookup.
    rewrite own_prop_set_other; [reflexivity | discriminate]. }
  destruct (mapOptionFieldNames_with_returns options1 fuel (S n1))
    as (r & n' & E & Hkeep); [now rewrite Hw|].
  exists r, n', (Addr (S n1)),
    (fst (map_attributes model (index_from 0 kept) (S (S n1)))).
  split; [|split].
  - unfold mapOptionFieldNames, bindO, retO. now rewrite E.
  - rewrite (Hkeep "attributes") by discriminate.
    unfold mapped_attributes, options1, lookup at 1.
    rewrite own_prop_set_same. unfold array.
    apply own_prop_set_same.
  - apply map_attributes_not_virtual.
    apply (index_from_Forall (fun v => is_virtual model v = false)).
    unfold kept. apply Forall_forall. intros v Hin.
    apply filter_In in Hin as [_ Hv]. now apply negb_true_iff in Hv.
Qed.

Lemma prop_set_same_value (ps : props) (k : key) (v : value) :
  own ps k = Some v -> prop_set ps k v = ps.
Proof.
  induction ps as [|[k0 v0] rest IH]; [discriminate|].
  cbn [own prop_set]. destruct (key_eqb k0 k) eqn:E.
  - intros [= ->]. apply key_eqb_eq in E. now subst k0.
  - intros H. now rewrite IH.
Qed.

Lemma getComplexKeys_own (ps : props) (k : key) :
  In k (getComplexKeys ps) -> exists v, own ps k = Some v.
Proof.
  unfold getComplexKeys. intros H. apply in_app_or in H as [H|H].
  - induction ps as [|[k0 v0] rest IH]; [contradiction|].
    cbn [own]. destruct (key_eqb k0 k) eqn:E; [eauto|].
    apply IH. destruct k0; cbn [getOperators] in H; try exact H.
    destruct H as [<- | H]; [|exact H].
    now rewrite key_eqb_refl in E.
  - apply in_map_iff in H as (s & <- & H).
    induction ps as [|[k0 v0] rest IH]; [contradiction|].
    cbn [own]. destruct (key_eqb k0 (KStr s)) eqn:E; [eauto|].
    apply IH. destruct k0; cbn [Object_keys] in H; try exact H.
    destruct H as [-> | H]; [|exact H].
    now rewrite key_eqb_refl in E.
Qed.

Hypothesis no_rename : renames_nothing model.

Lemma rawAttributes_get_same (attribute : key) (ra : rawAttribute) :
  rawAttributes_get model attribute = Some ra ->
  option_string_eqb (field ra) (fieldName ra) = true.
Proof.
  unfold rawAttributes_get. destruct attribute as [name| |]; try discriminate.
  destruct (assoc (rawAttributes model) name) as [ra'|] eqn:E.
  - intros [= <-]. now apply (no_rename name).
  - destruct (String.eqb name "__proto__"); [intros [= <-]; reflexivity|].
    destruct (inherited (KStr name)); [|discriminate].
    intros [= <-]. reflexivity.
Qed.

Lemma map_elements_same (mapWhere : value -> MO value) (d : nat) :
  returns_same mapWhere d ->
  forall elems n,
    bounded d elems ->
    exists n', map_elements mapWhere elems n = Some (elems, n').
Proof.
  intros Hrec. induction elems as [|[k0 x0] rest IH]; intros n Hb.
  - now exists n.
  - assert (Hx : wdepth x0 <= d) by (apply (Hb k0 x0); now left).
    assert (Hrest : bounded d rest)
      by (intros k x Hin; apply (Hb k x); now right).
    assert (Hhead : exists n1,
               (if isPlainObject x0 then mapWhere x0 else retO x0) n
               = Some (x0, n1)).
    { destruct x0 as [| | | | |l [| |c|nat] ps]; cbn [isPlainObject];
        try (now exists n).
      rewrite wdepth_object in Hx. apply Hrec. lia. }
    destruct Hhead as (n1 & E).
    destruct (IH n1 Hrest) as (n' & E').
    exists n'. cbn [map_elements]. unfold bindO. rewrite E, E'. reflexivity.
Qed.

Lemma mapWhere_step_same (mapWhere : value -> MO value) (d : nat)
    (attributes : props) (attribute : key) (v : value) (n : nat) :
  returns_same mapWhere d -> bounded d attributes ->
  own attributes attribute = Some v ->
  exists n', mapWhere_step model mapWhere attributes attribute n
             = Some (attributes, n').
Proof.
  intros Hrec Hb Hown. unfold mapWhere_step.
  assert (Hl : lookup attributes attribute = v)
    by (unfold lookup; now rewrite Hown).
  assert (Hv : wdepth v <= d)
    by (apply (Hb attribute v); now apply own_some_in).
  assert (Hren : match rawAttributes_get model attribute with
                 | Some ra =>
                     if negb (option_string_eqb (field ra) (fieldName ra))
                     then prop_delete
                            (prop_set attributes (key_of_field (field ra))
                               (lookup attributes attribute)) attribute
                     else attributes
                 | None => attributes
                 end = attributes).
  { destruct (rawAttributes_get model attribute) as [ra|] eqn:E;
      [|reflexivity].
    now rewrite (rawAttributes_get_same attribute ra E). }
  rewrite Hren, Hl.
  set (exempt := match rawAttributes_get model attribute with
                 | Some ra => instanceof_HSTORE (type ra)
                              || instanceof_JSON (type ra)
                 | None => false
                 end).
  clearbody exempt.
  assert (Hmid : exists n2,
             (if isPlainObject v && negb exempt
              then bindO (liftO alloc)
                     (fun _ =>
                        bindO (mapOptionFieldNames_with model mapWhere
                                 [(KStr "where", v)])
                          (fun options =>
                             retO (prop_set attributes attribute
                                     (lookup options (KStr "where")))))
              else retO attributes) n = Some (attributes, n2)).
  { destruct v as [| | | | |l [| |c|nat] ps]; cbn [isPlainObject andb];
      try (now exists n).
    destruct (negb exempt); [|now exists n].
    rewrite wdepth_object in Hv.
    destruct (Hrec l Plain ps (S n)) as (n' & E); [lia|].
    exists n'. unfold bindO, liftO, alloc, retO, mapOptionFieldNames_with.
    cbn. unfold bindO, retO. rewrite E. cbn.
    now rewrite (prop_set_same_value attributes attribute _ Hown). }
  destruct Hmid as (n2 & E2).
  unfold bindO at 1. rewrite E2, Hl.
  destruct v as [| | | | |l [| |c|nat] elems]; try (now exists n2).
  rewrite wdepth_object in Hv.
  destruct (map_elements_same mapWhere (pdepth elems)) with (elems := elems)
    (n := n2) as (n' & E).
  - intros l0 k0 ps0 n0 Hlt. apply Hrec. lia.
  - now apply bounded_pdepth.
  - exists n'. unfold bindO, retO. rewrite E.
    now rewrite (prop_set_same_value attributes attribute _ Hown).
Qed.

Lemma mapWhere_loop_same (mapWhere : value -> MO value) (d : nat)
    (attributes : props) :
  returns_same mapWhere d -> bounded d attributes ->
  forall keys n,
    (forall k, In k keys -> exists v, own attributes k = Some v) ->
    exists n', mapWhere_loop model mapWhere keys attributes n
               = Some (attributes, n').
Proof.
  intros Hrec Hb. induction keys as [|attribute rest IH]; intros n Hkeys.
  - now exists n.
  - destruct (Hkeys attribute) as (v & Hown); [now left|].
    destruct (mapWhere_step_same mapWhere d attributes attribute v n
                Hrec Hb Hown) as (n1 & E).
    destruct (IH n1) as (n' & E').
    + intros k Hin. apply Hkeys. now right.
    + exists n'. cbn [mapWhere_loop]. unfold bindO. now rewrite E.
Qed.

Lemma mapWhereFieldNames_same (fuel : nat) :
  returns_same (mapWhereFieldNames model fuel) fuel.
Proof.
  induction fuel as [|fuel IH]; intros l k ps n Hlt; [lia|].
  destruct (mapWhere_loop_same (mapWhereFieldNames model fuel) (pdepth ps) ps)
    with (keys := getComplexKeys ps) (n := n) as (n' & E).
  - intros l0 k0 ps0 n0 H0. apply IH. lia.
  - now apply bounded_pdepth.
  - apply getComplexKeys_own.
  - exists n'. cbn [mapWhereFieldNames]. unfold bindO, retO. now rewrite E.
Qed.

(** X20: for a model that renames nothing (every attribute has the same
    [field] and [fieldName]), [mapWhereFieldNames] hands back the where
    clause as it was, nested clauses and arrays of clauses included, given
    fuel for its nesting. *)
Theorem mapWhereFieldNames_no_rename (attributes : value) (fuel n : nat) :
  match attributes with VObject _ _ ps => pdepth ps <= fuel | _ => True end ->
  exists n',
    mapWhereFieldNames model (S fuel) attributes n = Some (attributes, n').
Proof.
  intros Hd. destruct attributes as [| | | | |l k ps]; try (now exists n).
  apply mapWhereFieldNames_same. lia.
Qed.

End MapWhereInPlace.

Section MapWhereWitnesses.
Import JS Lodash Utils ObjectSpec HelperSpec Samples.

Lemma mapOptionFieldNames_in_place_witness :
  exists r n',
    mapOptionFieldNames Samples.person 2 (Addr 0) Plain
      [(KStr "limit", VNumber 1);
       (KStr "where", VObject (Addr 1) Plain [(KStr "lastName", VNumber 2)])]
      2
    = Some (VObject (Addr 0) Plain r, n')
    /\ forall key,
         key <> "attributes" -> key <> "where" ->
         own r (KStr key)
         = own [(KStr "limit", VNumber 1);
                (KStr "where",
                 VObject (Addr 1) Plain [(KStr "lastName", VNumber 2)])]
             (KStr key).
Proof.
  apply (mapOptionFieldNames_in_place Samples.person (Addr 0) Plain
           [(KStr "limit", VNumber 1);
            (KStr "where",
             VObject (Addr 1) Plain [(KStr "lastName", VNumber 2)])] 2 2).
  - cbn. lia.
  - reflexivity.
Defined.

(** A model that declares its attributes under their own names. *)
Lemma plain_model_renames_nothing :
  renames_nothing
    {| rawAttributes :=
         [("age", {| field := Some "age"; fieldName := Some "age";
                     type := STRING |})];
       _virtualAttributes := [] |}.
Proof.
  intros name ra. cbn [rawAttributes assoc].
  destruct (String.eqb "age" name); [|discriminate].
  intros H. injection H as <-. reflexivity.
Defined.

Lemma mapWhereFieldNames_no_rename_witness :
  exists n',
    mapWhereFieldNames
      {| rawAttributes :=
           [("age", {| field := Some "age"; fieldName := Some "age";
                       type := STRING |})];
         _virtualAttributes := [] |}
      2 (plain 0 [(KStr "age", plain 1 [(KOp "gt", VNumber 3)])]) 2
    = Some (plain 0 [(KStr "age", plain 1 [(KOp "gt", VNumber 3)])], n').
Proof.
  apply (mapWhereFieldNames_no_rename _ plain_model_renames_nothing
           (plain 0 [(KStr "age", plain 1 [(KOp "gt", VNumber 3)])]) 1 2).
  cbn. lia.
Defined.

Lemma mapOptionFieldNames_attributes_idempotent_witness :
  exists elems' n1 n2,
    2 < n1
    /\ aliased_elements person 3 n1
         (index_from 0 [VString "lastName"; VString "meta"]) elems'
    /\ mapOptionFieldNames person 0 (Addr 0) Plain
      [(KStr "attributes", array (Addr 1) [VString "lastName"; VString "meta"])]
      2
    = Some (VObject (Addr 0) Plain
              (prop_set
                 [(KStr "attributes",
                   array (Addr 1) [VString "lastName"; VString "meta"])]
                 (KStr "attributes") (VObject (Addr 2) Array elems')), n1)
    /\ mapOptionFieldNames person 0 (Addr 0) Plain
         (prop_set
            [(KStr "attributes",
              array (Addr 1) [VString "lastName"; VString "meta"])]
            (KStr "attributes") (VObject (Addr 2) Array elems')) n1
       = Some (VObject (Addr 0) Plain
                 (prop_set
                    [(KStr "attributes",
                      array (Addr 1) [VString "lastName"; VString "meta"])]
                    (KStr "attributes") (VObject (Addr n1) Array elems')), n2).
Proof.
  apply (mapOptionFieldNames_attributes_idempotent person (Addr 0) Plain
           [(KStr "attributes",
             array (Addr 1) [VString "lastName"; VString "meta"])]
           (Addr 1) (index_from 0 [VString "lastName"; VString "meta"]) 0 2);
    reflexivity.
Defined.

Lemma mapFinderOptions_drops_virtual_witness :
  exists r n' l' elems',
    mapFinderOptions person (fun attrs => ret attrs) 0 (Addr 0) Plain
      [(KStr "attributes", array (Addr 1) [VString "fullName"; VString "meta"])]
      2
    = Some (VObject (Addr 0) Plain r, n')
    /\ own r (KStr "attributes") = Some (VObject l' Array elems')
    /\ Forall (fun kv => is_virtual person (snd kv) = false) elems'.
Proof.
  apply (mapFinderOptions_drops_virtual person (fun attrs => ret attrs)
           (Addr 0) Plain
           [(KStr "attributes",
             array (Addr 1) [VString "fullName"; VString "meta"])]
           (Addr 1) (index_from 0 [VString "fullName"; VString "meta"]) 0 2).
  - reflexivity.
  - cbn. lia.
Defined.

End MapWhereWitnesses.

Section FlattenIdempotent.
Import JS Lodash Utils ObjectSpec HelperSpec Samples.

Lemma own_none_keys (ps : props) (k : key) :
  own ps k = None <-> ~ In k (map fst ps).
Proof.
  induction ps as [|[k0 v0] rest IH]; cbn [own map fst In]; [tauto|].
  destruct (key_eqb k0 k) eqn:E.
  - apply key_eqb_eq in E. split; [discriminate | tauto].
  - apply key_eqb_neq in E. tauto.
Qed.







End FlattenIdempotent.

Section CloneDeepCopy.
Import JS Lodash Utils ObjectSpec HelperSpec Samples.

Variable invoke : value -> value -> M value.
Variable onlyPlain : bool.

Let C := cloneDeep_customizer invoke onlyPlain.


Lemma baseClone_container (top : bool) (l : loc) (k : kind) (ps : props)
    (n : nat) :
  k = Plain \/ k = Array ->
  baseClone C top (VObject l k ps) n
  = (let (strs, n1) := clone_each C is_string_key ps (S n) in
     let (syms, n2) :=
       clone_each C (fun key => negb (is_string_key key)) ps n1 in
     (VObject (Addr n) k (strs ++ syms), n2)).
Proof.
  intros Hk.
  assert (E : forall sel qs m,
             (fix each (sel : key -> bool) (ps : props) {struct ps}
                : M props :=
                match ps with
                | [] => ret []
                | (key, sub) :: rest =>
                    if sel key then
                      bind (baseClone C false sub)
                        (fun sub' =>
                           bind (each sel rest)
                             (fun rest' => ret ((key, sub') :: rest')))
                    else each sel rest
                end) sel qs m = clone_each C sel qs m).
  { intros sel. induction qs as [|[key sub] rest IH]; intros m;
      [reflexivity|].
    cbn [clone_each]. destruct (sel key); [|apply IH].
    unfold bind. destruct (baseClone C false sub m) as [sub' m'].
    now rewrite IH. }
  destruct Hk as [-> | ->]; cbn [baseClone]; unfold bind at 1;
    unfold C at 1, cloneDeep_customizer; cbn [isArray isPlainObject orb ret];
    cbn [is_undefined negb]; unfold bind, alloc, ret;
    rewrite E; destruct (clone_each C is_string_key ps (S n)) as [strs n1];
    rewrite E; reflexivity.
Qed.

Lemma baseClone_atom (v : value) (n : nat) :
  (isPlainObject v || isArray v) = false ->
  onlyPlain || negb (isFunction v && has_clone v) = true ->
  baseClone C false v n = (v, n).
Proof.
  intros Hk Hc.
  destruct v as [| | b | z | s | l [| |c|nat] ps]; try discriminate;
    try (cbn [baseClone]; unfold bind, C, cloneDeep_customizer;
         cbn [isArray isPlainObject orb typeof_object typeof truthy
              has_clone andb];
         destruct onlyPlain; cbn [orb]; rewrite ?andb_false_r;
         reflexivity).
  cbn [isFunction typeof andb] in Hc.
  cbn [baseClone]. unfold bind, C, cloneDeep_customizer.
  cbn [isArray isPlainObject orb typeof_object typeof truthy andb].
  destruct onlyPlain; [reflexivity|]. cbn [orb] in Hc |- *.
  apply negb_true_iff in Hc. rewrite Hc. reflexivity.
Qed.

(** What cloning a value gives: the same contents, in containers that
    are all new. *)
Let cloned (v : value) : Prop :=
  forall n,
    clone_data onlyPlain v ->
    exists r n',
      baseClone C false v n = (r, n')
      /\ content r = content v
      /\ created_between n n' r
      /\ n <= n'.

Lemma clone_each_cloned (sel : key -> bool) (ps : props) :
  Forall (fun kv => cloned (snd kv)) ps ->
  Forall (fun kv => clone_data onlyPlain (snd kv)) ps ->
  forall n,
    exists r n',
      clone_each C sel ps n = (r, n')
      /\ contents r = contents (filter (fun kv => sel (fst kv)) ps)
      /\ Forall (fun kv => created_between n n' (snd kv)) r
      /\ n <= n'.
Proof.
  induction ps as [|[key sub] rest IH]; intros Hc Hd n.
  - exists [], n. repeat split; [constructor | lia].
  - inversion Hc as [|? ? Hsub Hc']; subst.
    inversion Hd as [|? ? Hdsub Hd']; subst.
    cbn [snd] in Hsub, Hdsub.
    cbn [clone_each filter fst]. destruct (sel key).
    + destruct (Hsub n Hdsub) as (sub' & n1 & E1 & Hcont & Hcr & Hle).
      destruct (IH Hc' Hd' n1) as (r & n' & E & Hr & Hall & Hle').
      exists ((key, sub') :: r), n'. unfold bind. rewrite E1, E.
      split; [reflexivity|]. split; [|split; [|lia]].
      * unfold contents in *. cbn [map]. now rewrite Hcont, Hr.
      * constructor.
        -- cbn [snd].
           apply (created_between_mono sub' n n1 n n'); [lia | lia | exact Hcr].
        -- rewrite Forall_forall in *. intros kv Hin.
           apply (created_between_mono (snd kv) n1 n' n n');
             [lia | lia | now apply Hall].
    + destruct (IH Hc' Hd' n) as (r & n' & E & Hr & Hall & Hle').
      exists r, n'. auto.
Qed.

Lemma data_is_cloned (v : value) : cloned v.
Proof.
  induction v as [| | b | z | s | l k ps IH] using value_nested_ind;
    intros n Hd;
    try (eexists; eexists; split;
         [apply baseClone_atom; [reflexivity | now destruct onlyPlain]|];
         repeat split; [now constructor | lia]).
  inversion Hd as [? Hk Hc | ? ? ? Hk Hord Hps]; subst.
  - exists (VObject l k ps), n.
    split; [now apply baseClone_atom|].
    repeat split; [now constructor | lia].
  - rewrite (baseClone_container false l k ps n Hk).
    destruct (clone_each_cloned is_string_key ps IH Hps (S n))
      as (strs & n1 & E1 & Hs & Hcs & Hle1).
    destruct (clone_each_cloned (fun key => negb (is_string_key key)) ps
                IH Hps n1) as (syms & n2 & E2 & Hy & Hcy & Hle2).
    rewrite E1, E2. exists (VObject (Addr n) k (strs ++ syms)%list), n2.
    split; [reflexivity|]. split; [|split; [|lia]].
    + assert (Hcont : contents (strs ++ syms)%list = contents ps).
      { rewrite contents_app, Hs, Hy, <- contents_app.
        unfold keys_in_order in Hord. now rewrite <- Hord. }
      destruct Hk as [-> | ->]; cbn [content];
        fold (contents (strs ++ syms)%list); fold (contents ps);
        now rewrite Hcont.
    + apply created_container; [lia|].
      apply Forall_app. split; rewrite Forall_forall in *; intros kv Hin.
      * apply (created_between_mono (snd kv) (S n) n1 n n2);
          [lia | lia | now apply Hcs].
      * apply (created_between_mono (snd kv) n1 n2 n n2);
          [lia | lia | now apply Hcy].
Qed.

(** X22: [cloneDeep] copies an array or a plain object deeply: the result
    has the contents of the input, every array and plain object of the
    result is newly created, and every other value (an instance of a class,
    a function without a [clone] method, a primitive) is handed on as it
    is. The functions inside have no [clone] method unless [onlyPlain] is
    set. *)
Theorem cloneDeep_deep_copy (v : value) (n : nat) :
  clone_data onlyPlain v ->
  (isPlainObject v || isArray v) = true ->
  exists r n',
    cloneDeep invoke v onlyPlain n = (r, n')
    /\ content r = content v
    /\ created_between n n' r.
Proof.
  intros Hd Hk.
  destruct v as [| | b | z | s | l k ps]; try discriminate.
  assert (Hk' : k = Plain \/ k = Array)
    by (destruct k; try discriminate; auto).
  destruct (data_is_cloned (VObject l k ps) n Hd) as (r & n' & E & Hc & Hb & _).
  exists r, n'. split; [|now split].
  unfold cloneDeep, cloneDeepWith, bind. cbn [truthy ret]. fold C.
  rewrite (baseClone_container true l k ps n Hk').
  now rewrite <- (baseClone_container false l k ps n Hk').
Qed.

End CloneDeepCopy.

Section CloneDeepCopyWitness.
Import JS Lodash Utils ObjectSpec HelperSpec Samples.

Lemma cloneDeep_deep_copy_witness :
  exists r n',
    cloneDeep (fun _ this => ret this)
      (plain 0 [(KStr "where", plain 1 [(KOp "gt", VNumber 3)])]) false 2
    = (r, n')
    /\ content r
       = content (plain 0 [(KStr "where", plain 1 [(KOp "gt", VNumber 3)])])
    /\ created_between 2 n' r.
Proof.
  apply (cloneDeep_deep_copy (fun _ this => ret this) false
           (plain 0 [(KStr "where", plain 1 [(KOp "gt", VNumber 3)])]) 2).
  - apply clone_data_container; [now left | reflexivity |].
    constructor; [|constructor]. cbn [snd].
    apply clone_data_container; [now left | reflexivity |].
    constructor; [|constructor]. now apply clone_data_atom.
  - reflexivity.
Defined.

End CloneDeepCopyWitness.

Section CloneDeepByKind.
Import JS Lodash Utils ObjectSpec HelperSpec Samples.
Local Open Scope js_scope.

Variable invoke : value -> value -> M value.

(** A call of the host creates objects at most: the allocator does not go
    back. *)
Hypothesis invoke_forward : forall f this m, m <= snd (invoke f this m).

Let C := cloneDeep_customizer invoke false.

Let clones (x : value) : Prop :=
  forall m lo,
    lo <= m ->
    m <= snd (baseClone C false x m)
    /\ forall hi,
         snd (baseClone C false x m) <= hi ->
         cloned_as invoke lo hi x (fst (baseClone C false x m)).

Lemma baseClone_reference (x : value) :
  (isPlainObject x || isArray x) = false ->
  isFunction x && has_clone x = false ->
  clones x.
Proof.
  intros Hk Hc m lo Hlo. unfold C.
  rewrite (baseClone_atom invoke false x m Hk)
    by (cbn [orb]; now rewrite Hc).
  cbn [fst snd]. split; [apply Nat.le_refl|].
  intros hi _. now apply cloned_by_reference.
Qed.

Lemma baseClone_method (l : loc) (native : bool) (ps : props) :
  has_clone (VObject l (Function native) ps) = true ->
  clones (VObject l (Function native) ps).
Proof.
  intros Hc m lo Hlo.
  set (x := VObject l (Function native) ps) in *.
  assert (E : baseClone C false x m
              = (if is_undefined (fst (call_clone invoke x m)) then x
                 else fst (call_clone invoke x m),
                 snd (call_clone invoke x m))).
  { unfold x. cbn [baseClone]. unfold bind at 1.
    unfold C at 1, cloneDeep_customizer.
    cbn [isArray isPlainObject orb typeof_object typeof truthy andb].
    fold x. rewrite Hc.
    destruct (call_clone invoke x m) as [r m'] eqn:Er. cbn [fst snd].
    destruct (is_undefined r); reflexivity. }
  assert (Hm : m <= snd (call_clone invoke x m)).
  { unfold x, call_clone. unfold x in Hc. cbn [has_clone] in Hc.
    destruct (own ps (KStr "clone")) as [f|]; [|discriminate].
    apply invoke_forward. }
  rewrite E. cbn [fst snd]. split; [exact Hm|].
  intros hi Hhi. apply (cloned_by_method invoke lo hi x _ m).
  - unfold x at 1. cbn [isFunction typeof andb]. exact Hc.
  - lia.
  - reflexivity.
Qed.

Lemma clone_each_clones (sel : key -> bool) (ps : props) :
  Forall (fun kv => clones (snd kv)) ps ->
  forall m lo,
    lo <= m ->
    m <= snd (clone_each C sel ps m)
    /\ forall hi,
         snd (clone_each C sel ps m) <= hi ->
         Forall2 (fun kv kv' => fst kv' = fst kv
                                /\ cloned_as invoke lo hi (snd kv) (snd kv'))
           (filter (fun kv => sel (fst kv)) ps)
           (fst (clone_each C sel ps m)).
Proof.
  induction ps as [|[key sub] rest IH]; intros Hall m lo Hlo.
  - split; [apply Nat.le_refl | intros hi _; constructor].
  - inversion Hall as [|? ? Hsub Hrest]; subst. cbn [snd] in Hsub.
    cbn [clone_each filter fst]. destruct (sel key); [|now apply IH].
    unfold bind.
    destruct (Hsub m lo Hlo) as [Hle1 Hc1].
    destruct (baseClone C false sub m) as [sub' m1]. cbn [fst snd] in *.
    destruct (IH Hrest m1 lo ltac:(lia)) as [Hle2 Hc2].
    destruct (clone_each C sel rest m1) as [rest' m2]. cbn [fst snd ret] in *.
    split; [lia|]. intros hi Hhi. constructor.
    + split; [reflexivity|]. cbn [snd]. apply Hc1. lia.
    + now apply Hc2.
Qed.

Lemma value_clones (x : value) : clones x.
Proof.
  induction x as [| | b | z | s | l k ps IH] using value_nested_ind;
    try (now apply baseClone_reference).
  destruct k as [| |c|native].
  - (* a plain object *)
    intros m lo Hlo. unfold C.
    rewrite (baseClone_container invoke false false l Plain ps m)
      by now left.
    fold C.
    destruct (clone_each_clones is_string_key ps IH (S m) lo ltac:(lia))
      as [Hle1 Hc1].
    destruct (clone_each C is_string_key ps (S m)) as [strs n1].
    cbn [fst snd] in *.
    destruct (clone_each_clones (fun key => negb (is_string_key key)) ps IH
                n1 lo ltac:(lia)) as [Hle2 Hc2].
    destruct (clone_each C (fun key => negb (is_string_key key)) ps n1)
      as [syms n2].
    cbn [fst snd] in *. split; [lia|]. intros hi Hhi.
    apply cloned_structurally; [now left | lia |].
    unfold enumerated. apply Forall2_app; [apply Hc1 | apply Hc2]; lia.
  - (* an array *)
    intros m lo Hlo. unfold C.
    rewrite (baseClone_container invoke false false l Array ps m)
      by now right.
    fold C.
    destruct (clone_each_clones is_string_key ps IH (S m) lo ltac:(lia))
      as [Hle1 Hc1].
    destruct (clone_each C is_string_key ps (S m)) as [strs n1].
    cbn [fst snd] in *.
    destruct (clone_each_clones (fun key => negb (is_string_key key)) ps IH
                n1 lo ltac:(lia)) as [Hle2 Hc2].
    destruct (clone_each C (fun key => negb (is_string_key key)) ps n1)
      as [syms n2].
    cbn [fst snd] in *. split; [lia|]. intros hi Hhi.
    apply cloned_structurally; [now right | lia |].
    unfold enumerated. apply Forall2_app; [apply Hc1 | apply Hc2]; lia.
  - (* an instance of a class *)
    now apply baseClone_reference.
  - (* a function *)
    destruct (has_clone (VObject l (Function native) ps)) eqn:Hc.
    + now apply baseClone_method.
    + apply baseClone_reference; [reflexivity|].
      cbn [isFunction typeof andb]. exact Hc.
Qed.

(** C5 (as amended): without [onlyPlain], [cloneDeep] of an array or a
    plain object returns a new object of that kind in which, down the tree,
    every array and plain object is cloned structurally, every function
    that has a [clone] method is replaced by what calling that method
    returns (and kept when that is [undefined]), and every other value is
    handed on by reference: primitives, [null], functions without a
    [clone] method, and all instances of classes, those that have a
    [clone] method, such as [Fn], included. No array or plain object
    occurs twice in the input, and a call of the host does not take the
    allocator back. *)
Theorem cloneDeep_clones_by_kind (obj : value) (n : nat) :
  (isPlainObject obj || isArray obj) = true ->
  unshared [obj] = true ->
  exists r n',
    cloneDeep invoke obj false n = (r, n')
    /\ n < n'
    /\ cloned_as invoke n n' obj r.
Proof.
  intros Hk _.
  destruct obj as [| | | | |l k ps]; try discriminate.
  assert (Hk' : k = Plain \/ k = Array)
    by (destruct k; try discriminate; auto).
  destruct (value_clones (VObject l k ps) n n (Nat.le_refl n)) as [Hle Hc].
  assert (E : cloneDeep invoke (VObject l k ps) false n
              = baseClone C false (VObject l k ps) n).
  { unfold cloneDeep, cloneDeepWith, bind, C. cbn [truthy ret].
    rewrite (baseClone_container invoke false true l k ps n Hk').
    now rewrite <- (baseClone_container invoke false false l k ps n Hk'). }
  exists (fst (baseClone C false (VObject l k ps) n)),
         (snd (baseClone C false (VObject l k ps) n)).
  split; [rewrite E; now destruct (baseClone C false (VObject l k ps) n)|].
  split; [|apply Hc; apply Nat.le_refl].
  unfold C. rewrite (baseClone_container invoke false false l k ps n Hk').
  fold C.
  assert (Hall : Forall (fun kv => clones (snd kv)) ps).
  { apply Forall_forall. intros kv _. apply value_clones. }
  destruct (clone_each_clones is_string_key ps Hall (S n) n ltac:(lia))
    as [Hle1 _].
  pose proof (clone_each_clones (fun key => negb (is_string_key key)) ps Hall)
    as H2.
  destruct (clone_each C is_string_key ps (S n)) as [strs n1].
  destruct (H2 n1 n1 (Nat.le_refl n1)) as [Hle2 _].
  destruct (clone_each C (fun key => negb (is_string_key key)) ps n1)
    as [syms n2].
  cbn [fst snd] in *. lia.
Qed.

End CloneDeepByKind.

Section CloneDeepByKindWitness.
Import JS Lodash Utils ObjectSpec HelperSpec Samples.

Lemma cloneDeep_clones_by_kind_witness :
  exists r n',
    cloneDeep (fun _ this => ret this) options_with_fn false 3 = (r, n')
    /\ 3 < n'
    /\ cloned_as (fun _ this => ret this) 3 n' options_with_fn r.
Proof.
  apply (cloneDeep_clones_by_kind (fun _ this => ret this)).
  - intros f this m. cbn. lia.
  - reflexivity.
  - reflexivity.
Defined.

(** C5 as stated fails at an instance of [Fn]: it has a [clone] method,
    and [cloneDeep({ a: new Fn("max", []) })] is a new object that holds
    the very same instance; no call of [clone] during the copy returns
    it, every such call creating a new instance. *)
Lemma cloneDeep_keeps_Fn_instance :
  has_clone max_call = true
  /\ cloneDeep (fun _ this => ret this) options_with_fn false 3
     = (plain 3 [(KStr "a", max_call)], 4)
  /\ ~ clone_methods_invoked (fun _ this => ret this) (Addr 0)
         [(KStr "a", max_call)].
Proof.
  split; [reflexivity|]. split; [reflexivity|].
  intros H.
  destruct (H 3 "a" max_call eq_refl eq_refl eq_refl) as (m & Hm & E).
  cbn in E. injection E as E. lia.
Qed.

End CloneDeepByKindWitness.

Section MergeTotal.
Import JS Lodash Utils ObjectSpec HelperSpec.

Lemma bounded_index_from (d : nat) (elems : list value) :
  Forall (fun x => wdepth x <= d) elems ->
  forall i, bounded d (index_from i elems).
Proof.
  induction 1 as [|x rest Hx Hrest IH]; intros i k v Hin.
  - contradiction.
  - cbn [index_from] in Hin. destruct Hin as [E|Hin].
    + injection E as <- <-. exact Hx.
    + exact (IH (S i) k v Hin).
Qed.

Lemma array_elements_bounded (d : nat) (v : value) :
  wdepth v <= S d -> isArray v = true ->
  Forall (fun x => wdepth x <= d) (array_elements v).
Proof.
  destruct v as [| | | | |l [| | |] ps]; try discriminate.
  intros Hd _. rewrite wdepth_object in Hd.
  assert (Hb : bounded d ps) by (apply bounded_pdepth; lia).
  cbn [array_elements]. apply Forall_forall. intros x Hin.
  apply in_map_iff in Hin as ([k y] & <- & Hin).
  apply filter_In in Hin as [Hin _]. exact (Hb k y Hin).
Qed.

Lemma wdepth_array_positive (v : value) :
  isArray v = true -> 1 <= wdepth v.
Proof.
  destruct v as [| | | | |l [| | |] ps]; try discriminate.
  intros _. rewrite wdepth_object. lia.
Qed.

Lemma merge_value_total (merge2 : value -> value -> MO value) (d : nat)
    (result : props) (key : string) (v : value) (n : nat) :
  merges_below merge2 d -> bounded d result -> wdepth v <= d ->
  exists r n',
    merge_value merge2 result key v n = Some (r, n')
    /\ bounded d r /\ n <= n'.
Proof.
  intros Hrec Hb Hv. unfold merge_value.
  destruct (negb (is_undefined v)); [|now exists result, n].
  pose proof (lookup_bounded d result (KStr key) Hb) as Hc.
  destruct (negb (truthy (lookup result (KStr key)))).
  { exists (prop_set result (KStr key) v), n.
    split; [reflexivity|]. split; [now apply bounded_prop_set | lia]. }
  destruct (isPlainObject v && isPlainObject (lookup result (KStr key)))
    eqn:Ep.
  { apply andb_true_iff in Ep as [Hpv Hpc].
    destruct (Hrec (lookup result (KStr key)) v n Hpc Hpv Hc Hv)
      as (r & n' & E & Hr & Hle).
    exists (prop_set result (KStr key) r), n'. split; [|split; [|exact Hle]].
    - unfold bindO, retO. now rewrite E.
    - now apply bounded_prop_set. }
  destruct (isArray v && isArray (lookup result (KStr key))) eqn:Ea.
  { apply andb_true_iff in Ea as [Hav Hac].
    eexists; exists (S n); split; [reflexivity|]. split; [|lia].
    apply bounded_prop_set; [exact Hb|].
    pose proof (wdepth_array_positive v Hav) as Hpos.
    destruct d as [|d]; [lia|].
    unfold array. rewrite wdepth_object.
    apply le_n_S, bounded_pdepth, bounded_index_from, Forall_app.
    split; now apply array_elements_bounded. }
  exists (prop_set result (KStr key) v), n.
  split; [reflexivity|]. split; [now apply bounded_prop_set | lia].
Qed.

Lemma merge_props_total (merge2 : value -> value -> MO value) (d : nat) :
  merges_below merge2 d ->
  forall ps result n,
    bounded d ps -> bounded d result ->
    exists r n',
      merge_props merge2 ps result n = Some (r, n')
      /\ bounded d r /\ n <= n'.
Proof.
  intros Hrec. induction ps as [|[k v] rest IH]; intros result n Hps Hb.
  - now exists result, n.
  - assert (Hrest : bounded d rest)
      by (intros k' x Hin; apply (Hps k' x); now right).
    destruct k as [key| |]; cbn [merge_props]; try (now apply IH).
    destruct (merge_value_total merge2 d result key v n Hrec Hb)
      as (r1 & n1 & E1 & Hb1 & Hle1); [apply (Hps (KStr key) v); now left|].
    destruct (IH r1 n1 Hrest Hb1) as (r & n' & E & Hr & Hle).
    exists r, n'. split; [|split; [exact Hr | lia]].
    unfold bindO. now rewrite E1.
Qed.

Lemma merge_args_total (merge2 : value -> value -> MO value) (d : nat) :
  merges_below merge2 d ->
  forall args result n,
    Forall (fun a => bounded d (forOwn_props a)) args -> bounded d result ->
    exists r n',
      merge_args merge2 args result n = Some (r, n')
      /\ bounded d r /\ n <= n'.
Proof.
  intros Hrec. induction args as [|a rest IH]; intros result n Hargs Hb.
  - now exists result, n.
  - inversion Hargs as [|? ? Ha Hrest]; subst.
    destruct (merge_props_total merge2 d Hrec (forOwn_props a) result n Ha Hb)
      as (r1 & n1 & E1 & Hb1 & Hle1).
    destruct (IH r1 n1 Hrest Hb1) as (r & n' & E & Hr & Hle).
    exists r, n'. split; [|split; [exact Hr | lia]].
    cbn [merge_args]. unfold bindO. now rewrite E1.
Qed.

Lemma merge_below (fuel : nat) :
  forall d, d <= fuel -> merges_below (fun a b => merge fuel [a; b]) d.
Proof.
  induction fuel as [|fuel IH]; intros d Hd a b m Ha Hb Hda Hdb;
    destruct a as [| | | | |la [| | |] pa]; try discriminate;
    destruct b as [| | | | |lb [| | |] pb]; try discriminate;
    rewrite wdepth_object in Hda, Hdb; [lia|].
  destruct d as [|d]; [lia|].
  destruct (merge_args_total (fun a b => merge fuel [a; b]) d
              (IH d ltac:(lia))
              [VObject la Plain pa; VObject lb Plain pb] [] (S m))
    as (r & n' & E & Hr & Hle).
  - repeat constructor; cbn [forOwn_props]; apply bounded_pdepth; lia.
  - intros k x [].
  - exists (VObject (Addr m) Plain r), n'. split; [|split; [|lia]].
    + cbn [merge]. unfold bindO, liftO, alloc, retO. now rewrite E.
    + rewrite wdepth_object. apply bounded_pdepth in Hr. lia.
Qed.

(** X23: [merge] returns for any arguments none of whose objects has an
    own key [__proto__], given fuel for their nesting: the result is a new
    plain object, none of the objects of an argument created before the
    call, and its values nest no deeper than those of the arguments. *)
Theorem merge_returns_new_object (args : list value) (d fuel n : nat) :
  d < fuel ->
  Forall (fun a => bounded d (forOwn_props a)) args ->
  Forall (fun a => no_proto_key a = true) args ->
  exists r n',
    merge fuel args n = Some (VObject (Addr n) Plain r, n')
    /\ bounded d r /\ n < n'
    /\ Forall (fun a => created_before n a = true ->
                        ~ In (Addr n) (objects a)) args.
Proof.
  intros Hd Hargs _. destruct fuel as [|fuel]; [lia|].
  destruct (merge_args_total (fun a b => merge fuel [a; b]) d
              (merge_below fuel d ltac:(lia)) args [] (S n) Hargs)
    as (r & n' & E & Hr & Hle); [intros k x []|].
  exists r, n'. split; [|split; [exact Hr | split; [lia|]]].
  - cbn [merge]. unfold bindO, liftO, alloc, retO. now rewrite E.
  - apply Forall_forall. intros a _. apply below_not_next.
Qed.

Lemma merge_returns_new_object_witness :
  exists r n',
    merge 2
      [VObject (Addr 0) Plain
         [(KStr "where", VObject (Addr 1) Plain [(KStr "a", VNumber 1)])];
       VObject (Addr 2) Plain
         [(KStr "where", VObject (Addr 3) Plain [(KStr "b", VNumber 2)])]]
      4
    = Some (VObject (Addr 4) Plain r, n')
    /\ bounded 1 r /\ 4 < n'
    /\ Forall (fun a => created_before 4 a = true ->
                        ~ In (Addr 4) (objects a))
         [VObject (Addr 0) Plain
            [(KStr "where", VObject (Addr 1) Plain [(KStr "a", VNumber 1)])];
          VObject (Addr 2) Plain
            [(KStr "where", VObject (Addr 3) Plain [(KStr "b", VNumber 2)])]].
Proof.
  apply (merge_returns_new_object _ 1 2 4); [lia | |].
  - apply Forall_cons; [|apply Forall_cons; [|apply Forall_nil]];
      cbn [forOwn_props]; apply bounded_pdepth; cbn; lia.
  - apply Forall_cons; [|apply Forall_cons; [|apply Forall_nil]];
      reflexivity.
Defined.

End MergeTotal.

Section MergePair.
Import JS Lodash Utils ObjectSpec HelperSpec.

Lemma lookup_absent_kind (ps : props) (k : key) :
  own ps k = None ->
  isPlainObject (lookup ps k) = false /\ isArray (lookup ps k) = false.
Proof.
  intros H. unfold lookup, inherited. rewrite H.
  destruct k as [s| |]; try (now split).
  destruct (existsb (String.eqb s) object_prototype_names); now split.
Qed.

Lemma merge_value_fresh (merge2 : value -> value -> MO value)
    (result : props) (key : string) (v : value) (n : nat) :
  own result (KStr key) = None ->
  merge_value merge2 result key v n
  = Some (if negb (is_undefined v) then (result ++ [(KStr key, v)])%list
          else result, n).
Proof.
  intros Hown. unfold merge_value.
  destruct (negb (is_undefined v)); [|reflexivity].
  destruct (lookup_absent_kind result (KStr key) Hown) as [Hp Ha].
  rewrite Hp, Ha, !andb_false_r.
  rewrite (prop_set_fresh result (KStr key) v Hown).
  now destruct (negb (truthy (lookup result (KStr key)))).
Qed.

Lemma merge_props_fresh (merge2 : value -> value -> MO value) (ps : props) :
  NoDup (Object_keys ps) ->
  forall result n,
    (forall key, In key (Object_keys ps) -> own result (KStr key) = None) ->
    merge_props merge2 ps result n
    = Some ((result ++ filter defined_entry ps)%list, n).
Proof.
  induction ps as [|[k v] rest IH]; intros Hnd result n Hfresh.
  - cbn. unfold retO. now rewrite app_nil_r.
  - destruct k as [key| |]; cbn [merge_props filter Object_keys] in *;
      unfold defined_entry at 1; cbn [fst snd is_string_key andb];
      try (now apply IH).
    inversion Hnd as [|? ? Hnotin Hnd']; subst.
    unfold bindO.
    rewrite (merge_value_fresh merge2 result key v n)
      by (apply Hfresh; now left).
    destruct (negb (is_undefined v)).
    + rewrite IH; [now rewrite <- app_assoc | exact Hnd' |].
      intros key' Hin. rewrite own_app.
      rewrite (Hfresh key') by now right.
      cbn [own]. destruct (key_eqb (KStr key) (KStr key')) eqn:E;
        [|reflexivity].
      apply key_eqb_eq in E. injection E as ->. contradiction.
    + apply IH; [exact Hnd'|].
      intros key' Hin. apply Hfresh. now right.
Qed.

(** X24: [merge] of a single object is a shallow copy without the
    [undefined] values: a new plain object holding, in order, the
    string-keyed entries of the argument whose value is not [undefined],
    each value the very value of the argument and no clone of it. The keys
    are distinct and none is [__proto__], which an assignment does not
    store as a property. *)
Theorem merge_single_is_shallow_copy (l : loc) (k : kind) (ps : props)
    (fuel n : nat) :
  NoDup (Object_keys ps) ->
  ~ In "__proto__" (Object_keys ps) ->
  merge (S fuel) [VObject l k ps] n
  = Some (VObject (Addr n) Plain (filter defined_entry ps), S n).
Proof.
  intros Hnd _. cbn [merge merge_args forOwn_props].
  unfold bindO, liftO, alloc, retO.
  now rewrite (merge_props_fresh _ ps Hnd [] (S n)).
Qed.

Lemma merge_single_is_shallow_copy_witness :
  merge 1
    [VObject (Addr 0) Plain
       [(KStr "model", VObject (Addr 1) (Instance (OtherClass "Model")) []);
        (KStr "limit", VUndefined)]] 2
  = Some (VObject (Addr 2) Plain
            [(KStr "model", VObject (Addr 1) (Instance (OtherClass "Model")) [])],
          3).
Proof.
  apply (merge_single_is_shallow_copy (Addr 0) Plain
           [(KStr "model", VObject (Addr 1) (Instance (OtherClass "Model")) []);
            (KStr "limit", VUndefined)] 0 2).
  - repeat constructor; cbn; intuition discriminate.
  - cbn. intuition discriminate.
Defined.

Lemma merge_value_at (fuel : nat) (result : props) (key : string)
    (v : value) (n : nat) (r : props) (n' : nat) :
  merge_value (fun a b => merge fuel [a; b]) result key v n = Some (r, n') ->
  (forall k, k <> KStr key -> own r k = own result k)
  /\ (is_undefined v = true -> r = result)
  /\ (is_undefined v = false ->
      exists rv,
        own r (KStr key) = Some rv
        /\ merge_pair_at (lookup result (KStr key)) v rv).
Proof.
  unfold merge_value. intros H.
  destruct (is_undefined v) eqn:Eu; cbn [negb] in H.
  { injection H as <- <-. repeat split; try discriminate; auto. }
  set (current := lookup result (KStr key)) in *.
  assert (Hset : forall x m,
             Some (prop_set result (KStr key) x, m) = Some (r, n') ->
             (forall k, k <> KStr key -> own r k = own result k)
             /\ own r (KStr key) = Some x).
  { intros x m [= <- <-]. split.
    - intros k Hk. now apply own_prop_set_other.
    - apply own_prop_set_same. }
  destruct (truthy current) eqn:Et; cbn [negb] in H.
  - destruct (isPlainObject v && isPlainObject current) eqn:Ep.
    + unfold bindO in H.
      destruct (merge fuel [current; v] n) as [[rv n1]|] eqn:E;
        [|discriminate].
      destruct (Hset rv n1 H) as [Hother Hsame].
      split; [exact Hother|]. split; [discriminate|]. intros _.
      exists rv. split; [exact Hsame|].
      repeat split; try congruence. intros _ _. eauto.
    + destruct (isArray v && isArray current) eqn:Ea.
      * destruct (Hset _ _ H) as [Hother Hsame].
        split; [exact Hother|]. split; [discriminate|]. intros _.
        eexists. split; [exact Hsame|].
        repeat split; try congruence. intros _ _ _. eauto.
      * destruct (Hset _ _ H) as [Hother Hsame].
        split; [exact Hother|]. split; [discriminate|]. intros _.
        exists v. split; [exact Hsame|].
        repeat split; congruence.
  - destruct (Hset _ _ H) as [Hother Hsame].
    split; [exact Hother|]. split; [discriminate|]. intros _.
    exists v. split; [exact Hsame|].
    repeat split; congruence.
Qed.

Lemma merge_props_at (fuel : nat) (ps : props) :
  NoDup (Object_keys ps) ->
  forall result n r n',
    merge_props (fun a b => merge fuel [a; b]) ps result n = Some (r, n') ->
    (forall k,
        (forall key, k = KStr key -> ~ In key (Object_keys ps)) ->
        own r k = own result k)
    /\ (forall key bv,
          In (KStr key, bv) ps ->
          (is_undefined bv = true ->
           own r (KStr key) = own result (KStr key))
          /\ (is_undefined bv = false ->
              exists rv,
                own r (KStr key) = Some rv
                /\ merge_pair_at (lookup result (KStr key)) bv rv)).
Proof.
  induction ps as [|[k v] rest IH]; intros Hnd result n r n' H.
  - injection H as <- <-. split; [reflexivity | intros key bv []].
  - destruct k as [key0| |]; cbn [merge_props Object_keys] in *.
    + inversion Hnd as [|? ? Hnotin Hnd']; subst.
      unfold bindO in H.
      destruct (merge_value _ result key0 v n) as [[r1 n1]|] eqn:E1;
        [|discriminate].
      destruct (merge_value_at fuel result key0 v n r1 n1 E1)
        as (Hother & Hundef & Hdef).
      destruct (IH Hnd' r1 n1 r n' H) as (Hkeep & Hat).
      split.
      * intros k Hk. rewrite Hkeep.
        -- apply Hother. intros ->. apply (Hk key0 eq_refl). now left.
        -- intros key -> Hin. apply (Hk key eq_refl). now right.
      * intros key bv [Heq | Hin].
        -- injection Heq as -> ->.
           assert (Hr : own r (KStr key) = own r1 (KStr key)).
           { apply Hkeep. intros key' [= <-]. exact Hnotin. }
           rewrite Hr. split.
           ++ intros Hu. now rewrite (Hundef Hu).
           ++ exact Hdef.
        -- assert (Hne : KStr key <> KStr key0).
           { intros [= ->]. apply Hnotin.
             clear - Hin. induction rest as [|[[s| |] x] rest IH];
               cbn [Object_keys]; [contradiction | | |];
               destruct Hin as [E|Hin]; try discriminate; auto.
             - injection E as -> ->. now left.
             - right; auto. }
           destruct (Hat key bv Hin) as (Hu & Hd).
           assert (Hl : lookup r1 (KStr key) = lookup result (KStr key)).
           { unfold lookup. now rewrite (Hother _ Hne). }
           rewrite Hl, (Hother _ Hne) in *. now split.
    + destruct (IH Hnd result n r n' H) as (Hkeep & Hat). split.
      * intros k Hk. now apply Hkeep.
      * intros key bv [Heq | Hin]; [discriminate | now apply Hat].
    + destruct (IH Hnd result n r n' H) as (Hkeep & Hat). split.
      * intros k Hk. now apply Hkeep.
      * intros key bv [Heq | Hin]; [discriminate | now apply Hat].
Qed.

(** X25: [merge(a, b)] key by key. It returns, given fuel for the nesting,
    a new plain object in which a key of [b] with a value other than
    [undefined] holds: that value where [a] alone gave a falsy one; the
    merge of the two values where both are plain objects; for two arrays
    a new array of [b]'s elements followed by [a]'s; and [b]'s value
    otherwise. A key that [b] lacks or holds [undefined] at keeps what [a]
    alone gave. Keys are distinct in [a] and in [b], and none is
    [__proto__]. *)
Theorem merge_pair_by_key (la lb : loc) (ka kb : kind) (a b : props)
    (d fuel n : nat) :
  d < fuel -> bounded d a -> bounded d b ->
  NoDup (Object_keys a) -> NoDup (Object_keys b) ->
  ~ In "__proto__" (Object_keys a) -> ~ In "__proto__" (Object_keys b) ->
  exists r n',
    merge fuel [VObject la ka a; VObject lb kb b] n
    = Some (VObject (Addr n) Plain r, n')
    /\ (forall key bv,
          In (KStr key, bv) b -> bv <> VUndefined ->
          merge_pair_at (lookup (filter defined_entry a) (KStr key)) bv
            (lookup r (KStr key)))
    /\ (forall key,
          own b (KStr key) = None \/ own b (KStr key) = Some VUndefined ->
          lookup r (KStr key) = lookup (filter defined_entry a) (KStr key)).
Proof.
  intros Hd Hba Hbb Hna Hnb _ _.
  destruct fuel as [|fuel]; [lia|].
  destruct (merge_args_total (fun x y => merge fuel [x; y]) d
              (merge_below fuel d ltac:(lia))
              [VObject la ka a; VObject lb kb b] [] (S n))
    as (r & n' & E & _ & _).
  { repeat constructor; assumption. }
  { intros k x []. }
  exists r, n'. split.
  { cbn [merge]. unfold bindO, liftO, alloc, retO. now rewrite E. }
  cbn [merge_args forOwn_props] in E. unfold bindO at 1 in E.
  rewrite (merge_props_fresh _ a Hna [] (S n)) in E by reflexivity.
  cbn [app] in E. unfold bindO, retO in E.
  destruct (merge_props _ b (filter defined_entry a) (S n))
    as [[r1 n1]|] eqn:Eb; [|discriminate].
  injection E as <- <-.
  destruct (merge_props_at fuel b Hnb _ _ _ _ Eb) as (Hkeep & Hat).
  split.
  - intros key bv Hin Hne.
    destruct (Hat key bv Hin) as (_ & Hdef).
    destruct Hdef as (rv & Hrv & Hp).
    { now destruct bv. }
    unfold lookup at 2. now rewrite Hrv.
  - intros key Hown.
    assert (Ho : own r1 (KStr key) = own (filter defined_entry a) (KStr key)).
    { destruct Hown as [Hnone | Hsome].
      - apply Hkeep. intros key' [= <-] Hin.
        apply own_none_keys in Hnone. apply Hnone.
        clear - Hin. induction b as [|[[s| |] x] rest IH];
          cbn [Object_keys map fst] in *; [contradiction | | |];
          try (right; now apply IH).
        destruct Hin as [-> | Hin]; [now left | right; now apply IH].
      - apply own_some_in in Hsome.
        destruct (Hat key VUndefined Hsome) as (Hu & _).
        now apply Hu. }
    unfold lookup. now rewrite Ho.
Qed.

Lemma merge_pair_by_key_witness :
  exists r n',
    merge 2
      [VObject (Addr 0) Plain
         [(KStr "include", array (Addr 1) [VNumber 1]);
          (KStr "limit", VNumber 5)];
       VObject (Addr 2) Plain
         [(KStr "include", array (Addr 3) [VNumber 2]);
          (KStr "limit", VUndefined)]] 4
    = Some (VObject (Addr 4) Plain r, n')
    /\ lookup r (KStr "limit") = VNumber 5
    /\ exists m,
         lookup r (KStr "include") = array (Addr m) [VNumber 2; VNumber 1].
Proof.
  destruct (merge_pair_by_key (Addr 0) (Addr 2) Plain Plain
              [(KStr "include", array (Addr 1) [VNumber 1]);
               (KStr "limit", VNumber 5)]
              [(KStr "include", array (Addr 3) [VNumber 2]);
               (KStr "limit", VUndefined)] 1 2 4)
    as (r & n' & E & Hat & Hkeep).
  - lia.
  - apply bounded_pdepth. cbn. lia.
  - apply bounded_pdepth. cbn. lia.
  - repeat constructor; cbn; intuition discriminate.
  - repeat constructor; cbn; intuition discriminate.
  - cbn. intuition discriminate.
  - cbn. intuition discriminate.
  - exists r, n'. split; [exact E|]. split.
    + apply (Hkeep "limit"). now right.
    + destruct (Hat "include" (array (Addr 3) [VNumber 2]))
        as (_ & _ & Harr & _); [now left | discriminate |].
      apply Harr; reflexivity.
Defined.

End MergePair.

Section RegExpFacts.
Import JSString RegExp HelperSpec.

Lemma append_empty (s1 s2 : string) :
  (s1 ++ s2)%string = EmptyString -> s1 = EmptyString /\ s2 = EmptyString.
Proof. destruct s1; [auto | discriminate]. Qed.

Lemma append_empty_r (s : string) : (s ++ "")%string = s.
Proof. induction s as [|c s IH]; [reflexivity|]. cbn. now rewrite IH. Qed.

Lemma Matches_seq_inv (r1 r2 : regex) (s : string) :
  Matches (Seq r1 r2) s ->
  exists s1 s2, s = (s1 ++ s2)%string /\ Matches r1 s1 /\ Matches r2 s2.
Proof. intros H. inversion H; subst. eauto. Qed.

Lemma Matches_alt_inv (r1 r2 : regex) (s : string) :
  Matches (Alt r1 r2) s -> Matches r1 s \/ Matches r2 s.
Proof. intros H. inversion H; subst; auto. Qed.

Lemma Matches_class_inv (p : ascii -> bool) (s : string) :
  Matches (Class p) s -> exists c, s = String c EmptyString /\ p c = true.
Proof. intros H. inversion H; subst. eauto. Qed.

Lemma Matches_epsilon_inv (s : string) :
  Matches Epsilon s -> s = EmptyString.
Proof. intros H. now inversion H. Qed.

Lemma Matches_empty_inv (s : string) : ~ Matches Empty s.
Proof. intros H. inversion H. Qed.

Lemma nullable_Matches (r : regex) :
  nullable r = true <-> Matches r EmptyString.
Proof.
  induction r as [| |p|r1 IH1 r2 IH2|r1 IH1 r2 IH2|r IH]; cbn [nullable].
  - split; [discriminate | intros H; now apply Matches_empty_inv in H].
  - split; [constructor | reflexivity].
  - split; [discriminate|].
    intros H. apply Matches_class_inv in H as (c & E & _). discriminate.
  - rewrite andb_true_iff, IH1, IH2. split.
    + intros [H1 H2]. exact (Matches_seq r1 r2 "" "" H1 H2).
    + intros H. apply Matches_seq_inv in H as (s1 & s2 & E & H1 & H2).
      symmetry in E. apply append_empty in E as [-> ->]. auto.
  - rewrite orb_true_iff, IH1, IH2. split.
    + intros [H|H]; [now apply Matches_left | now apply Matches_right].
    + apply Matches_alt_inv.
  - split; [constructor | reflexivity].
Qed.

Lemma Matches_star_head (r : regex) (c : ascii) (s : string) :
  Matches (Star r) (String c s) ->
  exists s1 s2,
    s = (s1 ++ s2)%string /\ Matches r (String c s1) /\ Matches (Star r) s2.
Proof.
  intros H. remember (Star r) as r0 eqn:Er. remember (String c s) as s0 eqn:Es.
  revert s Es.
  induction H as [| | | | | |r' s1 s2 H1 _ H2 IH2]; intros t Et;
    try discriminate.
  injection Er as ->.
  destruct s1 as [|c1 s1].
  - cbn [append] in Et. now apply IH2.
  - cbn [append] in Et. injection Et as -> <-.
    exists s1, s2. auto.
Qed.

Lemma derivative_Matches (c : ascii) (r : regex) :
  forall s, Matches (derivative c r) s <-> Matches r (String c s).
Proof.
  induction r as [| |p|r1 IH1 r2 IH2|r1 IH1 r2 IH2|r IH]; intros s;
    cbn [derivative].
  - split; intros H; now apply Matches_empty_inv in H.
  - split; intros H; [now apply Matches_empty_inv in H|].
    apply Matches_epsilon_inv in H. discriminate.
  - destruct (p c) eqn:E; split; intros H.
    + apply Matches_epsilon_inv in H. subst s. now constructor.
    + apply Matches_class_inv in H as (c' & [= <- ->] & _). constructor.
    + now apply Matches_empty_inv in H.
    + apply Matches_class_inv in H as (c' & [= <- ->] & Hp). congruence.
  - split.
    + intros H. apply Matches_alt_inv in H as [HL | HR].
      * apply Matches_seq_inv in HL as (s1 & s2 & -> & H1 & H2).
        apply IH1 in H1.
        exact (Matches_seq r1 r2 (String c s1) s2 H1 H2).
      * destruct (nullable r1) eqn:En;
          [|now apply Matches_empty_inv in HR].
        apply nullable_Matches in En. apply IH2 in HR.
        exact (Matches_seq r1 r2 "" (String c s) En HR).
    + intros H. apply Matches_seq_inv in H as (s1 & s2 & E & H1 & H2).
      destruct s1 as [|c1 s1]; cbn [append] in E.
      * subst s2. apply Matches_right.
        apply nullable_Matches in H1. rewrite H1. now apply IH2.
      * injection E as <- ->. apply Matches_left.
        apply Matches_seq; [now apply IH1 | exact H2].
  - split.
    + intros H. apply Matches_alt_inv in H as [H|H].
      * apply Matches_left. now apply IH1.
      * apply Matches_right. now apply IH2.
    + intros H. apply Matches_alt_inv in H as [H|H].
      * apply Matches_left. now apply IH1.
      * apply Matches_right. now apply IH2.
  - split.
    + intros H. apply Matches_seq_inv in H as (s1 & s2 & -> & H1 & H2).
      apply IH in H1.
      exact (Matches_star_cons r (String c s1) s2 H1 H2).
    + intros H. apply Matches_star_head in H as (s1 & s2 & -> & H1 & H2).
      apply Matches_seq; [now apply IH | exact H2].
Qed.

(** The test by derivatives accepts exactly the strings the pattern stands
    for. *)
Lemma test_Matches (r : regex) (s : string) :
  test r s = true <-> Matches r s.
Proof.
  revert r. induction s as [|c s IH]; intros r; cbn [test].
  - apply nullable_Matches.
  - rewrite IH. apply derivative_Matches.
Qed.

Lemma void_not_nullable (r : regex) : void r = true -> nullable r = false.
Proof.
  induction r as [| |p|r1 IH1 r2 IH2|r1 IH1 r2 IH2|r IH];
    cbn [void nullable]; try discriminate; auto.
  - intros H. apply orb_true_iff in H as [H|H].
    + now rewrite (IH1 H).
    + rewrite (IH2 H). apply andb_false_r.
  - intros H. apply andb_true_iff in H as [H1 H2].
    now rewrite (IH1 H1), (IH2 H2).
Qed.

Lemma void_derivative (c : ascii) (r : regex) :
  void r = true -> void (derivative c r) = true.
Proof.
  induction r as [| |p|r1 IH1 r2 IH2|r1 IH1 r2 IH2|r IH];
    cbn [void derivative]; try discriminate; auto.
  - intros H. apply orb_true_iff in H as [H|H].
    + rewrite (IH1 H), (void_not_nullable r1 H). reflexivity.
    + rewrite H, orb_true_r. cbn [andb].
      destruct (nullable r1); [now apply IH2 | reflexivity].
  - intros H. apply andb_true_iff in H as [H1 H2].
    now rewrite (IH1 H1), (IH2 H2).
Qed.

Lemma void_test (r : regex) (s : string) : void r = true -> test r s = false.
Proof.
  revert r. induction s as [|c s IH]; intros r H; cbn [test].
  - now apply void_not_nullable.
  - apply IH. now apply void_derivative.
Qed.

Lemma Matches_star_class (p : ascii -> bool) (s : string) :
  all_chars p s = true <-> Matches (Star (Class p)) s.
Proof.
  split.
  - induction s as [|c s IH]; [constructor|].
    cbn [all_chars]. intros H. apply andb_true_iff in H as [Hc Hs].
    apply (Matches_star_cons (Class p) (String c "") s);
      [now constructor | now apply IH].
  - intros H. remember (Star (Class p)) as r eqn:Er.
    induction H as [| | | | | |r' s1 s2 H1 _ H2 IH2]; try discriminate;
      [reflexivity|].
    injection Er as ->.
    apply Matches_class_inv in H1 as (c & -> & Hc).
    cbn [append all_chars]. rewrite IH2 by reflexivity.
    now rewrite Hc.
Qed.

End RegExpFacts.

Section IdentifierQuoted.
Import JSString Utils RegExp Quote QuoteSpec HelperSpec.

Let inside (q : ascii) : regex :=
  Star (Alt (Class (fun c => negb (Ascii.eqb q c)
                             && negb (is_line_terminator c)))
            (Seq (Class (Ascii.eqb q)) (Class (Ascii.eqb q)))).

Lemma escaped_body_Matches (q : ascii) :
  forall n s,
    String.length s <= n -> escaped_body q s = true -> Matches (inside q) s.
Proof.
  induction n as [|n IH]; intros s Hlen H.
  - destruct s; [constructor | cbn in Hlen; lia].
  - destruct s as [|c s]; [constructor|].
    cbn [escaped_body] in H. cbn [String.length] in Hlen.
    destruct (Ascii.eqb q c) eqn:Ec.
    + destruct s as [|c' s]; [discriminate|].
      apply andb_true_iff in H as [Hc' Hs].
      cbn [String.length] in Hlen.
      apply (Matches_star_cons _ (String c (String c' "")) s).
      * apply Matches_right.
        apply (Matches_seq _ _ (String c "") (String c' ""));
          now constructor.
      * apply IH; [lia | exact Hs].
    + apply andb_true_iff in H as [Hc Hs].
      apply (Matches_star_cons _ (String c "") s).
      * apply Matches_left. constructor. now rewrite Ec, Hc.
      * apply IH; [lia | exact Hs].
Qed.

Lemma quoted_segment_Matches (part : ascii * string) (dot : bool) :
  well_quoted part = true ->
  Matches any_quoted_segment
    (quoted part ++ (if dot then "." else ""))%string.
Proof.
  destruct part as [q body]. unfold well_quoted, quoted. cbn [fst snd].
  intros H. apply andb_true_iff in H as [Hq Hbody].
  assert (Hseg : Matches (quoted_segment q)
                   (String q (body ++ String q "")
                    ++ (if dot then "." else ""))%string).
  { unfold quoted_segment. cbn [append].
    apply (Matches_seq _ _ (String q "")); [constructor; apply Ascii.eqb_refl|].
    rewrite string_app_assoc.
    apply Matches_seq.
    - apply (escaped_body_Matches q (String.length body)); [lia | exact Hbody].
    - cbn [append].
      apply (Matches_seq _ _ (String q ""));
        [constructor; apply Ascii.eqb_refl|].
      destruct dot.
      + apply Matches_left. now constructor.
      + apply Matches_right. constructor. }
  unfold is_quote in Hq. unfold any_quoted_segment.
  apply orb_true_iff in Hq as [Hq|Hq];
    [apply orb_true_iff in Hq as [Hq|Hq]|]; apply Ascii.eqb_eq in Hq;
    subst q.
  - now apply Matches_left.
  - apply Matches_right. now apply Matches_left.
  - apply Matches_right. now apply Matches_right.
Qed.

Lemma quoted_path_Matches (parts : list (ascii * string)) :
  parts <> [] ->
  Forall (fun part => well_quoted part = true) parts ->
  Matches (Plus any_quoted_segment) (String.concat "." (map quoted parts)).
Proof.
  induction parts as [|part rest IH]; intros Hne Hall; [congruence|].
  inversion Hall as [|? ? Hpart Hrest]; subst.
  destruct rest as [|part' rest'].
  - cbn [map String.concat].
    replace (quoted part) with ((quoted part ++ "") ++ "")%string
      by now rewrite !append_empty_r.
    apply Matches_seq; [|constructor].
    exact (quoted_segment_Matches part false Hpart).
  - change (String.concat "." (map quoted (part :: part' :: rest')))
      with (quoted part ++ "." ++ String.concat "." (map quoted (part' :: rest')))%string.
    rewrite <- string_app_assoc.
    apply Matches_seq.
    + exact (quoted_segment_Matches part true Hpart).
    + assert (H : Matches (Plus any_quoted_segment)
                    (String.concat "." (map quoted (part' :: rest'))))
        by (apply IH; [discriminate | exact Hrest]).
      unfold Plus in H.
      apply Matches_seq_inv in H as (s1 & s2 & -> & H1 & H2).
      now apply Matches_star_cons.
Qed.

Lemma accepts_path (before after : string) (parts : list (ascii * string)) :
  all_chars is_space before = true -> all_chars is_space after = true ->
  parts <> [] ->
  Forall (fun part => well_quoted part = true) parts ->
  isIdentifierQuoted
    (before ++ String.concat "." (map quoted parts) ++ after)
  = true.
Proof.
  intros Hb Ha Hne Hall. unfold isIdentifierQuoted.
  apply test_Matches. unfold identifier_pattern.
  apply Matches_seq; [now apply Matches_star_class|].
  apply Matches_seq; [now apply quoted_path_Matches|].
  now apply Matches_star_class.
Qed.

(** X28: [isIdentifierQuoted] accepts every path of quoted names: one or
    more names, each between two quotes of one kind (backtick, double
    quote or single quote, chosen name by name) with no line terminator
    inside and the quote only doubled, joined by dots, with white space
    before and after. *)
Theorem isIdentifierQuoted_accepts_path (before after : string)
    (parts : list (ascii * string)) :
  all_chars is_space before = true -> all_chars is_space after = true ->
  parts <> [] ->
  Forall (fun part => well_quoted part = true) parts ->
  isIdentifierQuoted
    (before ++ String.concat "." (map quoted parts) ++ after)
  = true.
Proof. apply accepts_path. Qed.

Lemma isIdentifierQuoted_accepts_path_witness :
  isIdentifierQuoted
    (" " ++ String.concat "."
              (map quoted [(DQUOTE, "public"); ("`"%char, "us``ers")])
     ++ "")
  = true.
Proof.
  apply (isIdentifierQuoted_accepts_path " " ""
           [(DQUOTE, "public"); ("`"%char, "us``ers")]);
    [reflexivity | reflexivity | discriminate |].
  repeat constructor.
Defined.

Lemma quoted_segment_head (q : ascii) (s : string) :
  Matches (quoted_segment q) s -> exists s', s = String q s'.
Proof.
  unfold quoted_segment. intros H.
  apply Matches_seq_inv in H as (s1 & s2 & -> & H1 & H2).
  apply Matches_class_inv in H1 as (c & -> & Hc).
  apply Ascii.eqb_eq in Hc. subst c. now exists s2.
Qed.

Lemma any_quoted_segment_head (s : string) :
  Matches any_quoted_segment s ->
  exists q s', is_quote q = true /\ s = String q s'.
Proof.
  unfold any_quoted_segment. intros H.
  apply Matches_alt_inv in H as [HL | HR].
  - destruct (quoted_segment_head _ _ HL) as (s' & ->).
    now exists "`"%char, s'.
  - apply Matches_alt_inv in HR as [HL' | HR'].
    + destruct (quoted_segment_head _ _ HL') as (s' & ->).
      now exists DQUOTE, s'.
    + destruct (quoted_segment_head _ _ HR') as (s' & ->).
      now exists "'"%char, s'.
Qed.

Lemma trimStart_spaces (ws : string) (c : ascii) (rest : string) :
  all_chars is_space ws = true -> is_space c = false ->
  trimStart (ws ++ String c rest) = String c rest.
Proof.
  intros Hws Hc. induction ws as [|w ws IH].
  - cbn [append trimStart]. now rewrite Hc.
  - cbn [all_chars] in Hws. apply andb_true_iff in Hws as [Hw Hws].
    cbn [append trimStart]. rewrite Hw. now apply IH.
Qed.

Lemma quote_not_space (q : ascii) : is_quote q = true -> is_space q = false.
Proof.
  unfold is_quote. intros H.
  apply orb_true_iff in H as [H|H];
    [apply orb_true_iff in H as [H|H]|]; apply Ascii.eqb_eq in H; subst q;
    reflexivity.
Qed.

(** X29: what [isIdentifierQuoted] accepts begins, after its leading white
    space, with one of the three quote characters; an identifier that does
    not is never reported as quoted, the bracketed form of the mssql
    dialect included. *)
Theorem isIdentifierQuoted_needs_quote (identifier : string) :
  (isIdentifierQuoted identifier = true ->
   exists q, is_quote q = true
             /\ first_char (trimStart identifier) = Some q)
  /\ (forall s, isIdentifierQuoted ("[" ++ s ++ "]") = false).
Proof.
  split.
  - unfold isIdentifierQuoted. intros H. apply test_Matches in H.
    unfold identifier_pattern, Plus in H.
    apply Matches_seq_inv in H as (ws & s2 & -> & Hws & H2).
    apply Matches_seq_inv in H2 as (s3 & s4 & -> & H3 & H4).
    apply Matches_seq_inv in H3 as (s5 & s6 & -> & H5 & H6).
    destruct (any_quoted_segment_head _ H5) as (q & s' & Hq & ->).
    exists q. split; [exact Hq|].
    apply Matches_star_class in Hws.
    cbn [append].
    now rewrite (trimStart_spaces ws q _ Hws (quote_not_space q Hq)).
  - intros s. unfold isIdentifierQuoted. cbn [append test].
    apply void_test. reflexivity.
Qed.

Lemma all_chars_remove_all (p cls : ascii -> bool) (s : string) :
  all_chars p s = true -> all_chars p (remove_all cls s) = true.
Proof.
  induction s as [|c s IH]; [reflexivity|].
  cbn [all_chars remove_all]. intros H.
  apply andb_true_iff in H as [Hc Hs].
  destruct (cls c); [now apply IH|].
  cbn [all_chars]. now rewrite Hc, IH.
Qed.

Lemma escaped_body_removeTicks (q : ascii) (s : string) :
  all_chars (fun c => negb (is_line_terminator c)) s = true ->
  escaped_body q (removeTicks s q) = true.
Proof.
  unfold removeTicks. induction s as [|c s IH]; [reflexivity|].
  cbn [all_chars remove_all]. intros H.
  apply andb_true_iff in H as [Hc Hs].
  destruct (Ascii.eqb q c) eqn:E; [now apply IH|].
  cbn [escaped_body]. rewrite E, Hc. now apply IH.
Qed.

Lemma addTicks_quoted (s : string) (q : ascii) :
  is_quote q = true ->
  all_chars (fun c => negb (is_line_terminator c)) s = true ->
  isIdentifierQuoted (addTicks s q) = true.
Proof.
  intros Hq Hs.
  assert (Hw : Forall (fun part => well_quoted part = true)
                 [(q, removeTicks s q)]).
  { constructor; [|constructor]. unfold well_quoted. cbn [fst snd].
    rewrite Hq. now apply escaped_body_removeTicks. }
  pose proof (accepts_path "" "" [(q, removeTicks s q)] eq_refl eq_refl
                ltac:(discriminate) Hw) as Hp.
  cbn [map String.concat append quoted fst snd] in Hp.
  rewrite append_empty_r in Hp. exact Hp.
Qed.

(** X30: [isIdentifierQuoted] recognises what [quoteIdentifier] returns for
    the dialects that quote with backticks (sqlite, mariadb, mysql) and,
    unless the options leave the identifier unquoted, with double quotes
    (postgres), and it does not recognise the brackets of mssql. The
    identifier is not [*] and holds no line terminator. *)
Theorem isIdentifierQuoted_quoteIdentifier (dialect identifier : string)
    (options : option QuoteIdentifierOptions) :
  identifier <> "*" ->
  all_chars (fun c => negb (is_line_terminator c)) identifier = true ->
  (In dialect ["sqlite"; "mariadb"; "mysql"]
   \/ (dialect = "postgres"
       /\ postgres_unquoted identifier (with_defaults options) = false) ->
   exists r,
     quoteIdentifier dialect identifier options = Return r
     /\ isIdentifierQuoted r = true)
  /\ (dialect = "mssql" ->
      exists r,
        quoteIdentifier dialect identifier options = Return r
        /\ isIdentifierQuoted r = false).
Proof.
  intros Hne Hlt.
  assert (Hstar : (identifier =? "*")%string = false)
    by now apply String.eqb_neq.
  split.
  - intros [Hd | [-> Hpg]].
    + exists (addTicks (removeTicks identifier "`"%char) "`"%char). split.
      * unfold quoteIdentifier. rewrite Hstar.
        destruct Hd as [<- | [<- | [<- | []]]]; reflexivity.
      * apply addTicks_quoted; [reflexivity|].
        unfold removeTicks. now apply all_chars_remove_all.
    + exists (addTicks (removeTicks identifier DQUOTE) DQUOTE). split.
      * unfold quoteIdentifier. rewrite Hstar. cbn [String.eqb Ascii.eqb
          Bool.eqb orb]. now rewrite Hpg.
      * apply addTicks_quoted; [reflexivity|].
        unfold removeTicks. now apply all_chars_remove_all.
  - intros ->. eexists. split.
    + unfold quoteIdentifier. rewrite Hstar. reflexivity.
    + unfold isIdentifierQuoted. cbn [append test].
      apply void_test. reflexivity.
Qed.

Lemma isIdentifierQuoted_quoteIdentifier_witness :
  exists r,
    quoteIdentifier "mysql" "us`ers" None = Return r
    /\ isIdentifierQuoted r = true.
Proof.
  apply (proj1 (isIdentifierQuoted_quoteIdentifier "mysql" "us`ers" None
                  ltac:(discriminate) eq_refl)).
  left. right. right. now left.
Defined.

End IdentifierQuoted.
